(** * Catalog pages: currency parsing, discounts, sorting and rendering

    A shallow embedding of the scripts of the two catalog pages of the
    repository:

    - [Carros], [CarrosPage]   : [carros.js]  (prices [preco_publico] /
      [preco_pcd]);
    - [Imoveis], [ImoveisPage] : [imoveis.js] (single price [valor]).

    [Carros] and [Imoveis] hold the value parsing, the discounts and the
    sorter; [CarrosPage] and [ImoveisPage] hold [renderImoveis] and the
    handlers of [DOMContentLoaded] and of the selector's [change] event.

    JavaScript values are modelled as the language defines them:
    strings are sequences of UTF-16 code units, Numbers are IEEE 754
    binary64 values (the Standard Library's [spec_float] at precision 53),
    arrays live in a store and are passed by reference.  Of the document
    the model keeps what the scripts touch: the children of the listing
    container, the value of the selector and the calls of
    [console.error]. *)

From Stdlib Require Import ZArith NArith QArith Qpower List Bool Lia Ascii String.
From Stdlib Require Import Sorting.Sorted Sorting.Permutation.
From Stdlib Require Import Floats.SpecFloat.
From stdpp Require Import base option list gmap.

Local Open Scope Z_scope.

(* ===================================================================== *)
(** * The JavaScript fragment used by the catalog code *)
(* ===================================================================== *)

Module JS.

(** ** Strings: sequences of UTF-16 code units *)

Definition jsstring := list N.

(** An ASCII literal as a JavaScript string. *)
Definition str (s : string) : jsstring :=
  List.map N_of_ascii (list_ascii_of_string s).

Definition chr (c : ascii) : N := N_of_ascii c.

Definition char_comma : N := chr ",".
Definition char_dot : N := chr ".".
Definition char_plus : N := chr "+".
Definition char_minus : N := chr "-".

Definition isDigit (c : N) : bool := ((48 <=? c) && (c <=? 57))%N.

(** [WhiteSpace] and [LineTerminator] code points of ECMA-262, the set
    stripped by [String.prototype.trim] and skipped by [parseFloat]. *)
Definition isWhiteSpace (c : N) : bool :=
  (((9 <=? c) && (c <=? 13)) || (c =? 32) || (c =? 160) || (c =? 5760)
   || ((8192 <=? c) && (c <=? 8202)) || (c =? 8232) || (c =? 8233)
   || (c =? 8239) || (c =? 8287) || (c =? 12288) || (c =? 65279))%N.

Fixpoint dropWhile (p : N -> bool) (s : jsstring) : jsstring :=
  match s with
  | [] => []
  | c :: t => if p c then dropWhile p t else s
  end.

Fixpoint takeWhile (p : N -> bool) (s : jsstring) : jsstring :=
  match s with
  | [] => []
  | c :: t => if p c then c :: takeWhile p t else []
  end.

Definition trimStart (s : jsstring) : jsstring := dropWhile isWhiteSpace s.
Definition trimEnd (s : jsstring) : jsstring :=
  rev (dropWhile isWhiteSpace (rev s)).

(** [s.trim()] *)
Definition trim (s : jsstring) : jsstring := trimEnd (trimStart s).

(** [s.replace(/c/g, '')] for a single code unit [c]. *)
Definition removeAll (c : N) (s : jsstring) : jsstring :=
  List.filter (fun d => negb (d =? c)%N) s.

(** [s.replace("c", "d")] with a one-character string pattern: only the
    first occurrence is replaced. *)
Fixpoint replaceFirst (c d : N) (s : jsstring) : jsstring :=
  match s with
  | [] => []
  | x :: t => if (x =? c)%N then d :: t else x :: replaceFirst c d t
  end.

(** [(s.match(/c/g) || []).length] *)
Definition countChar (c : N) (s : jsstring) : nat :=
  length (List.filter (fun d => (d =? c)%N) s).

(** [s.lastIndexOf("c")]: the greatest index holding [c], or [-1]. *)
Fixpoint lastIndexOf_from (c : N) (s : jsstring) (i : Z) (acc : Z) : Z :=
  match s with
  | [] => acc
  | x :: t => lastIndexOf_from c t (i + 1) (if (x =? c)%N then i else acc)
  end.

Definition lastIndexOf (c : N) (s : jsstring) : Z :=
  lastIndexOf_from c s 0 (-1).

Fixpoint isPrefixOf (p s : jsstring) : bool :=
  match p, s with
  | [], _ => true
  | _ :: _, [] => false
  | a :: p', b :: s' => (a =? b)%N && isPrefixOf p' s'
  end.

(** [s.replace(p, '')] with a string pattern [p]: the first occurrence of
    [p] is removed. *)
Fixpoint removeFirstSub (p s : jsstring) : jsstring :=
  if isPrefixOf p s then skipn (length p) s
  else match s with
       | [] => []
       | c :: t => c :: removeFirstSub p t
       end.

(** ** Numbers: IEEE 754 binary64 *)

Definition prec : Z := 53.
Definition emax : Z := 1024.

Definition number := spec_float.

Definition NaN : number := S754_nan.
Definition zero : number := S754_zero false.
Definition Infinity : number := S754_infinity false.

Definition num_sub (x y : number) : number := SFsub prec emax x y.
Definition num_mul (x y : number) : number := SFmul prec emax x y.
Definition num_div (x y : number) : number := SFdiv prec emax x y.

Definition isNaN (x : number) : bool :=
  match x with S754_nan => true | _ => false end.

Definition isFinite (x : number) : bool :=
  match x with S754_zero _ | S754_finite _ _ _ => true | _ => false end.

(** [x > 0]; false on NaN. *)
Definition gt0 (x : number) : bool := SFltb zero x.

(** The Number nearest to the integer [z] (round to nearest, ties to
    even), as for a numeric literal. *)
Definition num_of_Z (z : Z) : number := binary_normalize prec emax z 0 false.

(** The Number value of the decimal [(-1)^neg * m * 10^e10]: the binary64
    value nearest to it, ties to even. *)
Definition num_of_decimal (neg : bool) (m : N) (e10 : Z) : number :=
  match m with
  | N0 => S754_zero neg
  | Npos p =>
      if 0 <=? e10
      then binary_normalize prec emax
             (cond_Zopp neg (Zpos p * 10 ^ e10)) 0 false
      else SFdiv prec emax (S754_finite neg p 0)
             (S754_finite false (Z.to_pos (10 ^ (- e10))) 0)
  end.

(** ** parseFloat *)

Definition digitsValue (ds : jsstring) : N :=
  fold_left (fun acc d => (10 * acc + (d - 48))%N) ds 0%N.

(** The optional [ExponentPart] at the head of [s]: [e] or [E], an
    optional sign and at least one digit.  Without a digit nothing is
    consumed and the exponent is 0. *)
Definition exponentPart (s : jsstring) : Z :=
  match s with
  | c :: t =>
      if ((c =? chr "e") || (c =? chr "E"))%N then
        let '(neg, t') :=
          match t with
          | d :: u => if (d =? char_minus)%N then (true, u)
                      else if (d =? char_plus)%N then (false, u)
                      else (false, t)
          | [] => (false, t)
          end in
        match takeWhile isDigit t' with
        | [] => 0
        | ds => cond_Zopp neg (Z.of_N (digitsValue ds))
        end
      else 0
  | [] => 0
  end.

(** [parseFloat(s)]: leading white space is skipped, the longest prefix
    that is a [StrDecimalLiteral] is read, and its mathematical value is
    rounded to a Number; NaN when no prefix is a literal.  All the
    digits take part in the rounding (the language lets an engine
    ignore those after the 20th significant one). *)
Definition parseFloat (s : jsstring) : number :=
  let s1 := trimStart s in
  let '(neg, s2) :=
    match s1 with
    | c :: t => if (c =? char_minus)%N then (true, t)
                else if (c =? char_plus)%N then (false, t)
                else (false, s1)
    | [] => (false, s1)
    end in
  if isPrefixOf (str "Infinity") s2 then S754_infinity neg
  else
    let ip := takeWhile isDigit s2 in
    let r1 := dropWhile isDigit s2 in
    let '(fp, r2) :=
      match r1 with
      | c :: t => if (c =? char_dot)%N
                  then (takeWhile isDigit t, dropWhile isDigit t)
                  else ([], r1)
      | [] => ([], r1)
      end in
    match ip ++ fp with
    | [] => NaN
    | ds => num_of_decimal neg (digitsValue ds)
              (exponentPart r2 - Z.of_nat (length fp))
    end.

(** ** Number.prototype.toFixed *)

Fixpoint uintChars (u : Decimal.uint) : jsstring :=
  match u with
  | Decimal.Nil => []
  | Decimal.D0 u => 48%N :: uintChars u
  | Decimal.D1 u => 49%N :: uintChars u
  | Decimal.D2 u => 50%N :: uintChars u
  | Decimal.D3 u => 51%N :: uintChars u
  | Decimal.D4 u => 52%N :: uintChars u
  | Decimal.D5 u => 53%N :: uintChars u
  | Decimal.D6 u => 54%N :: uintChars u
  | Decimal.D7 u => 55%N :: uintChars u
  | Decimal.D8 u => 56%N :: uintChars u
  | Decimal.D9 u => 57%N :: uintChars u
  end.

(** The decimal representation of a non-negative integer ("0" for 0). *)
Definition decimalDigits (n : N) : jsstring := uintChars (N.to_uint n).

(** Steps 8-10 of [toFixed]: the digits of [n] with a radix point before
    the last [f] of them, padded with zeros on the left to [f + 1] digits. *)
Definition fixedDigits (f : nat) (n : N) : jsstring :=
  let m := decimalDigits n in
  match f with
  | O => m
  | _ =>
      let m := repeat 48%N (S f - length m) ++ m in
      let k := length m in
      firstn (k - f) m ++ char_dot :: skipn (k - f) m
  end.

(** The integer [n] for which [n / 10^f] is closest to [m * 2^e], the
    larger one when two are equally close. *)
Definition roundScaled (f : nat) (m : positive) (e : Z) : N :=
  let num := Zpos m * 10 ^ Z.of_nat f in
  Z.to_N (if 0 <=? e then num * 2 ^ e
          else (2 * num + 2 ^ (- e)) / (2 * 2 ^ (- e))).

Section ToFixed.
(** [Number::toString] on finite values of magnitude at least [10^21]:
    the engine's shortest round-trip printing, sign included. *)
Variable numberToString : number -> jsstring.

(** [x.toFixed(f)] for [0 <= f <= 100]. *)
Definition toFixed (f : nat) (x : number) : jsstring :=
  match x with
  | S754_nan => str "NaN"
  | S754_infinity s => if s then str "-Infinity" else str "Infinity"
  | S754_zero _ => fixedDigits f 0
  | S754_finite s m e =>
      if 10 ^ 21 * 2 ^ Z.max (- e) 0 <=? Zpos m * 2 ^ Z.max e 0
      then numberToString x
      else (if s then [char_minus] else []) ++ fixedDigits f (roundScaled f m e)
  end.
End ToFixed.

(** ** Values and abrupt completion *)

Inductive value :=
  | VNumber (n : number)
  | VString (s : jsstring).

Inductive error := TypeError.

Inductive result (A : Type) :=
  | Ok (a : A)
  | Throw (e : error).
Arguments Ok {A} a.
Arguments Throw {A} e.

#[global] Instance result_ret : MRet result := fun A a => Ok a.
#[global] Instance result_bind : MBind result := fun A B k r =>
  match r with
  | Ok a => k a
  | Throw e => Throw e
  end.

(** ** Array.prototype.sort

    The language requires the sort to be stable and, for a consistent
    comparator, to return the elements in comparator order; this
    determines the result (see [sort_by_determined] below), which the
    insertion sort here computes.  For an inconsistent comparator the
    order is left to the engine; the insertion sort then stands for one
    such engine.  The comparator's Number [v] is used through its sign
    ([NaN] counts as [+0]); an exception of the comparator ends the
    sort.  Which pairs are compared, and in which argument order, is the
    engine's choice as well. *)

Section ArraySort.
Context {A : Type}.
Variable comparefn : A -> A -> result number.

Fixpoint sortInsert (x : A) (l : list A) : result (list A) :=
  match l with
  | [] => Ok [x]
  | y :: t =>
      v ← comparefn x y;
      if gt0 v then (t' ← sortInsert x t; Ok (y :: t'))
      else Ok (x :: y :: t)
  end.

Fixpoint array_sort (l : list A) : result (list A) :=
  match l with
  | [] => Ok []
  | x :: t => s ← array_sort t; sortInsert x s
  end.
End ArraySort.

(** ** The store of arrays

    An array is an object: variables hold a reference to it, and
    [sort] rearranges the referenced array in place. *)

Definition loc := positive.

Abbreviation store A := (gmap loc (list A)).

Section Store.
Context {A : Type}.

(** [[...data]]: a new array with the elements of [data]. *)
Definition spread (data : loc) (h : store A) : result loc * store A :=
  match h !! data with
  | None => (Throw TypeError, h)
  | Some items => let l := fresh (dom h) in (Ok l, <[l := items]> h)
  end.

(** [arr.sort(comparefn)]: the array at [arr] is replaced by its sorted
    arrangement; [sort] returns [arr] itself. *)
Definition sortInPlace (comparefn : A -> A -> result number)
    (arr : loc) (h : store A) : result loc * store A :=
  match h !! arr with
  | None => (Throw TypeError, h)
  | Some items =>
      match array_sort comparefn items with
      | Ok sorted => (Ok arr, <[arr := sorted]> h)
      | Throw e => (Throw e, h)
      end
  end.
End Store.

(** ** Array.prototype.forEach

    [callback] is run on the elements in index order with the state it
    works on; an exception of the callback ends the loop and leaves the
    state as the callback left it. *)

Section ForEach.
Context {A S : Type}.
Variable callback : A -> S -> result unit * S.

Fixpoint forEach (l : list A) (s : S) : result unit * S :=
  match l with
  | [] => (Ok tt, s)
  | x :: t =>
      match callback x s with
      | (Ok _, s') => forEach t s'
      | (Throw e, s') => (Throw e, s')
      end
  end.
End ForEach.

(** ** Literals with characters outside ASCII

    The code units of the text whose UTF-8 encoding is given (characters
    of the Basic Multilingual Plane, one code unit each). *)

Fixpoint decodeUtf8 (bytes : list N) : jsstring :=
  match bytes with
  | [] => []
  | b :: t =>
      if (b <? 128)%N then b :: decodeUtf8 t
      else
        match t with
        | [] => []
        | c :: t' =>
            if (b <? 224)%N
            then ((b - 192) * 64 + (c - 128))%N :: decodeUtf8 t'
            else
              match t' with
              | [] => []
              | d :: t'' =>
                  ((b - 224) * 4096 + (c - 128) * 64 + (d - 128))%N
                    :: decodeUtf8 t''
              end
        end
  end.

Definition lit (s : string) : jsstring := decodeUtf8 (str s).

(** The value of a template-literal substitution [${field}] for a field
    that may be missing. *)
Definition templateValue (field : option jsstring) : jsstring :=
  match field with
  | Some s => s
  | None => str "undefined"
  end.

(** [${arr[0]}]: the first element, "undefined" for an empty array. *)
Definition templateFirst (arr : list jsstring) : jsstring :=
  templateValue (head arr).

End JS.

Import JS.

(* ===================================================================== *)
(** * carros.js *)
(* ===================================================================== *)

Module Carros.

(** A catalog record of [carros.json]; the brand and the price fields
    may be missing ([None] for [undefined]). *)
Record carro := {
  id : jsstring;
  marca : option jsstring;
  modelo : jsstring;
  preco_publico : option jsstring;
  preco_pcd : option jsstring
}.

(** The character class [[0-9.,]]. *)
Definition keepChar (c : N) : bool :=
  isDigit c || (c =? char_dot)%N || (c =? char_comma)%N.

(** [valorString] is [None] for a missing ([undefined]) field. *)
Definition cleanAndParseValue (valorString : option jsstring) : number :=
  match valorString with
  (* if (!valorString) return 0; *)
  | None | Some [] => zero
  | Some s =>
      (* valorString.replace(/[^0-9.,]/g, '').trim() *)
      let cleanedValue := trim (List.filter keepChar s) in
      let commaCount := countChar char_comma cleanedValue in
      let dotCount := countChar char_dot cleanedValue in
      let cleanedValue :=
        if (0 <? commaCount)%nat && (0 <? dotCount)%nat then
          (* lastIndexOf(",") > lastIndexOf(".") *)
          if lastIndexOf char_dot cleanedValue
             <? lastIndexOf char_comma cleanedValue
          then (* .replace(/\./g, '').replace(",", ".") *)
               replaceFirst char_comma char_dot (removeAll char_dot cleanedValue)
          else (* .replace(/,/g, '') *)
               removeAll char_comma cleanedValue
        else if (commaCount =? 1)%nat && (dotCount =? 0)%nat then
          replaceFirst char_comma char_dot cleanedValue
        else cleanedValue in
      let parsedValue := parseFloat cleanedValue in
      if isNaN parsedValue then zero else parsedValue
  end.

(** [field || "R$ 0,00"]: a missing or empty field gives the default. *)
Definition orDefault (field : option jsstring) : option jsstring :=
  match field with
  | None | Some [] => Some (str "R$ 0,00")
  | Some s => Some s
  end.

(** Both prices are Numbers ([typeof NaN] is ["number"] too), so the
    [typeof] guard of the source always takes its first branch and the
    [return 0] after it is never reached. *)
Definition calculateDesconto (c : carro) : number :=
  let precoPublico := cleanAndParseValue (orDefault (preco_publico c)) in
  let precoPCD := cleanAndParseValue (orDefault (preco_pcd c)) in
  num_sub precoPublico precoPCD.

Section Engine.
(** [Number::toString] of the engine, reached by [toFixed] above
    [10^21] only. *)
Variable numberToString : number -> jsstring.
(** [String.prototype.localeCompare] of the engine:
    [localeCompare this that locales] is [this.localeCompare(that, locales)]. *)
Variable localeCompare : jsstring -> jsstring -> jsstring -> number.

Definition calculateDescontoPercentage (c : carro) : value :=
  let desconto := calculateDesconto c in
  let precoPublico := cleanAndParseValue (orDefault (preco_publico c)) in
  if gt0 precoPublico then
    (* ((desconto / precoPublico) * 100).toFixed(2) *)
    VString (toFixed numberToString 2
               (num_mul (num_div desconto precoPublico) (num_of_Z 100)))
  else VNumber zero.

Definition byValor (a b : carro) : result number :=
  let valorA := cleanAndParseValue (preco_pcd a) in
  let valorB := cleanAndParseValue (preco_pcd b) in
  Ok (num_sub valorA valorB).

(** [a.marca.localeCompare(b.marca, "pt-BR")]: reading [localeCompare]
    of a missing [a.marca] throws; a missing [b.marca] is an argument,
    which the method converts to the string ["undefined"].  So on an
    array in which only some records lack [marca], whether the sort
    throws depends on which record the engine passes first; the
    properties below are about arrays on which every engine agrees:
    every record has a [marca], or none has. *)
Definition byMarca (a b : carro) : result number :=
  match marca a with
  | None => Throw TypeError
  | Some marcaA =>
      Ok (localeCompare marcaA (templateValue (marca b)) (str "pt-BR"))
  end.

Definition byDesconto (a b : carro) : result number :=
  let descontoA := calculateDesconto a in
  let descontoB := calculateDesconto b in
  Ok (num_sub descontoB descontoA).

(** [data] is a reference to the input array; the call returns a
    reference and the store it leaves behind. *)
Definition sortImoveis (data : loc) (sortOption : jsstring)
    (h : store carro) : result loc * store carro :=
  (* const sortedData = [...data]; *)
  match spread data h with
  | (Throw e, h) => (Throw e, h)
  | (Ok sortedData, h) =>
      (* switch (sortOption) *)
      if bool_decide (sortOption = str "valor_asc") then
        match sortInPlace byValor sortedData h with
        | (Throw e, h) => (Throw e, h)
        | (Ok _, h) => (Ok sortedData, h)
        end
      else if bool_decide (sortOption = str "marca_asc") then
        match sortInPlace byMarca sortedData h with
        | (Throw e, h) => (Throw e, h)
        | (Ok _, h) => (Ok sortedData, h)
        end
      else if bool_decide (sortOption = str "desconto_desc") then
        match sortInPlace byDesconto sortedData h with
        | (Throw e, h) => (Throw e, h)
        | (Ok _, h) => (Ok sortedData, h)
        end
      else (* case "default": default: return data; *)
        (Ok data, h)
  end.
End Engine.

End Carros.

(* ===================================================================== *)
(** * imoveis.js *)
(* ===================================================================== *)

Module Imoveis.

(** A catalog record of [imoveis.json]; the brand and the price may be
    missing ([None] for [undefined]). *)
Record imovel := {
  id : jsstring;
  marca : option jsstring;
  tipo : jsstring;
  valor : option jsstring
}.

(** Calling [replace] on a missing value throws. *)
Definition cleanAndParseValue (valorString : option jsstring) : result number :=
  match valorString with
  | None => Throw TypeError
  | Some s =>
      (* .replace("R$", '').replace(/\./g, '').replace(",", ".").trim() *)
      let cleanedValue :=
        trim (replaceFirst char_comma char_dot
                (removeAll char_dot (removeFirstSub (str "R$") s))) in
      Ok (parseFloat cleanedValue)
  end.

Section Engine.
(** [localeCompare this that locales] is [this.localeCompare(that, locales)]
    of the engine. *)
Variable localeCompare : jsstring -> jsstring -> jsstring -> number.

Definition byValor (a b : imovel) : result number :=
  valorA ← cleanAndParseValue (valor a);
  valorB ← cleanAndParseValue (valor b);
  Ok (num_sub valorA valorB).

(** [a.marca.localeCompare(b.marca, "pt-BR")], as in carros.js. *)
Definition byMarca (a b : imovel) : result number :=
  match marca a with
  | None => Throw TypeError
  | Some marcaA =>
      Ok (localeCompare marcaA (templateValue (marca b)) (str "pt-BR"))
  end.

Definition sortImoveis (data : loc) (sortOption : jsstring)
    (h : store imovel) : result loc * store imovel :=
  match spread data h with
  | (Throw e, h) => (Throw e, h)
  | (Ok sortedData, h) =>
      if bool_decide (sortOption = str "valor_asc") then
        match sortInPlace byValor sortedData h with
        | (Throw e, h) => (Throw e, h)
        | (Ok _, h) => (Ok sortedData, h)
        end
      else if bool_decide (sortOption = str "marca_asc") then
        match sortInPlace byMarca sortedData h with
        | (Throw e, h) => (Throw e, h)
        | (Ok _, h) => (Ok sortedData, h)
        end
      else (Ok data, h)
  end.
End Engine.

End Imoveis.

(* ===================================================================== *)
(** * The page: the listing container, the selector and the console *)
(* ===================================================================== *)

Module Dom.

(** What was assigned to an element: nothing, its [textContent] (plain
    text) or its [innerHTML] (markup, kept as the string assigned). *)
Inductive body :=
  | NoBody
  | TextContent (s : jsstring)
  | InnerHTML (s : jsstring).

(** An element made by [document.createElement(tagName)]. *)
Record element := {
  tagName : jsstring;
  className : jsstring;
  content : body
}.

(** What a [throw] or a rejected promise carries to [catch]. *)
Inductive reason :=
  | Thrown (e : error)
  | HttpError (message : jsstring)
  | Rejection.

(** A call of [console.error]: its text and the error passed with it. *)
Record entry := {
  text : jsstring;
  cause : option reason
}.

(** How [fetch(url)] settles: it rejects, or it resolves to a response;
    [json] is [None] when the body is not JSON and [res.json()] rejects. *)
Inductive fetched (A : Type) :=
  | NetworkFailure
  | Response (ok : bool) (status : N) (json : option (list A)).
Arguments NetworkFailure {A}.
Arguments Response {A} ok status json.

(** The parts of the document the listing scripts touch: the children
    of the listing container and the value of [#sort-select] ([None]
    when [getElementById] finds no such element), and the calls of
    [console.error] the script made, oldest first. *)
Record page := {
  lista : option (list element);
  sortSelect : option jsstring;
  console : list entry
}.

Definition logged (e : entry) (d : page) : page :=
  {| lista := lista d; sortSelect := sortSelect d;
     console := console d ++ [e] |}.

Definition withLista (children : list element) (d : page) : page :=
  {| lista := Some children; sortSelect := sortSelect d;
     console := console d |}.

Definition withSelected (v : jsstring) (d : page) : page :=
  {| lista := lista d; sortSelect := Some v; console := console d |}.

(** [element.textContent = field]: the setter takes [undefined] as
    [null], and [null] as the empty string. *)
Definition textContentOf (field : option jsstring) : body :=
  TextContent (match field with Some s => s | None => [] end).

Definition dq : N := 34%N.

(** [s] between double quotes. *)
Definition quoted (s : jsstring) : jsstring := dq :: s ++ [dq].

(** A line of a template literal: [n] spaces, the text, a line feed. *)
Definition line (n : nat) (s : jsstring) : jsstring :=
  repeat 32%N n ++ s ++ [10%N].

Definition whatsappHref : jsstring :=
  lit "https://wa.me/5547991175167?text=Olá! Tenho interesse em informações sobre carros PCD.".

(** [new Error(`HTTP error! status: ${res.status}`)] *)
Definition httpError (status : N) : reason :=
  HttpError (str "HTTP error! status: " ++ decimalDigits status).

(** [Number::toString] in a template literal: the spellings the
    language fixes, the engine's printing for the other values. *)
Definition numberText (numberToString : number -> jsstring)
    (n : number) : jsstring :=
  match n with
  | S754_nan => str "NaN"
  | S754_zero _ => str "0"
  | S754_infinity s => if s then str "-Infinity" else str "Infinity"
  | S754_finite _ _ _ => numberToString n
  end.

Definition valueText (numberToString : number -> jsstring)
    (v : value) : jsstring :=
  match v with
  | VString s => s
  | VNumber n => numberText numberToString n
  end.

End Dom.

(* ===================================================================== *)
(** * carros.js: rendering and the page's event handlers *)
(* ===================================================================== *)

Module CarrosPage.
Import Dom.

Section Engine.
Variable numberToString : number -> jsstring.
Variable localeCompare : jsstring -> jsstring -> jsstring -> number.
(** [value.toLocaleString("pt-BR", {style: "currency", currency: "BRL"})]
    of the engine. *)
Variable toLocaleString : number -> jsstring.
(** The [imagens] array of a record, a field the sorter does not read,
    given as a function of the record (records that agree on the fields
    of [Carros.carro] carry the same pictures); [None] for a record
    without it. *)
Variable imagens : Carros.carro -> option (list jsstring).

Definition formatCurrency (value : number) : jsstring := toLocaleString value.

Definition marcaTitle (c : Carros.carro) : element :=
  {| tagName := str "h2"; className := str "marca-group-title";
     content := textContentOf (Carros.marca c) |}.

Definition separator : element :=
  {| tagName := str "hr"; className := str "marca-separator-line";
     content := NoBody |}.

(** The template literal assigned to [discountHTML]. *)
Definition discountTemplate (descontoFormatted descontoPercentual : jsstring)
    : jsstring :=
  [10%N]
  ++ line 12 (str "<div class=" ++ quoted (str "carro-details") ++ str ">")
  ++ line 16 (str "<div class=" ++ quoted (str "carro-location") ++ str ">")
  ++ line 20 (str "Desconto: " ++ descontoFormatted
              ++ str " (" ++ descontoPercentual ++ str "%)")
  ++ line 16 (str "</div>")
  ++ line 12 (str "</div>")
  ++ repeat 32%N 8.

(** The template literal assigned to [card.innerHTML]. *)
Definition cardTemplate
    (imagem cardTitle precoPublico discountHTML precoPcd : jsstring)
    : jsstring :=
  [10%N]
  ++ line 10 (str "<img src=" ++ quoted imagem
              ++ str " class=" ++ quoted (str "carro-card-image") ++ str ">")
  ++ line 10 (str "<div class=" ++ quoted (str "carro-card-content") ++ str ">")
  ++ line 12 (str "<h3>" ++ cardTitle ++ str "</h3>")
  ++ line 12 (str "<div class=" ++ quoted (str "carro-details") ++ str ">")
  ++ line 14 (str "<div class=" ++ quoted (str "carro-location") ++ str ">")
  ++ line 16 precoPublico
  ++ line 14 (str "</div>")
  ++ line 12 (str "</div>")
  ++ line 12 []
  ++ line 12 (discountHTML ++ str " ")
  ++ line 12 []
  ++ line 12 (str "<div class=" ++ quoted (str "carro-price") ++ str ">"
              ++ precoPcd ++ str "</div>")
  ++ line 10 (str "</div>")
  ++ line 10 (str "<a href=" ++ quoted whatsappHref
              ++ str " target=" ++ quoted (str "_blank")
              ++ str " class=" ++ quoted (str "carro-button")
              ++ str ">WhatsApp</a>")
  ++ repeat 32%N 8.

(** The card of a record whose [imagens] array is [imgs]. *)
Definition card (isSortedByMarca isSortedByDesconto : bool)
    (c : Carros.carro) (imgs : list jsstring) : element :=
  let cardTitle :=
    if isSortedByMarca then Carros.modelo c
    else templateValue (Carros.marca c) ++ str " " ++ Carros.modelo c in
  let discountHTML :=
    if isSortedByDesconto then
      let descontoValue := Carros.calculateDesconto c in
      let descontoFormatted := formatCurrency descontoValue in
      let descontoPercentual :=
        Carros.calculateDescontoPercentage numberToString c in
      discountTemplate descontoFormatted
        (valueText numberToString descontoPercentual)
    else [] in
  {| tagName := str "div"; className := str "carro-card";
     content :=
       InnerHTML (cardTemplate (templateFirst imgs) cardTitle
                    (templateValue (Carros.preco_publico c))
                    discountHTML
                    (templateValue (Carros.preco_pcd c))) |}.

(** The callback of [carros.forEach]; its state is [lastMarca] ([None]
    for [null], [Some] of the [marca] field read last, which may itself
    be missing) and the children of the container.  Reading
    [carro.imagens[0]] of a record without [imagens] throws, after the
    brand title and the separator were appended. *)
Definition renderCard (isSortedByMarca isSortedByDesconto : bool)
    (c : Carros.carro) (st : option (option jsstring) * list element)
    : result unit * (option (option jsstring) * list element) :=
  let '(lastMarca, children) := st in
  let children :=
    if isSortedByMarca && negb (bool_decide (Some (Carros.marca c) = lastMarca))
    then children ++ [marcaTitle c; separator]
    else children in
  match imagens c with
  | None => (Throw TypeError, (lastMarca, children))
  | Some imgs =>
      (Ok tt, (Some (Carros.marca c),
               children ++ [card isSortedByMarca isSortedByDesconto c imgs]))
  end.

(** [carros] is a reference to the array to show. *)
Definition renderImoveis (carros : loc) (currentSortOption : jsstring)
    (h : store Carros.carro) (d : page) : result unit * page :=
  match lista d with
  | None =>
      (Ok tt, logged {| text := lit "Elemento #lista-carros não encontrado.";
                        cause := None |} d)
  | Some _ =>
      (* container.innerHTML = ''; *)
      let isSortedByMarca := bool_decide (currentSortOption = str "marca_asc") in
      let isSortedByDesconto :=
        bool_decide (currentSortOption = str "desconto_desc") in
      match h !! carros with
      | None => (Throw TypeError, withLista [] d)
      | Some items =>
          let '(r, (_, children)) :=
            forEach (renderCard isSortedByMarca isSortedByDesconto)
                    items (None, []) in
          (r, withLista children d)
      end
  end.

(** The script's state: the store of arrays, the global [imoveisData],
    the page, and whether the [change] listener of the selector has been
    added. *)
Record state := {
  heap : store Carros.carro;
  imoveisData : loc;
  doc : page;
  listening : bool
}.

(** [.catch((error) => console.error("Erro ao carregar os imóveis:", error))] *)
Definition caught (why : reason) (st : state) : state :=
  {| heap := heap st; imoveisData := imoveisData st;
     doc := logged {| text := lit "Erro ao carregar os imóveis:";
                      cause := Some why |} (doc st);
     listening := listening st |}.

(** The [DOMContentLoaded] handler, run to the settling of
    [fetch("carros.json")] and of the promise chain on it.  (The
    scroll-to-top button it also wires touches none of this state.) *)
Definition onDOMContentLoaded (res : fetched Carros.carro) (st : state)
    : state :=
  match res with
  | NetworkFailure => caught Rejection st
  | Response ok status json =>
      if negb ok then caught (httpError status) st
      else
        match json with
        | None => caught Rejection st
        | Some carros =>
            (* imoveisData = carros; *)
            let data := fresh (dom (heap st)) in
            let h := <[data := carros]> (heap st) in
            let initialSortOption :=
              match sortSelect (doc st) with
              | Some v => v
              | None => str "default"
              end in
            match Carros.sortImoveis localeCompare data initialSortOption h with
            | (Throw e, h) =>
                caught (Thrown e)
                  {| heap := h; imoveisData := data; doc := doc st;
                     listening := listening st |}
            | (Ok initialList, h) =>
                match renderImoveis initialList initialSortOption h (doc st) with
                | (Throw e, d) =>
                    caught (Thrown e)
                      {| heap := h; imoveisData := data; doc := d;
                         listening := listening st |}
                | (Ok _, d) =>
                    {| heap := h; imoveisData := data; doc := d;
                       listening :=
                         listening st || bool_decide (is_Some (sortSelect d)) |}
                end
            end
        end
  end.

(** A [change] event of the selector, whose value is now
    [selectedOption]; a page without the selector has no such event.
    An exception of the listener is not caught by the script. *)
Definition onChange (selectedOption : jsstring) (st : state) : state :=
  match sortSelect (doc st) with
  | None => st
  | Some _ =>
      let d := withSelected selectedOption (doc st) in
      if listening st then
        match Carros.sortImoveis localeCompare (imoveisData st) selectedOption
                (heap st) with
        | (Throw _, h) =>
            {| heap := h; imoveisData := imoveisData st; doc := d;
               listening := true |}
        | (Ok sortedList, h) =>
            {| heap := h; imoveisData := imoveisData st;
               doc := (renderImoveis sortedList selectedOption h d).2;
               listening := true |}
        end
      else
        {| heap := heap st; imoveisData := imoveisData st; doc := d;
           listening := false |}
  end.

(** The page after the load and a sequence of selections. *)
Definition selections (options : list jsstring) (st : state) : state :=
  fold_left (fun s v => onChange v s) options st.

End Engine.

End CarrosPage.

(* ===================================================================== *)
(** * imoveis.js: rendering and the page's event handlers *)
(* ===================================================================== *)

Module ImoveisPage.
Import Dom.

Section Engine.
Variable localeCompare : jsstring -> jsstring -> jsstring -> number.
(** The [imagens] array and the [localizacao] text of a record, fields
    the sorter does not read, given as functions of the record; [None]
    for a record without them. *)
Variable imagens : Imoveis.imovel -> option (list jsstring).
Variable localizacao : Imoveis.imovel -> option jsstring.

Definition marcaTitle (a : Imoveis.imovel) : element :=
  {| tagName := str "h2"; className := str "marca-group-title";
     content := textContentOf (Imoveis.marca a) |}.

Definition separator : element :=
  {| tagName := str "hr"; className := str "marca-separator-line";
     content := NoBody |}.

(** The template literal assigned to [card.innerHTML]. *)
Definition cardTemplate (imagem title location valor : jsstring) : jsstring :=
  [10%N]
  ++ line 10 (str "<img src=" ++ quoted imagem
              ++ str " class=" ++ quoted (str "imovel-card-image") ++ str ">")
  ++ line 10 (str "<div class=" ++ quoted (str "imovel-card-content") ++ str ">")
  ++ line 12 (str "<h3>" ++ title ++ str "</h3>")
  ++ line 12 (str "<div class=" ++ quoted (str "imovel-details") ++ str ">")
  ++ line 14 (str "<div class=" ++ quoted (str "imovel-location") ++ str ">")
  ++ line 16 location
  ++ line 14 (str "</div>")
  ++ line 12 (str "</div>")
  ++ line 12 (str "<div class=" ++ quoted (str "imovel-price") ++ str ">"
              ++ valor ++ str "</div>")
  ++ line 10 (str "</div>")
  ++ line 10 (str "<a href=" ++ quoted whatsappHref
              ++ str " target=" ++ quoted (str "_blank")
              ++ str " class=" ++ quoted (str "imovel-button")
              ++ str ">WhatsApp</a>")
  ++ repeat 32%N 8.

Definition card (a : Imoveis.imovel) (imgs : list jsstring) : element :=
  {| tagName := str "div"; className := str "imovel-card";
     content :=
       InnerHTML (cardTemplate (templateFirst imgs)
                    (templateValue (Imoveis.marca a) ++ str " "
                       ++ Imoveis.tipo a)
                    (templateValue (localizacao a))
                    (templateValue (Imoveis.valor a))) |}.

(** The callback of [imoveis.forEach]. *)
Definition renderCard (isSortedByMarca : bool)
    (a : Imoveis.imovel) (st : option (option jsstring) * list element)
    : result unit * (option (option jsstring) * list element) :=
  let '(lastMarca, children) := st in
  let children :=
    if isSortedByMarca && negb (bool_decide (Some (Imoveis.marca a) = lastMarca))
    then children ++ [marcaTitle a; separator]
    else children in
  match imagens a with
  | None => (Throw TypeError, (lastMarca, children))
  | Some imgs => (Ok tt, (Some (Imoveis.marca a), children ++ [card a imgs]))
  end.

Definition renderImoveis (imoveis : loc) (currentSortOption : jsstring)
    (h : store Imoveis.imovel) (d : page) : result unit * page :=
  match lista d with
  | None =>
      (Ok tt, logged {| text := lit "Elemento #lista-imoveis não encontrado.";
                        cause := None |} d)
  | Some _ =>
      let isSortedByMarca := bool_decide (currentSortOption = str "marca_asc") in
      match h !! imoveis with
      | None => (Throw TypeError, withLista [] d)
      | Some items =>
          let '(r, (_, children)) :=
            forEach (renderCard isSortedByMarca) items (None, []) in
          (r, withLista children d)
      end
  end.

Record state := {
  heap : store Imoveis.imovel;
  imoveisData : loc;
  doc : page;
  listening : bool
}.

Definition caught (why : reason) (st : state) : state :=
  {| heap := heap st; imoveisData := imoveisData st;
     doc := logged {| text := lit "Erro ao carregar os imóveis:";
                      cause := Some why |} (doc st);
     listening := listening st |}.

(** The [DOMContentLoaded] handler, run to the settling of
    [fetch("imoveis.json")] and of the promise chain on it. *)
Definition onDOMContentLoaded (res : fetched Imoveis.imovel) (st : state)
    : state :=
  match res with
  | NetworkFailure => caught Rejection st
  | Response ok status json =>
      if negb ok then caught (httpError status) st
      else
        match json with
        | None => caught Rejection st
        | Some imoveis =>
            let data := fresh (dom (heap st)) in
            let h := <[data := imoveis]> (heap st) in
            let initialSortOption :=
              match sortSelect (doc st) with
              | Some v => v
              | None => str "default"
              end in
            match Imoveis.sortImoveis localeCompare data initialSortOption h with
            | (Throw e, h) =>
                caught (Thrown e)
                  {| heap := h; imoveisData := data; doc := doc st;
                     listening := listening st |}
            | (Ok initialList, h) =>
                match renderImoveis initialList initialSortOption h (doc st) with
                | (Throw e, d) =>
                    caught (Thrown e)
                      {| heap := h; imoveisData := data; doc := d;
                         listening := listening st |}
                | (Ok _, d) =>
                    {| heap := h; imoveisData := data; doc := d;
                       listening :=
                         listening st || bool_decide (is_Some (sortSelect d)) |}
                end
            end
        end
  end.

Definition onChange (selectedOption : jsstring) (st : state) : state :=
  match sortSelect (doc st) with
  | None => st
  | Some _ =>
      let d := withSelected selectedOption (doc st) in
      if listening st then
        match Imoveis.sortImoveis localeCompare (imoveisData st) selectedOption
                (heap st) with
        | (Throw _, h) =>
            {| heap := h; imoveisData := imoveisData st; doc := d;
               listening := true |}
        | (Ok sortedList, h) =>
            {| heap := h; imoveisData := imoveisData st;
               doc := (renderImoveis sortedList selectedOption h d).2;
               listening := true |}
        end
      else
        {| heap := heap st; imoveisData := imoveisData st; doc := d;
           listening := false |}
  end.

Definition selections (options : list jsstring) (st : state) : state :=
  fold_left (fun s v => onChange v s) options st.

End Engine.

End ImoveisPage.

(* ===================================================================== *)
(** * Vocabulary of the properties *)
(* ===================================================================== *)

(** Every finite binary64 value is an integer multiple of [2^emin]
    ([emin = -1074]); [ulps x] is that integer.  It is exact for the
    values the operations produce, whose exponent is at least [emin]. *)
Definition emin : Z := SpecFloat.emin prec emax.

Definition wf (x : number) : Prop :=
  match x with
  | S754_finite _ _ e => emin <= e
  | _ => True
  end.

Definition ulps (x : number) : Z :=
  match x with
  | S754_finite s m e => cond_Zopp s (Zpos m * 2 ^ (e - emin))
  | _ => 0
  end.

(** The rational number a finite Number denotes, [(-1)^s * m * 2^e]. *)
Definition exactValue (x : number) : Q :=
  match x with
  | S754_finite s m e => (inject_Z (cond_Zopp s (Zpos m)) * Qpower 2 e)%Q
  | _ => 0%Q
  end.

(** [x <= y] on Numbers: false as soon as one side is NaN. *)
Definition num_leb (x y : number) : bool :=
  match x, y with
  | S754_nan, _ | _, S754_nan => false
  | S754_infinity sx, S754_infinity sy => sx || negb sy
  | S754_infinity sx, _ => sx
  | _, S754_infinity sy => negb sy
  | _, _ => ulps x <=? ulps y
  end.

(** [x == y] on Numbers. *)
Definition num_eqb (x y : number) : bool := num_leb x y && num_leb y x.

(** The result of a parse: [+0], a positive finite value or [+Infinity]. *)
Definition nonNegative (x : number) : Prop :=
  match x with
  | S754_zero false | S754_finite false _ _ | S754_infinity false => True
  | _ => False
  end.

(** [x] is NaN or carries the sign [s]: the outcome of a rounding. *)
Definition signed_as (s : bool) (x : number) : Prop :=
  match x with
  | S754_zero s' | S754_finite s' _ _ | S754_infinity s' => s' = s
  | S754_nan => True
  end.

(** [x] is a non-zero Number of sign [s]: the outcome of rounding a
    non-zero value. *)
Definition strictly_signed (s : bool) (x : number) : Prop :=
  match x with
  | S754_finite s' _ _ | S754_infinity s' => s' = s
  | _ => False
  end.

(** The value of [cleanedValue] after step 1 of [Carros.cleanAndParseValue]
    and after its step 3. *)
Definition cleanedValue (s : jsstring) : jsstring :=
  trim (List.filter Carros.keepChar s).

Definition separatorsNormalized (t : jsstring) : jsstring :=
  if (0 <? countChar char_comma t)%nat && (0 <? countChar char_dot t)%nat then
    if lastIndexOf char_dot t <? lastIndexOf char_comma t
    then replaceFirst char_comma char_dot (removeAll char_dot t)
    else removeAll char_comma t
  else if (countChar char_comma t =? 1)%nat && (countChar char_dot t =? 0)%nat then
    replaceFirst char_comma char_dot t
  else t.

(** [s.replace(/c/g, "d")]: every occurrence is replaced. *)
Definition replaceAll (c d : N) (s : jsstring) : jsstring :=
  List.map (fun x => if (x =? c)%N then d else x) s.

(** The currency parser as the specification words it (section 4.1):
    strip everything but digits, commas and periods; when both
    separators are present the kind occurring last is the decimal
    separator, the other kind is removed and the decimal separator
    becomes the radix point; a lone comma is the decimal separator;
    otherwise the text is left as it is; a failed conversion gives 0. *)
Definition parseCurrency_spec (raw : option jsstring) : number :=
  match raw with
  | None | Some [] => zero
  | Some s =>
      let t := List.filter Carros.keepChar s in
      let commas := countChar char_comma t in
      let dots := countChar char_dot t in
      let normalized :=
        if (0 <? commas)%nat && (0 <? dots)%nat then
          if lastIndexOf char_dot t <? lastIndexOf char_comma t
          then replaceAll char_comma char_dot (removeAll char_dot t)
          else removeAll char_comma t
        else if (commas =? 1)%nat && (dots =? 0)%nat then
          replaceAll char_comma char_dot t
        else t in
      let v := parseFloat normalized in
      if isNaN v then zero else v
  end.

(** The digits [parseFloat] reads after the integer digits: those that
    follow a radix point at the head of [r]. *)
Definition fracDigits (r : jsstring) : jsstring :=
  match r with
  | c :: t => if (c =? char_dot)%N then takeWhile isDigit t else []
  | [] => []
  end.

Definition isSep (c : N) : bool := (c =? char_dot)%N || (c =? char_comma)%N.

(** A digit string far beyond the binary64 range: 1 followed by 309
    zeros. *)
Definition overlong : jsstring := 49%N :: repeat 48%N 309.

(** ** Catalog records used as examples *)

Definition carro_100_75 : Carros.carro :=
  {| Carros.id := str "c1"; Carros.marca := Some (str "Fiat");
     Carros.modelo := str "Argo";
     Carros.preco_publico := Some (str "R$ 100,00");
     Carros.preco_pcd := Some (str "R$ 75,00") |}.

(** No public price, a PCD price of 75. *)
Definition carro_sem_publico : Carros.carro :=
  {| Carros.id := str "c2"; Carros.marca := Some (str "Fiat");
     Carros.modelo := str "Mobi";
     Carros.preco_publico := None;
     Carros.preco_pcd := Some (str "R$ 75,00") |}.

Definition imovel_de (i v : string) : Imoveis.imovel :=
  {| Imoveis.id := str i; Imoveis.marca := Some (str "Casa");
     Imoveis.tipo := str "Venda"; Imoveis.valor := Some (str v) |}.

Definition carro_de (i m pub pcd : jsstring) : Carros.carro :=
  {| Carros.id := i; Carros.marca := Some m; Carros.modelo := str "Base";
     Carros.preco_publico := Some pub; Carros.preco_pcd := Some pcd |}.

(** Both prices beyond the binary64 range. *)
Definition carro_overflow : Carros.carro :=
  carro_de (str "c3") (str "Fiat") overlong overlong.

(** ** Outcomes of [sortImoveis] *)

(** The call returns normally with an array holding [sorted]. *)
Definition returnsArray {A} (outcome : result loc * store A)
    (sorted : list A) : Prop :=
  exists r, outcome.1 = Ok r /\ outcome.2 !! r = Some sorted.

(** Every array of [h] is still there, with the same elements in the
    same order. *)
Definition unchanged {A} (h h' : store A) : Prop :=
  forall l, is_Some (h !! l) -> h' !! l = h !! l.

(** The sort keys as Numbers. *)
Definition precoPcdNumber (c : Carros.carro) : number :=
  Carros.cleanAndParseValue (Carros.preco_pcd c).

Definition valorNumber (a : Imoveis.imovel) : number :=
  match Imoveis.cleanAndParseValue (Imoveis.valor a) with
  | Ok n => n
  | Throw _ => NaN
  end.

(** A record of the imoveis catalog whose price is present and parses
    to a number. *)
Definition priced (a : Imoveis.imovel) : Prop :=
  Imoveis.valor a <> None /\ isNaN (valorNumber a) = false.

Definition nonDecreasing {A} (key : A -> number) (l : list A) : Prop :=
  StronglySorted (fun a b => num_leb (key a) (key b) = true) l.

Definition nonIncreasing {A} (key : A -> number) (l : list A) : Prop :=
  StronglySorted (fun a b => num_leb (key b) (key a) = true) l.

(** Stability: for every input element [z], the elements that tie with
    [z] come out in the order they went in. *)
Definition keepsOrderOf {A} (same : A -> A -> bool)
    (input output : list A) : Prop :=
  forall z, In z input ->
    List.filter (same z) output = List.filter (same z) input.

Definition samePrice {A} (key : A -> number) (a b : A) : bool :=
  num_eqb (key a) (key b).

(** ** Collation *)

(** The comparison the brand comparator delegates to,
    [a.localeCompare(b, "pt-BR")]. *)
Definition ptBR (localeCompare : jsstring -> jsstring -> jsstring -> number)
    (a b : jsstring) : number :=
  localeCompare a b (str "pt-BR").

(** The brand of a record that has one. *)
Definition marcaCarro (c : Carros.carro) : jsstring :=
  match Carros.marca c with Some m => m | None => [] end.

Definition marcaImovel (a : Imoveis.imovel) : jsstring :=
  match Imoveis.marca a with Some m => m | None => [] end.

(** What the language guarantees of [localeCompare]: it is a consistent
    comparator.  Stated on the sign test the sort performs. *)
Definition consistent (compare : jsstring -> jsstring -> number) : Prop :=
  (forall a b, gt0 (compare a b) = true -> gt0 (compare b a) = false)
  /\ (forall a b c, gt0 (compare a b) = false -> gt0 (compare b c) = false ->
                    gt0 (compare a c) = false).

(** [a] sorts at or before [b]. *)
Definition collatesBefore (compare : jsstring -> jsstring -> number)
    (a b : jsstring) : Prop :=
  gt0 (compare a b) = false.

Definition sameCollation (compare : jsstring -> jsstring -> number)
    (a b : jsstring) : bool :=
  negb (gt0 (compare a b)) && negb (gt0 (compare b a)).

(** A base-letter collation of Latin-1 text, as an instance of the
    engine's [localeCompare]: whatever the locale, case and the
    Portuguese accents are folded before code units are compared. *)
Definition inRange (lo hi c : N) : bool := ((lo <=? c) && (c <=? hi))%N.

Definition foldLetter (c : N) : N :=
  if inRange 65 90 c then (c + 32)%N
  else if inRange 192 197 c || inRange 224 229 c then 97%N
  else if (c =? 199)%N || (c =? 231)%N then 99%N
  else if inRange 200 203 c || inRange 232 235 c then 101%N
  else if inRange 204 207 c || inRange 236 239 c then 105%N
  else if (c =? 209)%N || (c =? 241)%N then 110%N
  else if inRange 210 214 c || inRange 242 246 c then 111%N
  else if inRange 217 220 c || inRange 249 252 c then 117%N
  else c.

Fixpoint lexCompare (a b : list N) : comparison :=
  match a, b with
  | [], [] => Eq
  | [], _ :: _ => Lt
  | _ :: _, [] => Gt
  | x :: a', y :: b' =>
      match (x ?= y)%N with
      | Eq => lexCompare a' b'
      | c => c
      end
  end.

Definition collateBase (a b locales : jsstring) : number :=
  match lexCompare (List.map foldLetter a) (List.map foldLetter b) with
  | Lt => num_of_Z (-1)
  | Eq => zero
  | Gt => num_of_Z 1
  end.

(** An engine whose collation depends on the locale: the base-letter
    collation for "pt-BR", the order of the code units for every other
    locale. *)
Definition collateByLocale (a b locales : jsstring) : number :=
  if bool_decide (locales = str "pt-BR") then collateBase a b locales
  else
    match lexCompare a b with
    | Lt => num_of_Z (-1)
    | Eq => zero
    | Gt => num_of_Z 1
    end.

(** "Álamo" *)
Definition alamo : jsstring := 193%N :: str "lamo".

Definition catalogo_marcas : list Carros.carro :=
  [ carro_de (str "m1") (str "Zeta") (str "R$ 9,00") (str "R$ 8,00");
    carro_de (str "m2") alamo (str "R$ 7,00") (str "R$ 6,00");
    carro_de (str "m3") (str "Alfa") (str "R$ 5,00") (str "R$ 4,00");
    carro_de (str "m4") (str "Zeta") (str "R$ 3,00") (str "R$ 2,00") ].

Definition lista_imoveis : list Imoveis.imovel :=
  [ imovel_de "i1" "R$ 300.000,00"; imovel_de "i2" "R$ 150.000,00";
    imovel_de "i3" "R$ 300.000,00" ].

(** A listing of two brands, the first of them twice. *)
Definition lista_marcas_imoveis : list Imoveis.imovel :=
  [ {| Imoveis.id := str "b1"; Imoveis.marca := Some (str "Sobrado");
       Imoveis.tipo := str "Venda"; Imoveis.valor := Some (str "R$ 3,00") |};
    {| Imoveis.id := str "b2"; Imoveis.marca := Some (str "Casa");
       Imoveis.tipo := str "Venda"; Imoveis.valor := Some (str "R$ 2,00") |};
    {| Imoveis.id := str "b3"; Imoveis.marca := Some (str "Sobrado");
       Imoveis.tipo := str "Aluguel"; Imoveis.valor := Some (str "R$ 1,00") |} ].

(** A listing whose second price is not a number. *)
Definition lista_sob_consulta : list Imoveis.imovel :=
  [ imovel_de "i1" "R$ 2,00"; imovel_de "i2" "Sob consulta";
    imovel_de "i3" "R$ 1,00" ].

(** A catalog whose second record has both prices out of range. *)
Definition catalogo_overflow : list Carros.carro :=
  [ carro_de (str "d1") (str "Fiat") (str "R$ 3,00") (str "R$ 1,00");
    carro_overflow;
    carro_de (str "d2") (str "Fiat") (str "R$ 5,00") (str "R$ 1,00") ].

(** A listing whose second record has no price. *)
Definition lista_sem_valor : list Imoveis.imovel :=
  [ imovel_de "i1" "R$ 2,00";
    {| Imoveis.id := str "i2"; Imoveis.marca := Some (str "Casa");
       Imoveis.tipo := str "Venda"; Imoveis.valor := None |} ].

(** A record without a PCD price, and a catalog with it after a record
    priced "R$ 0,00". *)
Definition carro_sem_pcd : Carros.carro :=
  {| Carros.id := str "z3"; Carros.marca := Some (str "Fiat");
     Carros.modelo := str "Mobi";
     Carros.preco_publico := Some (str "R$ 9,00");
     Carros.preco_pcd := None |}.

Definition catalogo_precos_zero : list Carros.carro :=
  [ carro_de (str "z1") (str "Fiat") (str "R$ 9,00") (str "R$ 5,00");
    carro_de (str "z2") (str "Fiat") (str "R$ 9,00") (str "R$ 0,00");
    carro_sem_pcd;
    carro_de (str "z4") (str "Fiat") (str "R$ 9,00") (str "R$ 3,00") ].



(** ** Stores used as examples: one array, at reference 1 *)

Definition store_carros : store Carros.carro := {[ 1%positive := catalogo_marcas ]}.
Definition store_imoveis : store Imoveis.imovel := {[ 1%positive := lista_imoveis ]}.
Definition store_sob_consulta : store Imoveis.imovel :=
  {[ 1%positive := lista_sob_consulta ]}.
Definition store_overflow : store Carros.carro := {[ 1%positive := catalogo_overflow ]}.
Definition store_sem_valor : store Imoveis.imovel :=
  {[ 1%positive := lista_sem_valor ]}.
Definition store_precos_zero : store Carros.carro :=
  {[ 1%positive := catalogo_precos_zero ]}.
Definition store_marcas_imoveis : store Imoveis.imovel :=
  {[ 1%positive := lista_marcas_imoveis ]}.

Section SortBy.
Context {A : Type}.
(** [gt a b]: the comparator's result on [(a, b)] is positive. *)
Variable gt : A -> A -> bool.

Fixpoint insert_by (x : A) (l : list A) : list A :=
  match l with
  | [] => [x]
  | y :: t => if gt x y then y :: insert_by x t else x :: y :: t
  end.

Fixpoint sort_by (l : list A) : list A :=
  match l with
  | [] => []
  | x :: t => insert_by x (sort_by t)
  end.

(** [a] and [b] compare as equal. *)
Definition tied (a b : A) : bool := negb (gt a b) && negb (gt b a).
End SortBy.

(* ===================================================================== *)
(** * Vocabulary of the page properties *)
(* ===================================================================== *)

(** The title and the separator line [renderImoveis] puts before the
    cards of a brand. *)
Definition brandTitle (m : jsstring) : Dom.element :=
  {| Dom.tagName := str "h2"; Dom.className := str "marca-group-title";
     Dom.content := Dom.TextContent m |}.

Definition separatorLine : Dom.element :=
  {| Dom.tagName := str "hr"; Dom.className := str "marca-separator-line";
     Dom.content := Dom.NoBody |}.

Section Groups.
Context {A : Type}.
Variable brand : A -> jsstring.
Variable card : A -> Dom.element.

(** The section of a brand: its title, the separator and the cards of
    its records, in the order the records have in [l]. *)
Definition brandSection (l : list A) (m : jsstring) : list Dom.element :=
  brandTitle m :: separatorLine
    :: List.map card (List.filter (fun x => bool_decide (brand x = m)) l).

(** What the loop appends for the records [l] when the record before
    them had brand [lastMarca]: a title at every change of brand. *)
Fixpoint grouped (lastMarca : option jsstring) (l : list A)
    : list Dom.element :=
  match l with
  | [] => []
  | x :: t =>
      (if bool_decide (Some (brand x) = lastMarca) then []
       else [brandTitle (brand x); separatorLine])
      ++ card x :: grouped (Some (brand x)) t
  end.

(** The brands at which a title is put. *)
Fixpoint titled (lastMarca : option jsstring) (l : list A) : list jsstring :=
  match l with
  | [] => []
  | x :: t =>
      (if bool_decide (Some (brand x) = lastMarca) then [] else [brand x])
      ++ titled (Some (brand x)) t
  end.
End Groups.

(** The collation tells the brands of [brands] apart: no two different
    ones among them compare as equal. *)
Definition tellsApart (compare : jsstring -> jsstring -> number)
    (brands : list jsstring) : Prop :=
  forall a b, In a brands -> In b brands ->
    sameCollation compare a b = true -> a = b.

(** ** Pages and records used as examples *)

(** One picture per record, named after its [id]. *)
Definition fotos (c : Carros.carro) : list jsstring :=
  [str "img/" ++ Carros.id c ++ str ".jpg"].

Definition fotosImovel (a : Imoveis.imovel) : list jsstring :=
  [str "img/" ++ Imoveis.id a ++ str ".jpg"].

(** The same, but for the record whose [id] is [i], which has none. *)
Definition fotos_sem (i : jsstring) (c : Carros.carro)
    : option (list jsstring) :=
  if bool_decide (Carros.id c = i) then None else Some (fotos c).

(** A page with an empty listing container and the selector on
    "default". *)
Definition pagina : Dom.page :=
  {| Dom.lista := Some []; Dom.sortSelect := Some (str "default");
     Dom.console := [] |}.

(** The script before [DOMContentLoaded]: [imoveisData] is the empty
    array, at reference 1. *)
Definition carros_inicio : CarrosPage.state :=
  {| CarrosPage.heap := {[ 1%positive := [] ]};
     CarrosPage.imoveisData := 1%positive;
     CarrosPage.doc := pagina; CarrosPage.listening := false |}.

(** The same, on a page whose selector is on "marca_asc". *)
Definition carros_inicio_marca : CarrosPage.state :=
  {| CarrosPage.heap := {[ 1%positive := [] ]};
     CarrosPage.imoveisData := 1%positive;
     CarrosPage.doc := Dom.withSelected (str "marca_asc") pagina;
     CarrosPage.listening := false |}.

(** The page after the catalog of brands was loaded, every record with
    its picture. *)
Definition carros_carregado : CarrosPage.state :=
  CarrosPage.onDOMContentLoaded (fun _ => []) collateBase (fun _ => [])
    (fun c => Some (fotos c))
    (Dom.Response true 200 (Some catalogo_marcas)) carros_inicio.

Definition imoveis_inicio : ImoveisPage.state :=
  {| ImoveisPage.heap := {[ 1%positive := [] ]};
     ImoveisPage.imoveisData := 1%positive;
     ImoveisPage.doc := pagina; ImoveisPage.listening := false |}.


(* ===================================================================== *)
(** * Binary64 arithmetic facts *)
(* ===================================================================== *)

Section Binary64.

Lemma fexp_ge_emin k : emin <= fexp prec emax k.
Proof. unfold fexp, emin. lia. Qed.

Lemma emin_val : emin = -1074.
Proof. reflexivity. Qed.

Lemma shr_fexp_exp m e l : emin <= snd (shr_fexp prec emax m e l).
Proof.
  unfold shr_fexp, shr.
  pose proof (fexp_ge_emin (Zdigits2 m + e)) as Hf.
  destruct (fexp prec emax (Zdigits2 m + e) - e) eqn:Hn; simpl; lia.
Qed.

Lemma binary_round_aux_wf s m e l : wf (binary_round_aux prec emax s m e l).
Proof.
  unfold binary_round_aux.
  destruct (shr_fexp prec emax m e l) as [mrs' e'] eqn:H1.
  destruct (shr_fexp prec emax _ e' loc_Exact) as [mrs'' e''] eqn:H2.
  pose proof (shr_fexp_exp
    (round_nearest_even (shr_m mrs') (loc_of_shr_record mrs')) e' loc_Exact) as He.
  rewrite H2 in He. simpl in He.
  destruct (shr_m mrs''); simpl; auto.
  destruct (e'' <=? emax - prec); simpl; auto.
Qed.

Lemma binary_round_aux_signed s m e l :
  signed_as s (binary_round_aux prec emax s m e l).
Proof.
  unfold binary_round_aux.
  destruct (shr_fexp prec emax m e l) as [mrs' e'].
  destruct (shr_fexp prec emax _ e' loc_Exact) as [mrs'' e''].
  destruct (shr_m mrs''); simpl; auto.
  destruct (e'' <=? emax - prec); simpl; auto.
Qed.

Lemma digits2_pos_bounds m :
  2 ^ (Zpos (digits2_pos m) - 1) <= Zpos m < 2 ^ Zpos (digits2_pos m).
Proof.
  induction m as [m IH | m IH |]; simpl digits2_pos.
  - rewrite Pos2Z.inj_succ.
    replace (Z.succ (Zpos (digits2_pos m)) - 1) with (Z.succ (Zpos (digits2_pos m) - 1)) by lia.
    rewrite !Z.pow_succ_r by lia. lia.
  - rewrite Pos2Z.inj_succ.
    replace (Z.succ (Zpos (digits2_pos m)) - 1) with (Z.succ (Zpos (digits2_pos m) - 1)) by lia.
    rewrite !Z.pow_succ_r by lia. lia.
  - simpl. lia.
Qed.

Lemma shr_1_m r : 0 <= shr_m r -> shr_m (shr_1 r) = shr_m r / 2.
Proof.
  destruct r as [m rb sb]; simpl. intros Hm.
  destruct m as [| [p | p |] | p]; simpl shr_m; try reflexivity; try lia.
  - rewrite Pos2Z.inj_xI.
    apply Z.div_unique with (r := 1); lia.
  - rewrite Pos2Z.inj_xO.
    apply Z.div_unique with (r := 0); lia.
Qed.

Local Ltac pow2_side :=
  first [ lia | apply Z.pow_pos_nonneg; lia | apply Z.pow_nonzero; lia
        | apply Z.lt_le_incl, Z.pow_pos_nonneg; lia ].

Lemma iter_shr_1_m p : forall r,
  0 <= shr_m r -> shr_m (SpecFloat.iter_pos shr_1 p r) = shr_m r / 2 ^ Zpos p.
Proof.
  assert (Hnn : forall r, 0 <= shr_m r -> 0 <= shr_m (shr_1 r)).
  { intros r Hr. rewrite shr_1_m by assumption. apply Z.div_pos; lia. }
  induction p as [p IH | p IH |]; intros r Hr; simpl SpecFloat.iter_pos.
  - assert (H1 : 0 <= shr_m (SpecFloat.iter_pos shr_1 p (shr_1 r))).
    { rewrite IH by auto. apply Z.div_pos; [auto | pow2_side]. }
    rewrite IH, IH, shr_1_m by auto.
    rewrite !Z.div_div by pow2_side.
    f_equal. rewrite (Pos2Z.inj_xI p).
    replace (2 * Zpos p + 1) with (1 + Zpos p + Zpos p) by lia.
    rewrite !Z.pow_add_r by lia. lia.
  - assert (H1 : 0 <= shr_m (SpecFloat.iter_pos shr_1 p r)).
    { rewrite IH by auto. apply Z.div_pos; [auto | pow2_side]. }
    rewrite IH, IH by auto.
    rewrite Z.div_div by pow2_side.
    f_equal. rewrite (Pos2Z.inj_xO p).
    replace (2 * Zpos p) with (Zpos p + Zpos p) by lia.
    rewrite Z.pow_add_r by lia. lia.
  - rewrite shr_1_m by auto. reflexivity.
Qed.

Lemma shr_record_of_loc_m m l : shr_m (shr_record_of_loc m l) = m.
Proof. destruct l as [| []]; reflexivity. Qed.

(** Shifting a positive mantissa down to its format exponent keeps it
    positive: at most [digits - prec] bits are dropped. *)
Lemma shr_fexp_pos m e l :
  0 < m -> emin <= e -> 0 < shr_m (fst (shr_fexp prec emax m e l)).
Proof.
  intros Hm He. unfold shr_fexp, shr.
  destruct m as [| p | p]; try lia. simpl Zdigits2.
  pose proof (digits2_pos_bounds p) as [Hlo _].
  destruct (fexp prec emax (Zpos (digits2_pos p) + e) - e) as [| n | n] eqn:Hn;
    simpl fst; rewrite ?shr_record_of_loc_m; try lia.
  rewrite iter_shr_1_m by (rewrite shr_record_of_loc_m; lia).
  rewrite shr_record_of_loc_m.
  assert (Hle : Zpos n <= Zpos (digits2_pos p) - 1).
  { unfold fexp in Hn. fold emin in Hn. rewrite emin_val in Hn, He.
    unfold prec in Hn. lia. }
  apply Z.div_str_pos. split; [apply Z.pow_pos_nonneg; lia |].
  eapply Z.le_trans; [| exact Hlo].
  apply Z.pow_le_mono_r; lia.
Qed.

Lemma round_nearest_even_ge m l : m <= round_nearest_even m l.
Proof.
  destruct l as [| []]; simpl; try lia.
  destruct (Z.even m); lia.
Qed.

Lemma binary_round_aux_pos s m e l :
  0 < m -> emin <= e ->
  strictly_signed s (binary_round_aux prec emax s m e l).
Proof.
  intros Hm He. unfold binary_round_aux.
  pose proof (shr_fexp_pos m e l Hm He) as H1.
  pose proof (shr_fexp_exp m e l) as He1.
  destruct (shr_fexp prec emax m e l) as [mrs' e']. simpl in H1, He1.
  pose proof (round_nearest_even_ge (shr_m mrs') (loc_of_shr_record mrs')) as Hr.
  pose proof (shr_fexp_pos _ e' loc_Exact
                (Z.lt_le_trans _ _ _ H1 Hr) He1) as H2.
  destruct (shr_fexp prec emax _ e' loc_Exact) as [mrs'' e'']. simpl in H2.
  destruct (shr_m mrs''); try lia.
  destruct (e'' <=? emax - prec); simpl; auto.
Qed.

Lemma binary_round_wf s m e : wf (binary_round prec emax s m e).
Proof.
  unfold binary_round.
  destruct (shl_align m e _) as [mz ez]. apply binary_round_aux_wf.
Qed.

Lemma binary_round_signed s m e : signed_as s (binary_round prec emax s m e).
Proof.
  unfold binary_round.
  destruct (shl_align m e _) as [mz ez]. apply binary_round_aux_signed.
Qed.

Lemma binary_round_pos s m e :
  emin <= e -> strictly_signed s (binary_round prec emax s m e).
Proof.
  intros He. unfold binary_round, shl_align.
  pose proof (fexp_ge_emin (Zpos (digits2_pos m) + e)) as Hf.
  destruct (fexp prec emax (Zpos (digits2_pos m) + e) - e) eqn:Hd;
    apply binary_round_aux_pos; lia.
Qed.

Lemma pos_iter_xO d : forall m,
  Zpos (Pos.iter xO m d) = Zpos m * 2 ^ Zpos d.
Proof.
  induction d as [| d IH] using Pos.peano_ind; intros m.
  - simpl. lia.
  - rewrite Pos.iter_succ, Pos2Z.inj_xO, IH, Pos2Z.inj_succ, Z.pow_succ_r by lia.
    lia.
Qed.

Lemma shl_align_fst m e e' :
  e' <= e -> Zpos (fst (shl_align m e e')) = Zpos m * 2 ^ (e - e').
Proof.
  intros Hle. unfold shl_align.
  destruct (e' - e) as [| d | d] eqn:Hd; simpl fst.
  - replace (e - e') with 0 by lia. simpl. lia.
  - lia.
  - rewrite pos_iter_xO. f_equal. f_equal. lia.
Qed.

Lemma binary_normalize_wf m e sz : wf (binary_normalize prec emax m e sz).
Proof. destruct m; simpl; auto using binary_round_wf. Qed.

Lemma num_sub_wf x y : wf x -> wf y -> wf (num_sub x y).
Proof.
  destruct x as [sx | sx | | sx mx ex], y as [sy | sy | | sy my ey];
    simpl; auto; try (destruct sx, sy; simpl; auto; fail).
  intros _ _. apply binary_normalize_wf.
Qed.

Lemma num_of_decimal_wf neg m e10 : wf (num_of_decimal neg m e10).
Proof.
  unfold num_of_decimal. destruct m as [| p]; simpl; auto.
  destruct (0 <=? e10).
  - apply binary_normalize_wf.
  - unfold SFdiv.
    destruct (SFdiv_core_binary _ _ _ _ _ _) as [[mz ez] lz].
    apply binary_round_aux_wf.
Qed.

Lemma num_of_decimal_signed neg m e10 :
  signed_as neg (num_of_decimal neg m e10).
Proof.
  unfold num_of_decimal. destruct m as [| p]; simpl; auto.
  destruct (0 <=? e10) eqn:He.
  - apply Z.leb_le in He.
    assert (Hp : 0 < Zpos p * 10 ^ e10).
    { apply Z.mul_pos_pos; [lia | apply Z.pow_pos_nonneg; lia]. }
    destruct (Zpos p * 10 ^ e10) as [| q | q]; try lia.
    destruct neg; simpl; apply binary_round_signed.
  - unfold SFdiv.
    destruct (SFdiv_core_binary _ _ _ _ _ _) as [[mz ez] lz].
    rewrite xorb_false_r. apply binary_round_aux_signed.
Qed.

Lemma ulps_finite_pos (m : positive) e :
  emin <= e -> 0 < Zpos m * 2 ^ (e - emin).
Proof.
  intros He. apply Z.mul_pos_pos; [lia | apply Z.pow_pos_nonneg; lia].
Qed.

Lemma gt0_strictly_signed s x : strictly_signed s x -> gt0 x = negb s.
Proof. destruct x as [| | |]; simpl; try tauto; intros ->; destruct s; reflexivity. Qed.

(** The sign of a difference of finite values is the sign of the exact
    difference: subtraction never rounds a non-zero result to zero. *)
Lemma num_sub_finite_gt0 sx mx ex sy my ey :
  emin <= ex -> emin <= ey ->
  gt0 (num_sub (S754_finite sx mx ex) (S754_finite sy my ey))
  = negb (ulps (S754_finite sx mx ex) <=? ulps (S754_finite sy my ey)).
Proof.
  intros Hx Hy. unfold num_sub, SFsub, ulps.
  set (ez := Z.min ex ey).
  assert (Hez : emin <= ez) by (unfold ez; lia).
  rewrite !shl_align_fst by (unfold ez; lia).
  set (k := 2 ^ (ez - emin)).
  assert (Hk : 0 < k) by (apply Z.pow_pos_nonneg; lia).
  assert (Ex : Zpos mx * 2 ^ (ex - emin) = Zpos mx * 2 ^ (ex - ez) * k).
  { unfold k. rewrite <- Z.mul_assoc, <- Z.pow_add_r by (unfold ez; lia).
    do 2 f_equal. lia. }
  assert (Ey : Zpos my * 2 ^ (ey - emin) = Zpos my * 2 ^ (ey - ez) * k).
  { unfold k. rewrite <- Z.mul_assoc, <- Z.pow_add_r by (unfold ez; lia).
    do 2 f_equal. lia. }
  rewrite Ex, Ey.
  set (a := Zpos mx * 2 ^ (ex - ez)). set (b := Zpos my * 2 ^ (ey - ez)).
  assert (Hd : cond_Zopp sx (a * k) - cond_Zopp sy (b * k)
               = (cond_Zopp sx a - cond_Zopp sy b) * k).
  { destruct sx, sy; simpl; lia. }
  set (D := cond_Zopp sx a - cond_Zopp sy b) in *.
  assert (Hsign : (cond_Zopp sx (a * k) <=? cond_Zopp sy (b * k)) = (D <=? 0)).
  { apply eq_true_iff_eq. rewrite !Z.leb_le. nia. }
  rewrite Hsign.
  destruct D as [| d | d]; simpl binary_normalize.
  - reflexivity.
  - rewrite (gt0_strictly_signed false) by (apply binary_round_pos; exact Hez).
    reflexivity.
  - rewrite (gt0_strictly_signed true) by (apply binary_round_pos; exact Hez).
    reflexivity.
Qed.

(** The comparator idiom [x - y > 0] decides [x > y] on Numbers. *)
Lemma num_sub_gt0 x y :
  wf x -> wf y -> isNaN x = false -> isNaN y = false ->
  gt0 (num_sub x y) = negb (num_leb x y).
Proof.
  destruct x as [sx | sx | | sx mx ex], y as [sy | sy | | sy my ey];
    intros Hx Hy Nx Ny; try discriminate;
    try (destruct sx, sy; reflexivity).
  - pose proof (ulps_finite_pos my ey Hy).
    destruct sx, sy; simpl in *;
      match goal with
      | |- _ = negb (?a <=? ?b) =>
          destruct (Z.leb_spec a b); simpl; try reflexivity; lia
      end.
  - pose proof (ulps_finite_pos mx ex Hx).
    destruct sx, sy; simpl in *;
      match goal with
      | |- _ = negb (?a <=? ?b) =>
          destruct (Z.leb_spec a b); simpl; try reflexivity; lia
      end.
  - apply num_sub_finite_gt0; assumption.
Qed.

(** [ulps] and [num_leb] are exact: [ulps x] is the value of [x] in
    units of [2^emin], and [num_leb] is the order of the values. *)
Lemma ulps_exact x :
  wf x -> (inject_Z (ulps x) * Qpower 2 emin == exactValue x)%Q.
Proof.
  destruct x as [s | s | | s m e]; simpl; intros He; try reflexivity.
  assert (E : (inject_Z (2 ^ (e - emin)) * Qpower 2 emin == Qpower 2 e)%Q).
  { rewrite Zpower_Qpower by lia. rewrite <- Qpower_plus by discriminate.
    replace (e - emin + emin) with e by lia. reflexivity. }
  destruct s; simpl cond_Zopp.
  - rewrite <- Z.mul_opp_l, inject_Z_mult, <- Qmult_assoc, E. reflexivity.
  - rewrite inject_Z_mult, <- Qmult_assoc, E. reflexivity.
Qed.

Lemma num_leb_exact x y :
  wf x -> wf y -> isFinite x = true -> isFinite y = true ->
  num_leb x y = true <-> (exactValue x <= exactValue y)%Q.
Proof.
  intros Hx Hy Fx Fy.
  rewrite <- (ulps_exact x Hx), <- (ulps_exact y Hy).
  rewrite Qmult_le_r by (apply Qpower_0_lt; reflexivity).
  rewrite <- Zle_Qle.
  destruct x, y; try discriminate; unfold num_leb; apply Z.leb_le.
Qed.

Lemma num_leb_trans x y z :
  num_leb x y = true -> num_leb y z = true -> num_leb x z = true.
Proof.
  destruct x as [sx | sx | | sx mx ex], y as [sy | sy | | sy my ey],
           z as [sz | sz | | sz mz ez];
    unfold num_leb; try discriminate; try reflexivity;
    rewrite ?Z.leb_le; try lia;
    try (destruct sx; simpl; congruence);
    try (destruct sy; simpl; congruence);
    try (destruct sz; simpl; congruence);
    try (destruct sx, sy; simpl; congruence);
    try (destruct sy, sz; simpl; congruence);
    try (destruct sx, sy, sz; simpl; congruence).
Qed.

Lemma num_leb_total x y :
  isNaN x = false -> isNaN y = false ->
  num_leb x y = false -> num_leb y x = true.
Proof.
  destruct x as [sx | sx | | sx mx ex], y as [sy | sy | | sy my ey];
    unfold num_leb; try discriminate; try reflexivity;
    rewrite ?Z.leb_le, ?Z.leb_gt; try lia;
    try (destruct sx; simpl; congruence);
    try (destruct sy; simpl; congruence);
    try (destruct sx, sy; simpl; congruence).
Qed.

(** ** No overflow below [2^1020] *)

Lemma Zdigits2_le x k : 0 <= x -> 0 <= k -> x < 2 ^ k -> Zdigits2 x <= k.
Proof.
  intros Hx Hk Hlt. destruct x as [| p | p]; simpl; try lia.
  pose proof (digits2_pos_bounds p) as [Hlo _].
  assert (H : 2 ^ (Zpos (digits2_pos p) - 1) < 2 ^ k) by lia.
  apply Z.pow_lt_mono_r_iff in H; lia.
Qed.

Lemma max_exponent : emax - prec = 971.
Proof. reflexivity. Qed.

Lemma fexp_le k : k <= 1024 -> fexp prec emax k <= 971.
Proof. unfold fexp, SpecFloat.emin, prec, emax. lia. Qed.

(** Shifting to the format exponent keeps a value below [2^B] below
    [2^B], with an exponent in range. *)
Lemma shr_fexp_bounds m e l B :
  0 <= m -> e <= 971 -> 0 <= B <= 1024 -> m < 2 ^ (B - e) ->
  0 <= shr_m (fst (shr_fexp prec emax m e l))
  /\ snd (shr_fexp prec emax m e l) <= 971
  /\ shr_m (fst (shr_fexp prec emax m e l))
     < 2 ^ (B - snd (shr_fexp prec emax m e l)).
Proof.
  intros Hm He HB Hlt.
  assert (HBe : 0 <= B - e).
  { destruct (Z.le_gt_cases 0 (B - e)) as [H | H]; [exact H |].
    rewrite Z.pow_neg_r in Hlt by lia. lia. }
  pose proof (Zdigits2_le m (B - e) Hm HBe Hlt) as Hd.
  pose proof (fexp_le (Zdigits2 m + e) ltac:(lia)) as Hf.
  unfold shr_fexp, shr.
  destruct (fexp prec emax (Zdigits2 m + e) - e) as [| n | n] eqn:Hn;
    simpl fst; simpl snd; rewrite ?shr_record_of_loc_m; try (repeat split; lia).
  rewrite iter_shr_1_m by (rewrite shr_record_of_loc_m; exact Hm).
  rewrite shr_record_of_loc_m.
  assert (Hp : 0 < 2 ^ Zpos n) by (apply Z.pow_pos_nonneg; lia).
  assert (Hn' : e + Zpos n <= B)
    by (unfold fexp, SpecFloat.emin, prec, emax in Hn; lia).
  split; [apply Z.div_pos; lia |]. split; [lia |].
  apply Z.div_lt_upper_bound; [exact Hp |].
  rewrite <- Z.pow_add_r by lia.
  replace (Zpos n + (B - (e + Zpos n))) with (B - e) by lia. exact Hlt.
Qed.

Lemma round_nearest_even_le m l : round_nearest_even m l <= m + 1.
Proof.
  destruct l as [| []]; simpl; try lia.
  destruct (Z.even m); lia.
Qed.

Lemma binary_round_aux_finite s m e l :
  0 <= m -> e <= 971 -> m < 2 ^ (1023 - e) ->
  isFinite (binary_round_aux prec emax s m e l) = true.
Proof.
  intros Hm He Hlt. unfold binary_round_aux.
  pose proof (shr_fexp_bounds m e l 1023 Hm He ltac:(lia) Hlt) as (H1 & He1 & Hl1).
  destruct (shr_fexp prec emax m e l) as [mrs' e1]. simpl in H1, He1, Hl1.
  set (m2 := round_nearest_even (shr_m mrs') (loc_of_shr_record mrs')).
  assert (Hm2 : 0 <= m2)
    by (pose proof (round_nearest_even_ge (shr_m mrs') (loc_of_shr_record mrs'));
        unfold m2; lia).
  assert (Hl2 : m2 < 2 ^ (1024 - e1)).
  { pose proof (round_nearest_even_le (shr_m mrs') (loc_of_shr_record mrs')).
    replace (1024 - e1) with (Z.succ (1023 - e1)) by lia.
    rewrite Z.pow_succ_r by lia.
    assert (0 < 2 ^ (1023 - e1)) by (apply Z.pow_pos_nonneg; lia).
    unfold m2. lia. }
  pose proof (shr_fexp_bounds m2 e1 loc_Exact 1024 Hm2 He1 ltac:(lia) Hl2)
    as (H3 & He3 & _).
  destruct (shr_fexp prec emax m2 e1 loc_Exact) as [mrs'' e2]. simpl in H3, He3.
  destruct (shr_m mrs'') as [| q | q]; [reflexivity | | lia].
  rewrite max_exponent. apply Z.leb_le in He3. rewrite He3. reflexivity.
Qed.

Lemma binary_round_finite s p :
  Zpos p < 2 ^ 1020 -> isFinite (binary_round prec emax s p 0) = true.
Proof.
  intros Hp. unfold binary_round, shl_align.
  destruct (fexp prec emax (Zpos (digits2_pos p) + 0) - 0) as [| d | d] eqn:Hd.
  - apply binary_round_aux_finite; lia.
  - apply binary_round_aux_finite; lia.
  - pose proof (fexp_ge_emin (Zpos (digits2_pos p) + 0)) as Hge.
    rewrite emin_val in Hge.
    assert (Hf : fexp prec emax (Zpos (digits2_pos p) + 0) = Zneg d) by lia.
    rewrite Hf. apply binary_round_aux_finite; try lia.
    rewrite pos_iter_xO.
    replace (1023 - Zneg d) with (1023 + Zpos d) by lia.
    rewrite Z.pow_add_r by lia.
    assert (0 < 2 ^ Zpos d) by (apply Z.pow_pos_nonneg; lia).
    assert (2 ^ 1020 < 2 ^ 1023) by (apply Z.pow_lt_mono_r; lia).
    nia.
Qed.

Lemma SFdiv_finite s p q :
  Zpos p < 2 ^ 1020 ->
  isFinite (SFdiv prec emax (S754_finite s p 0) (S754_finite false q 0)) = true.
Proof.
  intros Hp. unfold SFdiv, SFdiv_core_binary.
  set (e' := Z.min (fexp prec emax
                      (Zdigits2 (Zpos p) + 0 - (Zdigits2 (Zpos q) + 0))) (0 - 0)).
  assert (He' : e' <= 0) by (unfold e'; lia).
  set (m' := match 0 - 0 - e' with
             | Zpos _ => Z.shiftl (Zpos p) (0 - 0 - e')
             | Z0 => Zpos p
             | Zneg _ => 0
             end).
  assert (Hm' : 0 <= m' < 2 ^ (1020 - e')).
  { unfold m'. destruct (0 - 0 - e') as [| n | n] eqn:Hs; try lia.
    - replace e' with 0 by lia. simpl Z.sub. lia.
    - rewrite Z.shiftl_mul_pow2 by lia.
      replace (1020 - e') with (1020 + Zpos n) by lia.
      rewrite Z.pow_add_r by lia.
      assert (0 < 2 ^ Zpos n) by (apply Z.pow_pos_nonneg; lia).
      nia. }
  destruct (Z.div_eucl m' (Zpos q)) as [qt r] eqn:Hdiv.
  assert (Hq : qt = m' / Zpos q) by (unfold Z.div; rewrite Hdiv; reflexivity).
  apply binary_round_aux_finite.
  - rewrite Hq. apply Z.div_pos; lia.
  - lia.
  - assert (Hle : qt <= m').
    { rewrite Hq. apply Z.div_le_upper_bound; [lia | nia]. }
    assert (2 ^ (1020 - e') < 2 ^ (1023 - e')) by (apply Z.pow_lt_mono_r; lia).
    lia.
Qed.

Lemma ten_307 : 10 ^ 307 < 2 ^ 1020.
Proof. reflexivity. Qed.

(** A decimal below [10^307] is in the binary64 range. *)
Lemma num_of_decimal_finite neg m k :
  Z.of_N m < 10 ^ 307 -> 0 <= k ->
  isFinite (num_of_decimal neg m (- k)) = true.
Proof.
  intros Hm Hk. pose proof ten_307 as H10.
  unfold num_of_decimal. destruct m as [| p]; [reflexivity |].
  simpl Z.of_N in Hm.
  destruct (Z.leb_spec 0 (- k)) as [H0 | H0].
  - replace (- k) with 0 by lia. change (10 ^ 0) with 1. rewrite Z.mul_1_r.
    destruct neg; simpl; apply binary_round_finite; lia.
  - apply SFdiv_finite. lia.
Qed.

End Binary64.

(* ===================================================================== *)
(** * The fragment on known values *)
(* ===================================================================== *)

(** The binary64 values of 1234.56 and 0.1, as every engine prints them:
    [0x40934A3D70A3D70A] and [0x3FB999999999999A]. *)
Example parseFloat_1234_56 :
  parseFloat (str "1234.56") = S754_finite false 5429652300748554 (-42).
Proof. reflexivity. Qed.

Example parseFloat_tenth :
  parseFloat (str "0.1") = S754_finite false 7205759403792794 (-56).
Proof. reflexivity. Qed.

(** A sign, an exponent and trailing text; no number; the literal
    [Infinity]; an integer halfway between two Numbers, which goes to
    the even one. *)
Example parseFloat_forms :
  parseFloat (str "  -1.5e3 reais") = num_of_Z (-1500)
  /\ parseFloat (str "R$ 5") = NaN
  /\ parseFloat (str ".") = NaN
  /\ parseFloat (str "-Infinity") = S754_infinity true
  /\ parseFloat (str "9007199254740993") = num_of_Z 9007199254740992.
Proof. vm_compute. repeat split; reflexivity. Qed.

(** [toFixed] rounds the binary value, not the decimal text:
    [(1.005).toFixed(2)] is "1.00" and [(8.345).toFixed(2)] is "8.35". *)
Example toFixed_binary (numberToString : number -> jsstring) :
  toFixed numberToString 2 (parseFloat (str "1.005")) = str "1.00"
  /\ toFixed numberToString 2 (parseFloat (str "8.345")) = str "8.35"
  /\ toFixed numberToString 2 (parseFloat (str "-0.001")) = str "-0.00"
  /\ toFixed numberToString 0 (parseFloat (str "2.5")) = str "3".
Proof. vm_compute. repeat split; reflexivity. Qed.

Example infinity_minus_infinity : num_sub Infinity Infinity = NaN.
Proof. reflexivity. Qed.

(* ===================================================================== *)
(** * The sort of [Array.prototype.sort] *)
(* ===================================================================== *)

Section SortFacts.
Context {A : Type}.
Variable gt : A -> A -> bool.
(** The elements on which the comparator is consistent. *)
Variable P : A -> Prop.

Let LE (a b : A) : Prop := gt a b = false.

Hypothesis gt_asym : forall a b, P a -> P b -> gt a b = true -> gt b a = false.
Hypothesis gt_trans : forall a b c, P a -> P b -> P c ->
  gt a b = false -> gt b c = false -> gt a c = false.

Lemma insert_by_perm x l : Permutation (insert_by gt x l) (x :: l).
Proof.
  induction l as [| y t IH]; simpl; [reflexivity |].
  destruct (gt x y); [| reflexivity].
  rewrite IH. apply perm_swap.
Qed.

Lemma sort_by_perm l : Permutation (sort_by gt l) l.
Proof.
  induction l as [| x t IH]; simpl; [reflexivity |].
  rewrite insert_by_perm. now constructor.
Qed.

Lemma sort_by_Forall (Q : A -> Prop) l : Forall Q l -> Forall Q (sort_by gt l).
Proof.
  intros H. eapply Permutation_Forall; [| exact H].
  symmetry. apply sort_by_perm.
Qed.

Lemma insert_by_sorted x l :
  P x -> Forall P l ->
  StronglySorted LE l -> StronglySorted LE (insert_by gt x l).
Proof.
  intros Px. induction l as [| y t IH]; intros HP Hs; simpl.
  - repeat constructor.
  - apply Forall_cons_1 in HP as [Py Pt].
    apply StronglySorted_inv in Hs as [Hst Hy].
    destruct (gt x y) eqn:Hxy.
    + constructor; [auto |].
      eapply Permutation_Forall; [symmetry; apply insert_by_perm |].
      constructor; [| exact Hy]. apply gt_asym; auto.
    + constructor; [constructor; auto |].
      constructor; [exact Hxy |].
      rewrite Forall_forall in Hy, Pt |- *. intros z Hz.
      apply gt_trans with y; auto. apply Hy; auto.
Qed.

Lemma sort_by_sorted l : Forall P l -> StronglySorted LE (sort_by gt l).
Proof.
  induction l as [| x t IH]; intros HP; simpl; [constructor |].
  apply Forall_cons_1 in HP as [Px Pt].
  apply insert_by_sorted; auto using sort_by_Forall.
Qed.

(** Insertion moves [x] only past elements that compare below it, so
    the elements tied with any [z] keep their order. *)
Lemma insert_by_tied z x l :
  P z -> P x -> Forall P l ->
  List.filter (tied gt z) (insert_by gt x l) = List.filter (tied gt z) (x :: l).
Proof.
  intros Pz Px. induction l as [| y t IH]; intros HP; [reflexivity |].
  apply Forall_cons_1 in HP as [Py Pt].
  simpl insert_by. destruct (gt x y) eqn:Hxy; [| reflexivity].
  change (List.filter (tied gt z) (y :: insert_by gt x t))
    with (if tied gt z y then y :: List.filter (tied gt z) (insert_by gt x t)
          else List.filter (tied gt z) (insert_by gt x t)).
  rewrite IH by assumption. simpl.
  destruct (tied gt z x) eqn:Tx, (tied gt z y) eqn:Ty; try reflexivity.
  exfalso. unfold tied in Tx, Ty.
  apply andb_true_iff in Tx as [_ Hxz], Ty as [Hzy _].
  apply negb_true_iff in Hxz, Hzy.
  rewrite (gt_trans x z y) in Hxy; auto. discriminate.
Qed.

Lemma sort_by_stable z l :
  P z -> Forall P l ->
  List.filter (tied gt z) (sort_by gt l) = List.filter (tied gt z) l.
Proof.
  intros Pz. induction l as [| x t IH]; intros HP; [reflexivity |].
  apply Forall_cons_1 in HP as [Px Pt].
  simpl sort_by. rewrite insert_by_tied by auto using sort_by_Forall.
  simpl. rewrite IH by assumption. reflexivity.
Qed.

(** Two sorted arrangements of the same elements that keep the same
    order among tied elements are equal: for a consistent comparator the
    result of a stable sort is determined, whatever the algorithm. *)
Lemma stable_sorted_unique l1 : forall l2,
  Forall P l1 -> Permutation l1 l2 ->
  StronglySorted LE l1 -> StronglySorted LE l2 ->
  (forall z, In z l1 ->
     List.filter (tied gt z) l1 = List.filter (tied gt z) l2) ->
  l1 = l2.
Proof.
  induction l1 as [| x t1 IH]; intros l2 HP Hperm Hs1 Hs2 Hst.
  - symmetry. apply Permutation_nil. exact Hperm.
  - destruct l2 as [| y t2];
      [apply Permutation_sym, Permutation_nil in Hperm; discriminate |].
    apply Forall_cons_1 in HP as [Px Pt].
    apply StronglySorted_inv in Hs1 as [Hs1 Hx].
    apply StronglySorted_inv in Hs2 as [Hs2 Hy].
    assert (Py : P y).
    { apply (List.Forall_forall P (x :: t1)); [now constructor |].
      eapply Permutation_in; [symmetry; exact Hperm | now left]. }
    assert (Txx : tied gt x x = true).
    { unfold tied. destruct (gt x x) eqn:E; [| reflexivity].
      rewrite (gt_asym x x Px Px E) in E. discriminate. }
    assert (Exy : x = y).
    { pose proof (Hst x (or_introl eq_refl)) as Hf. simpl in Hf.
      rewrite Txx in Hf.
      destruct (tied gt x y) eqn:Txy; [congruence |].
      exfalso. unfold tied in Txy.
      assert (Lxy : gt x y = false).
      { assert (Hin : In y (x :: t1))
          by (eapply Permutation_in; [symmetry; exact Hperm | now left]).
        destruct Hin as [<- | Hin];
          [apply andb_true_iff in Txx as [H _]; now apply negb_true_iff in H |].
        rewrite List.Forall_forall in Hx. now apply Hx. }
      assert (Lyx : gt y x = false).
      { assert (Hin : In x (y :: t2))
          by (eapply Permutation_in; [exact Hperm | now left]).
        destruct Hin as [<- | Hin];
          [apply andb_true_iff in Txx as [H _]; now apply negb_true_iff in H |].
        rewrite List.Forall_forall in Hy. now apply Hy. }
      rewrite Lxy, Lyx in Txy. discriminate. }
    subst y. f_equal.
    apply IH; auto.
    + eapply Permutation_cons_inv. exact Hperm.
    + intros z Hz. pose proof (Hst z (or_intror Hz)) as Hf. simpl in Hf.
      destruct (tied gt z x); congruence.
Qed.

(** [sort_by] is that arrangement. *)
Lemma sort_by_determined l out :
  Forall P l -> Permutation out l ->
  StronglySorted LE out ->
  (forall z, In z l -> List.filter (tied gt z) out = List.filter (tied gt z) l) ->
  out = sort_by gt l.
Proof.
  intros HP Hperm Hs Hst.
  apply stable_sorted_unique.
  - eapply Permutation_Forall; [symmetry; exact Hperm | exact HP].
  - rewrite Hperm. symmetry. apply sort_by_perm.
  - exact Hs.
  - apply sort_by_sorted, HP.
  - intros z Hz.
    assert (Hzl : In z l) by (eapply Permutation_in; eauto).
    rewrite (Hst z Hzl). symmetry. apply sort_by_stable; [| exact HP].
    rewrite List.Forall_forall in HP. now apply HP.
Qed.
End SortFacts.

Section SortPure.
Context {A : Type}.
Variable comparefn : A -> A -> result number.
Variable c : A -> A -> number.
(** The elements on which the comparator returns normally. *)
Variable Q : A -> Prop.
Hypothesis comparefn_ok : forall a b, Q a -> Q b -> comparefn a b = Ok (c a b).

Let gt (a b : A) : bool := gt0 (c a b).

Lemma sortInsert_pure x l :
  Q x -> Forall Q l -> sortInsert comparefn x l = Ok (insert_by gt x l).
Proof.
  intros Qx. induction l as [| y t IH]; intros HQ; [reflexivity |].
  apply Forall_cons_1 in HQ as [Qy Qt].
  simpl. rewrite comparefn_ok by assumption. simpl.
  unfold gt at 1. destruct (gt0 (c x y)); [| reflexivity].
  rewrite IH by assumption. reflexivity.
Qed.

Lemma array_sort_pure l :
  Forall Q l -> array_sort comparefn l = Ok (sort_by gt l).
Proof.
  induction l as [| x t IH]; intros HQ; [reflexivity |].
  apply Forall_cons_1 in HQ as [Qx Qt].
  simpl. rewrite IH by assumption. simpl.
  apply sortInsert_pure; [assumption |].
  apply sort_by_Forall; assumption.
Qed.
End SortPure.

Lemma StronglySorted_weaken {A} (R R' : A -> A -> Prop) (P : A -> Prop) l :
  (forall a b, P a -> P b -> R a b -> R' a b) ->
  Forall P l -> StronglySorted R l -> StronglySorted R' l.
Proof.
  intros HR. induction l as [| x t IH]; intros HP Hs; [constructor |].
  apply Forall_cons_1 in HP as [Px Pt].
  apply StronglySorted_inv in Hs as [Hst Hx].
  constructor; [auto |].
  rewrite Forall_forall in Hx, Pt |- *. intros y Hy. apply HR; auto.
Qed.

Lemma StronglySorted_pairs {A} (R : A -> A -> Prop) l :
  StronglySorted R l ->
  forall a b, In a l -> In b l -> a = b \/ R a b \/ R b a.
Proof.
  induction 1 as [| x t Hs IH Hx]; intros a b Ha Hb; [destruct Ha |].
  rewrite List.Forall_forall in Hx.
  destruct Ha as [<- | Ha], Hb as [<- | Hb]; auto.
Qed.

(* ===================================================================== *)
(** * Strings of digits, commas and periods *)
(* ===================================================================== *)

Section KeepStrings.

Local Abbreviation keep := (fun c => Carros.keepChar c = true).

Lemma keepChar_cases c :
  Carros.keepChar c = true ->
  In c [44; 46; 48; 49; 50; 51; 52; 53; 54; 55; 56; 57]%N.
Proof.
  unfold Carros.keepChar, isDigit. intros H.
  assert (Hr : (44 <= c <= 57 /\ c <> 45 /\ c <> 47)%N).
  { change char_dot with 46%N in H. change char_comma with 44%N in H.
    destruct (N.leb_spec 48 c), (N.leb_spec c 57),
             (N.eqb_spec c 46), (N.eqb_spec c 44);
      simpl in H; try discriminate; lia. }
  simpl. lia.
Qed.

Ltac keep_cases H :=
  apply keepChar_cases in H; simpl in H;
  repeat (destruct H as [H | H]; [subst |]); [.. | contradiction].

Lemma keep_not_ws c : Carros.keepChar c = true -> isWhiteSpace c = false.
Proof. intros H. keep_cases H; reflexivity. Qed.

Lemma keep_not_sign c :
  Carros.keepChar c = true ->
  (c =? char_minus)%N = false /\ (c =? char_plus)%N = false.
Proof. intros H. keep_cases H; split; reflexivity. Qed.

Lemma keep_not_letter c :
  Carros.keepChar c = true ->
  (73 =? c)%N = false /\ (c =? chr "e")%N = false /\ (c =? chr "E")%N = false.
Proof. intros H. keep_cases H; repeat split; reflexivity. Qed.

Lemma keep_digit_or_sep c :
  Carros.keepChar c = true -> isDigit c = negb (isSep c).
Proof. intros H. keep_cases H; reflexivity. Qed.

Lemma dropWhile_id (p : N -> bool) s :
  Forall (fun c => p c = false) s -> dropWhile p s = s.
Proof. destruct 1 as [| c t Hc _]; simpl; [reflexivity | now rewrite Hc]. Qed.

Lemma dropWhile_Forall (Q : N -> Prop) p s :
  Forall Q s -> Forall Q (dropWhile p s).
Proof.
  induction 1 as [| c t Hc Ht IH]; simpl; [constructor |].
  destruct (p c); [exact IH | now constructor].
Qed.

Lemma takeWhile_Forall (Q : N -> Prop) p s :
  Forall Q s -> Forall Q (takeWhile p s).
Proof.
  induction 1 as [| c t Hc Ht IH]; simpl; [constructor |].
  destruct (p c); now constructor.
Qed.

Lemma filter_Forall (Q : N -> Prop) p s :
  Forall Q s -> Forall Q (List.filter p s).
Proof.
  induction 1 as [| c t Hc Ht IH]; simpl; [constructor |].
  destruct (p c); [now constructor | exact IH].
Qed.

Lemma filter_keep s : Forall keep (List.filter Carros.keepChar s).
Proof.
  induction s as [| c t IH]; simpl; [constructor |].
  destruct (Carros.keepChar c) eqn:Hc; [now constructor | exact IH].
Qed.

Lemma replaceFirst_Forall (Q : N -> Prop) c d s :
  Q d -> Forall Q s -> Forall Q (replaceFirst c d s).
Proof.
  intros Hd. induction 1 as [| x t Hx Ht IH]; simpl; [constructor |].
  destruct (x =? c)%N; now constructor.
Qed.

Lemma trim_keep s : Forall keep s -> trim s = s.
Proof.
  intros Hs. unfold trim, trimEnd, trimStart.
  assert (Hws : Forall (fun c => isWhiteSpace c = false) s).
  { eapply Forall_impl; [exact Hs | apply keep_not_ws]. }
  rewrite (dropWhile_id _ s Hws).
  rewrite dropWhile_id by (apply Forall_rev; exact Hws).
  apply rev_involutive.
Qed.

Lemma cleanedValue_filter s : cleanedValue s = List.filter Carros.keepChar s.
Proof. apply trim_keep, filter_keep. Qed.

Lemma cleanedValue_keep s : Forall keep (cleanedValue s).
Proof. rewrite cleanedValue_filter. apply filter_keep. Qed.

Lemma separatorsNormalized_Forall (Q : N -> Prop) t :
  Q char_dot -> Forall Q t -> Forall Q (separatorsNormalized t).
Proof.
  intros Hd Ht. unfold separatorsNormalized.
  repeat match goal with |- context [if ?b then _ else _] => destruct b end;
    unfold removeAll; auto using replaceFirst_Forall, filter_Forall.
Qed.

Lemma cleanAndParseValue_unfold c s :
  Carros.cleanAndParseValue (Some (c :: s)) =
  let v := parseFloat (separatorsNormalized (cleanedValue (c :: s))) in
  if isNaN v then zero else v.
Proof. reflexivity. Qed.

Lemma exponentPart_keep r : Forall keep r -> exponentPart r = 0.
Proof.
  destruct 1 as [| c t Hc _]; [reflexivity |].
  apply keep_not_letter in Hc as (_ & He & HE).
  unfold exponentPart. rewrite He, HE. reflexivity.
Qed.

(** On a string of digits, commas and periods [parseFloat] reads the
    leading digits and the digits after a radix point that follows them. *)
Lemma parseFloat_keep u :
  Forall keep u ->
  parseFloat u =
  match takeWhile isDigit u ++ fracDigits (dropWhile isDigit u) with
  | [] => NaN
  | ds => num_of_decimal false (digitsValue ds)
            (- Z.of_nat (length (fracDigits (dropWhile isDigit u))))
  end.
Proof.
  intros Hu. unfold parseFloat, trimStart.
  rewrite dropWhile_id
    by (eapply Forall_impl; [exact Hu | apply keep_not_ws]).
  destruct u as [| c t]; [reflexivity |].
  pose proof (Forall_inv Hu) as Hc.
  destruct (keep_not_sign c Hc) as [-> ->].
  destruct (keep_not_letter c Hc) as (HI & _ & _).
  change (isPrefixOf (str "Infinity") (c :: t))
    with ((73 =? c)%N && isPrefixOf (str "nfinity") t).
  rewrite HI. simpl andb. cbv iota.
  pose proof (dropWhile_Forall _ isDigit _ Hu) as Hr.
  destruct (dropWhile isDigit (c :: t)) as [| d r]; simpl fracDigits.
  - reflexivity.
  - apply Forall_cons_1 in Hr as [Hd Hr].
    destruct (d =? char_dot)%N.
    + rewrite exponentPart_keep by (apply dropWhile_Forall; exact Hr).
      reflexivity.
    + rewrite exponentPart_keep by (constructor; assumption).
      reflexivity.
Qed.

Lemma parseFloat_wf s : wf (parseFloat s).
Proof.
  unfold parseFloat.
  repeat match goal with
         | |- context [let '(_, _) := ?X in _] => destruct X
         | |- context [if ?b then _ else _] => destruct b
         | |- context [match ?l ++ ?l' with _ => _ end] => destruct (l ++ l')
         end; simpl; auto using num_of_decimal_wf.
Qed.

Lemma parseFloat_keep_signed u :
  Forall keep u -> signed_as false (parseFloat u).
Proof.
  intros Hu. rewrite parseFloat_keep by assumption.
  destruct (_ ++ _); simpl; auto using num_of_decimal_signed.
Qed.

Lemma parseFloat_sep_only u :
  Forall (fun c => isSep c = true) u -> parseFloat u = NaN.
Proof.
  intros Hu.
  assert (Hk : Forall keep u).
  { eapply Forall_impl; [exact Hu |]. intros c Hc. simpl.
    unfold Carros.keepChar. unfold isSep in Hc.
    rewrite <- orb_assoc, Hc. apply orb_true_r. }
  assert (Hnd : forall v, Forall (fun c => isSep c = true) v ->
                          takeWhile isDigit v = [] /\ dropWhile isDigit v = v).
  { intros v Hv. destruct Hv as [| c t Hc Ht]; [split; reflexivity |].
    assert (Hd : isDigit c = false).
    { rewrite keep_digit_or_sep, Hc; [reflexivity |].
      unfold Carros.keepChar. unfold isSep in Hc.
      rewrite <- orb_assoc, Hc. apply orb_true_r. }
    simpl. rewrite Hd. split; reflexivity. }
  rewrite parseFloat_keep by assumption.
  destruct (Hnd u Hu) as [-> ->].
  destruct Hu as [| c t Hc Ht]; [reflexivity |].
  simpl. destruct (c =? char_dot)%N; [| reflexivity].
  destruct (Hnd t Ht) as [-> _]. reflexivity.
Qed.

Lemma cleanAndParseValue_wf v : wf (Carros.cleanAndParseValue v).
Proof.
  destruct v as [[| c s] |]; try exact I.
  rewrite cleanAndParseValue_unfold. cbv zeta.
  destruct (isNaN _); [exact I | apply parseFloat_wf].
Qed.

Lemma cleanAndParseValue_nonNegative v :
  nonNegative (Carros.cleanAndParseValue v).
Proof.
  destruct v as [[| c s] |]; try exact I.
  rewrite cleanAndParseValue_unfold. cbv zeta.
  pose proof (parseFloat_keep_signed (separatorsNormalized (cleanedValue (c :: s)))) as Hs.
  specialize (Hs (separatorsNormalized_Forall _ _ eq_refl (cleanedValue_keep _))).
  destruct (parseFloat _) as [sg | sg | | sg m e]; simpl in *; subst; exact I.
Qed.

Lemma cleanAndParseValue_not_nan v : isNaN (Carros.cleanAndParseValue v) = false.
Proof.
  pose proof (cleanAndParseValue_nonNegative v) as H.
  destruct (Carros.cleanAndParseValue v) as [[] | [] | | [] ? ?];
    simpl in *; tauto.
Qed.

Lemma orDefault_parse f :
  Carros.cleanAndParseValue (Carros.orDefault f) = Carros.cleanAndParseValue f.
Proof. destruct f as [[| c s] |]; reflexivity. Qed.

Lemma removeAll_none c s :
  Forall (fun x => (x =? c)%N = false) (removeAll c s).
Proof.
  unfold removeAll. induction s as [| x t IH]; simpl; [constructor |].
  destruct (x =? c)%N eqn:Hx; simpl; [exact IH | now constructor].
Qed.

Lemma countChar_0 c s :
  countChar c s = 0%nat -> Forall (fun x => (x =? c)%N = false) s.
Proof.
  unfold countChar. induction s as [| x t IH]; simpl; [constructor |].
  destruct (x =? c)%N eqn:Hx; simpl; [discriminate | now constructor; auto].
Qed.

Lemma takeWhile_replaceAll r :
  takeWhile isDigit (replaceAll char_comma char_dot r) = takeWhile isDigit r.
Proof.
  induction r as [| x t IH]; [reflexivity |]. simpl.
  destruct (N.eqb_spec x char_comma) as [-> | Hne]; [reflexivity |].
  destruct (isDigit x); [now rewrite IH | reflexivity].
Qed.

(** With no period in the text, turning the first comma or every comma
    into the radix point reads the same number: [parseFloat] stops at
    the second separator either way. *)
Lemma parseFloat_replaceFirst_All w :
  Forall keep w -> Forall (fun x => (x =? char_dot)%N = false) w ->
  parseFloat (replaceFirst char_comma char_dot w)
  = parseFloat (replaceAll char_comma char_dot w).
Proof.
  intros Hk Hnd.
  rewrite !parseFloat_keep.
  2: { unfold replaceAll. clear Hnd. induction Hk as [| x t Hx Ht IH]; simpl; [constructor |].
       constructor; [destruct (x =? char_comma)%N; [reflexivity | exact Hx] | exact IH]. }
  2: { apply replaceFirst_Forall; [reflexivity | exact Hk]. }
  assert (E : takeWhile isDigit (replaceFirst char_comma char_dot w)
              = takeWhile isDigit (replaceAll char_comma char_dot w)
              /\ fracDigits (dropWhile isDigit (replaceFirst char_comma char_dot w))
                 = fracDigits (dropWhile isDigit (replaceAll char_comma char_dot w))).
  { clear - Hk Hnd. induction Hk as [| x t Hx Ht IH]; [split; reflexivity |].
    apply Forall_cons_1 in Hnd as [Hxd Htd].
    specialize (IH Htd) as [IH1 IH2]. simpl.
    destruct (N.eqb_spec x char_comma) as [-> | Hne].
    - simpl. rewrite takeWhile_replaceAll. split; reflexivity.
    - pose proof (keep_digit_or_sep x Hx) as Hd. unfold isSep in Hd.
      rewrite Hxd in Hd. apply N.eqb_neq in Hne. rewrite Hne in Hd.
      simpl in Hd. simpl. rewrite Hd. split; [now rewrite IH1 | exact IH2]. }
  destruct E as [-> ->]. reflexivity.
Qed.

Lemma fracDigits_no_dot u :
  Forall (fun x => (x =? char_dot)%N = false) u ->
  fracDigits (dropWhile isDigit u) = [].
Proof.
  intros Hu. apply (dropWhile_Forall _ isDigit) in Hu.
  destruct Hu as [| c t Hc _]; [reflexivity |]. simpl. now rewrite Hc.
Qed.

Lemma takeWhile_digits_before_comma u :
  Forall keep u -> Forall (fun x => (x =? char_dot)%N = false) u ->
  takeWhile isDigit u = takeWhile (fun c => negb (c =? char_comma)%N) u.
Proof.
  induction 1 as [| x t Hx Ht IH]; intros Hnd; [reflexivity |].
  apply Forall_cons_1 in Hnd as [Hxd Htd]. simpl.
  rewrite (keep_digit_or_sep x Hx). unfold isSep. rewrite Hxd. simpl.
  destruct (x =? char_comma)%N; simpl; [reflexivity | now rewrite IH].
Qed.

Lemma num_of_Z_pos_not_nan p : isNaN (num_of_Z (Zpos p)) = false.
Proof.
  unfold num_of_Z. simpl binary_normalize.
  pose proof (binary_round_pos false p 0) as H.
  rewrite emin_val in H. specialize (H ltac:(lia)).
  destruct (binary_round prec emax false p 0); simpl in *; tauto.
Qed.

Lemma num_of_decimal_int n :
  num_of_decimal false n 0 = num_of_Z (Z.of_N n).
Proof.
  destruct n as [| p]; [reflexivity |].
  unfold num_of_decimal, num_of_Z. simpl (0 <=? 0).
  change (10 ^ 0) with 1. rewrite Z.mul_1_r. reflexivity.
Qed.

(** ** Texts of at most 307 digits stay in range *)

Lemma digitsValue_bound ds :
  Forall (fun c => isDigit c = true) ds ->
  Z.of_N (digitsValue ds) < 10 ^ Z.of_nat (length ds).
Proof.
  intros Hd. unfold digitsValue.
  assert (G : forall acc,
             Z.of_N (fold_left (fun acc d => (10 * acc + (d - 48))%N) ds acc)
             < (Z.of_N acc + 1) * 10 ^ Z.of_nat (length ds)).
  { induction Hd as [| d t Hd Ht IH]; intros acc; simpl fold_left.
    - simpl. lia.
    - specialize (IH (10 * acc + (d - 48))%N).
      unfold isDigit in Hd. apply andb_true_iff in Hd as [H1 H2].
      apply N.leb_le in H1, H2.
      simpl length. rewrite Nat2Z.inj_succ, Z.pow_succ_r by lia.
      assert (0 < 10 ^ Z.of_nat (length t)) by (apply Z.pow_pos_nonneg; lia).
      nia. }
  specialize (G 0%N). simpl in G. lia.
Qed.

Lemma takeWhile_all (p : N -> bool) s :
  Forall (fun c => p c = true) (takeWhile p s).
Proof.
  induction s as [| c t IH]; simpl; [constructor |].
  destruct (p c) eqn:Hc; now constructor.
Qed.

Lemma length_filter_filter (p q : N -> bool) s :
  (length (List.filter p (List.filter q s)) <= length (List.filter p s))%nat.
Proof.
  induction s as [| c t IH]; simpl; [lia |].
  destruct (q c); simpl; destruct (p c); simpl; lia.
Qed.

Lemma length_takeWhile_filter (p : N -> bool) s :
  (length (takeWhile p s) + length (List.filter p (dropWhile p s))
   = length (List.filter p s))%nat.
Proof.
  induction s as [| c t IH]; simpl; [reflexivity |].
  destruct (p c) eqn:Hc; simpl; [lia |]. rewrite Hc. reflexivity.
Qed.

Lemma length_fracDigits r :
  (length (fracDigits r) <= length (List.filter isDigit r))%nat.
Proof.
  destruct r as [| c t]; simpl; [lia |].
  pose proof (length_takeWhile_filter isDigit t).
  destruct (c =? char_dot)%N, (isDigit c); simpl; lia.
Qed.

Lemma filter_digits_replaceFirst w :
  List.filter isDigit (replaceFirst char_comma char_dot w)
  = List.filter isDigit w.
Proof.
  induction w as [| x t IH]; simpl; [reflexivity |].
  destruct (N.eqb_spec x char_comma) as [-> | Hne]; [reflexivity |].
  simpl. now rewrite IH.
Qed.

Lemma length_digits_normalized t :
  (length (List.filter isDigit (separatorsNormalized t))
   <= length (List.filter isDigit t))%nat.
Proof.
  unfold separatorsNormalized, removeAll.
  repeat match goal with |- context [if ?b then _ else _] => destruct b end;
    rewrite ?filter_digits_replaceFirst;
    auto using length_filter_filter.
Qed.

Lemma cleanAndParseValue_finite s :
  (length (List.filter isDigit s) <= 307)%nat ->
  isFinite (Carros.cleanAndParseValue (Some s)) = true.
Proof.
  intros Hlen. destruct s as [| c s]; [reflexivity |].
  rewrite cleanAndParseValue_unfold. cbv zeta.
  set (u := separatorsNormalized (cleanedValue (c :: s))).
  assert (Hu : Forall keep u)
    by (apply separatorsNormalized_Forall; [reflexivity | apply cleanedValue_keep]).
  assert (Hlu : (length (List.filter isDigit u) <= 307)%nat).
  { unfold u. etransitivity; [apply length_digits_normalized |].
    rewrite cleanedValue_filter.
    etransitivity; [apply length_filter_filter | exact Hlen]. }
  rewrite parseFloat_keep by exact Hu.
  set (ip := takeWhile isDigit u). set (fp := fracDigits (dropWhile isDigit u)).
  assert (Hds : Forall (fun c => isDigit c = true) (ip ++ fp)).
  { apply Forall_app. split; [apply takeWhile_all |].
    unfold fp, fracDigits. destruct (dropWhile isDigit u) as [| d r]; [constructor |].
    destruct (d =? char_dot)%N; [apply takeWhile_all | constructor]. }
  assert (Hl : (length (ip ++ fp) <= 307)%nat).
  { rewrite length_app.
    pose proof (length_takeWhile_filter isDigit u).
    pose proof (length_fracDigits (dropWhile isDigit u)).
    unfold ip, fp. lia. }
  pose proof (digitsValue_bound _ Hds) as Hb.
  assert (Hfin : isFinite (num_of_decimal false (digitsValue (ip ++ fp))
                             (- Z.of_nat (length fp))) = true).
  { apply num_of_decimal_finite; [| lia].
    eapply Z.lt_le_trans; [exact Hb |]. apply Z.pow_le_mono_r; lia. }
  destruct (ip ++ fp) as [| d ds] eqn:E; [reflexivity |].
  destruct (num_of_decimal false (digitsValue (d :: ds)) (- Z.of_nat (length fp)));
    simpl in *; congruence.
Qed.

End KeepStrings.

(* ===================================================================== *)
(** * The currency parser *)
(* ===================================================================== *)

(** C1 (as stated, refuted).  The parser is not finite-valued on every
    string: in the carros variant a digit string beyond the binary64
    range parses to [Infinity]; the imoveis variant returns NaN on the
    empty string and throws on a missing value. *)
Lemma C1_counterexample :
  Carros.cleanAndParseValue (Some overlong) = Infinity
  /\ isFinite Infinity = false
  /\ Imoveis.cleanAndParseValue (Some []) = Ok NaN
  /\ Imoveis.cleanAndParseValue None = Throw TypeError.
Proof. vm_compute. repeat split; reflexivity. Qed.

(** C1 (amended).  In the carros variant [cleanAndParseValue] is total
    and never returns NaN: for a missing value and for every string the
    result is [+0], a positive finite Number or [+Infinity]; it is
    finite for every string of at most 307 digits; it is 0 for a missing
    value, for the empty string and for every string without a digit
    (white space only, symbols only). *)
Theorem C1_cleanAndParseValue_total (valorString : option jsstring) (s : jsstring) :
  isNaN (Carros.cleanAndParseValue valorString) = false
  /\ nonNegative (Carros.cleanAndParseValue valorString)
  /\ ((length (List.filter isDigit s) <= 307)%nat ->
      isFinite (Carros.cleanAndParseValue (Some s)) = true)
  /\ Carros.cleanAndParseValue None = zero
  /\ Carros.cleanAndParseValue (Some []) = zero
  /\ Carros.cleanAndParseValue
       (Some (List.filter (fun c => negb (isDigit c)) s)) = zero.
Proof.
  split; [apply cleanAndParseValue_not_nan |].
  split; [apply cleanAndParseValue_nonNegative |].
  split; [apply cleanAndParseValue_finite |].
  split; [reflexivity |]. split; [reflexivity |].
  destruct (List.filter (fun c => negb (isDigit c)) s) as [| c t] eqn:Hf;
    [reflexivity |].
  rewrite cleanAndParseValue_unfold. cbv zeta.
  rewrite parseFloat_sep_only; [reflexivity |].
  apply separatorsNormalized_Forall; [reflexivity |].
  rewrite cleanedValue_filter, <- Hf.
  clear. induction s as [| x u IH]; simpl; [constructor |].
  destruct (isDigit x) eqn:Hd; simpl; [exact IH |].
  destruct (Carros.keepChar x) eqn:Hk; [| exact IH].
  constructor; [| exact IH].
  rewrite (keep_digit_or_sep x Hk) in Hd. now apply negb_false_iff in Hd.
Qed.

Lemma C1_witness :
  (length (List.filter isDigit (str "R$ 74.350,00")) <= 307)%nat
  /\ isFinite (Carros.cleanAndParseValue (Some (str "R$ 74.350,00"))) = true.
Proof.
  assert (H : (length (List.filter isDigit (str "R$ 74.350,00")) <= 307)%nat)
    by (vm_compute; lia).
  split; [exact H |].
  exact (proj1 (proj2 (proj2
           (C1_cleanAndParseValue_total None (str "R$ 74.350,00")))) H).
Defined.

(** C4 (as stated, refuted).  The imoveis variant always takes periods
    for thousands separators and the first comma for the decimal
    separator: it reads "1,234.56" as 1.23456. *)
Lemma C4_counterexample :
  Imoveis.cleanAndParseValue (Some (str "1,234.56"))
    = Ok (num_of_decimal false 123456 (-5))
  /\ num_of_decimal false 123456 (-5) <> num_of_decimal false 123456 (-2).
Proof. vm_compute. split; [reflexivity | discriminate]. Qed.

(** C4 (amended).  In the carros variant the parser computes what the
    specification describes: when the stripped text has both commas and
    periods, the separator kind occurring last is the decimal separator
    and the other kind is removed wholesale; so "R$ 74.350,00" parses to
    74350 and "1,234.56" to 1234.56.  The imoveis variant reads the
    Brazilian form "R$ 74.350,00" as 74350 as well. *)
Theorem C4_last_separator_is_decimal (raw : option jsstring) :
  Carros.cleanAndParseValue raw = parseCurrency_spec raw
  /\ Carros.cleanAndParseValue (Some (str "R$ 74.350,00")) = num_of_Z 74350
  /\ Carros.cleanAndParseValue (Some (str "1,234.56"))
     = num_of_decimal false 123456 (-2)
  /\ Imoveis.cleanAndParseValue (Some (str "R$ 74.350,00"))
     = Ok (num_of_Z 74350).
Proof.
  split; [| vm_compute; repeat split; reflexivity].
  destruct raw as [[| c s] |]; try reflexivity.
  rewrite cleanAndParseValue_unfold. unfold parseCurrency_spec.
  rewrite cleanedValue_filter. cbv zeta.
  pose proof (filter_keep (c :: s)) as Hk.
  set (t := List.filter Carros.keepChar (c :: s)) in *.
  unfold separatorsNormalized.
  destruct ((0 <? countChar char_comma t)%nat && (0 <? countChar char_dot t)%nat).
  - destruct (lastIndexOf char_dot t <? lastIndexOf char_comma t); [| reflexivity].
    rewrite parseFloat_replaceFirst_All; [reflexivity | | apply removeAll_none].
    unfold removeAll. apply filter_Forall, Hk.
  - destruct (countChar char_comma t =? 1)%nat; simpl; [| reflexivity].
    destruct (countChar char_dot t =? 0)%nat eqn:Hd; [| reflexivity].
    apply Nat.eqb_eq in Hd.
    rewrite parseFloat_replaceFirst_All; [reflexivity | exact Hk |].
    apply countChar_0, Hd.
Qed.

(** C10.  In the carros variant, when the stripped text has two or more
    commas and no period, no separator is normalized and the result is
    the number denoted by the digits before the first comma (0 when
    there are none); "1,234,567" parses to 1. *)
Theorem C10_many_commas_no_periods (s : jsstring) :
  (2 <= countChar char_comma (cleanedValue s))%nat ->
  countChar char_dot (cleanedValue s) = 0%nat ->
  separatorsNormalized (cleanedValue s) = cleanedValue s
  /\ Carros.cleanAndParseValue (Some s)
     = num_of_Z (Z.of_N (digitsValue
         (takeWhile (fun c => negb (c =? char_comma)%N) (cleanedValue s)))).
Proof.
  intros Hc Hd.
  assert (Hn : separatorsNormalized (cleanedValue s) = cleanedValue s).
  { unfold separatorsNormalized. rewrite Hd. rewrite andb_false_r.
    destruct (countChar char_comma (cleanedValue s)) as [| [| n]];
      [lia | lia | reflexivity]. }
  split; [exact Hn |].
  destruct s as [| c s]; [vm_compute in Hc; lia |].
  rewrite cleanAndParseValue_unfold, Hn. cbv zeta.
  pose proof (cleanedValue_keep (c :: s)) as Hk.
  pose proof (countChar_0 _ _ Hd) as Hnd.
  rewrite <- takeWhile_digits_before_comma by assumption.
  rewrite parseFloat_keep by assumption.
  rewrite fracDigits_no_dot by assumption.
  rewrite app_nil_r. simpl length. simpl Z.opp.
  destruct (takeWhile isDigit (cleanedValue (c :: s))) as [| d ds] eqn:Ht;
    [reflexivity |].
  rewrite num_of_decimal_int.
  destruct (digitsValue (d :: ds)) as [| p]; [reflexivity |].
  simpl Z.of_N. rewrite num_of_Z_pos_not_nan. reflexivity.
Qed.

Lemma C10_witness :
  (2 <= countChar char_comma (cleanedValue (str "1,234,567")))%nat
  /\ countChar char_dot (cleanedValue (str "1,234,567")) = 0%nat
  /\ Carros.cleanAndParseValue (Some (str "1,234,567")) = num_of_Z 1
  /\ num_of_Z 1 <> num_of_Z 1234567.
Proof.
  assert (H1 : (2 <= countChar char_comma (cleanedValue (str "1,234,567")))%nat)
    by (vm_compute; lia).
  assert (H2 : countChar char_dot (cleanedValue (str "1,234,567")) = 0%nat)
    by reflexivity.
  split; [exact H1 |]. split; [exact H2 |].
  split; [| vm_compute; discriminate].
  exact (proj2 (C10_many_commas_no_periods (str "1,234,567") H1 H2)).
Defined.

(* ===================================================================== *)
(** * Discounts *)
(* ===================================================================== *)

Lemma nonNegative_le0 x :
  wf x -> nonNegative x -> num_leb x zero = true -> x = zero.
Proof.
  destruct x as [[] | [] | | [] m e]; simpl; try tauto; try discriminate.
  intros He _ H. apply Z.leb_le in H.
  pose proof (ulps_finite_pos m e He). lia.
Qed.

Lemma num_eqb_zero_sub y :
  wf y -> nonNegative y -> num_eqb (num_sub zero y) zero = num_eqb y zero.
Proof.
  unfold zero.
  destruct y as [[] | [] | | [] m e]; simpl; try tauto; try reflexivity.
  intros He _. pose proof (ulps_finite_pos m e He) as Hp.
  unfold num_eqb, num_leb, ulps, cond_Zopp.
  assert (E1 : (Zpos m * 2 ^ (e - emin) <=? 0) = false) by (apply Z.leb_gt; lia).
  assert (E2 : (0 <=? - (Zpos m * 2 ^ (e - emin))) = false) by (apply Z.leb_gt; lia).
  rewrite E1, E2. simpl. apply andb_false_r.
Qed.

(** C2 (the code departs from its own documentation).  For the record
    with public price "R$ 100,00" and PCD price "R$ 75,00" the discount
    is the Number 25, but [calculateDescontoPercentage] returns the
    string "25.00" produced by [toFixed], not the Number 25. *)
Theorem C2_percentage_is_string (numberToString : number -> jsstring) :
  Carros.calculateDesconto carro_100_75 = num_of_Z 25
  /\ Carros.calculateDescontoPercentage numberToString carro_100_75
     = VString (str "25.00").
Proof. split; vm_compute; reflexivity. Qed.

(** Whenever the public price is positive the percentage is a string. *)
Lemma calculateDescontoPercentage_string
    (numberToString : number -> jsstring) (c : Carros.carro) :
  gt0 (Carros.cleanAndParseValue (Carros.preco_publico c)) = true ->
  exists s, Carros.calculateDescontoPercentage numberToString c = VString s.
Proof.
  intros H. unfold Carros.calculateDescontoPercentage.
  rewrite orDefault_parse, H. eauto.
Qed.

(** C3 (as stated, refuted).  With no public price and a PCD price of
    75 the discount amount is -75, not 0. *)
Lemma C3_counterexample :
  Carros.preco_publico carro_sem_publico = None
  /\ Carros.calculateDesconto carro_sem_publico = num_of_Z (-75)
  /\ num_eqb (Carros.calculateDesconto carro_sem_publico) zero = false.
Proof. vm_compute. repeat split; reflexivity. Qed.

(** C3 (amended).  For every record whose public price is missing or
    parses to a value <= 0, [calculateDescontoPercentage] returns the
    Number 0 whatever the PCD price, and [calculateDesconto] returns 0
    minus the parsed PCD price: it is 0 exactly when the PCD price parses
    to 0 as well. *)
Theorem C3_no_public_price (numberToString : number -> jsstring) (c : Carros.carro) :
  Carros.preco_publico c = None
  \/ num_leb (Carros.cleanAndParseValue (Carros.preco_publico c)) zero = true ->
  Carros.calculateDescontoPercentage numberToString c = VNumber zero
  /\ Carros.calculateDesconto c
     = num_sub zero (Carros.cleanAndParseValue (Carros.preco_pcd c))
  /\ num_eqb (Carros.calculateDesconto c) zero
     = num_eqb (Carros.cleanAndParseValue (Carros.preco_pcd c)) zero.
Proof.
  intros H.
  assert (Hz : Carros.cleanAndParseValue (Carros.orDefault (Carros.preco_publico c)) = zero).
  { rewrite orDefault_parse. destruct H as [-> | H]; [reflexivity |].
    apply nonNegative_le0;
      auto using cleanAndParseValue_wf, cleanAndParseValue_nonNegative. }
  unfold Carros.calculateDescontoPercentage, Carros.calculateDesconto.
  rewrite Hz, orDefault_parse. cbv zeta.
  split; [reflexivity |]. split; [reflexivity |].
  apply num_eqb_zero_sub;
    auto using cleanAndParseValue_wf, cleanAndParseValue_nonNegative.
Qed.

Lemma C3_witness :
  (Carros.preco_publico carro_sem_publico = None
   \/ num_leb (Carros.cleanAndParseValue (Carros.preco_publico carro_sem_publico))
        zero = true)
  /\ Carros.calculateDescontoPercentage (fun _ => []) carro_sem_publico
     = VNumber zero.
Proof.
  assert (H : Carros.preco_publico carro_sem_publico = None
              \/ num_leb (Carros.cleanAndParseValue
                            (Carros.preco_publico carro_sem_publico)) zero = true)
    by (left; reflexivity).
  split; [exact H |].
  exact (proj1 (C3_no_public_price (fun _ => []) carro_sem_publico H)).
Defined.

(* ===================================================================== *)
(** * The store *)
(* ===================================================================== *)

Section StoreFacts.
Context {A : Type}.
Implicit Types (h : store A) (items : list A).

Lemma spread_spec h data items :
  h !! data = Some items ->
  spread data h = (Ok (fresh (dom h)), <[fresh (dom h) := items]> h).
Proof. intros H. unfold spread. rewrite H. reflexivity. Qed.

Lemma fresh_not_allocated h l :
  is_Some (h !! l) -> l <> fresh (dom h).
Proof.
  intros Hl ->. apply (is_fresh (dom h)). apply elem_of_dom. exact Hl.
Qed.

Lemma unchanged_alloc h v : unchanged h (<[fresh (dom h) := v]> h).
Proof.
  intros l Hl. apply lookup_insert_ne. intros E.
  symmetry in E. revert E. apply fresh_not_allocated, Hl.
Qed.

(** The sorted branches of [sortImoveis]: the copy is sorted in place
    and returned. *)
Lemma sort_copy_ok comparefn h items sorted :
  array_sort comparefn items = Ok sorted ->
  match sortInPlace comparefn (fresh (dom h)) (<[fresh (dom h) := items]> h) with
  | (Throw e, h') => (Throw e, h')
  | (Ok _, h') => (Ok (fresh (dom h)), h')
  end = (Ok (fresh (dom h)), <[fresh (dom h) := sorted]> h).
Proof.
  intros Hs. unfold sortInPlace.
  rewrite lookup_insert_eq, Hs, insert_insert_eq. reflexivity.
Qed.

Lemma sort_copy_frame comparefn h items :
  unchanged h
    (match sortInPlace comparefn (fresh (dom h)) (<[fresh (dom h) := items]> h) with
     | (Throw e, h') => (Throw e, h')
     | (Ok _, h') => (Ok (fresh (dom h)), h')
     end).2.
Proof.
  unfold sortInPlace. rewrite lookup_insert_eq.
  destruct (array_sort comparefn items) as [sorted | e]; simpl.
  - rewrite insert_insert_eq. apply unchanged_alloc.
  - apply unchanged_alloc.
Qed.
End StoreFacts.

(* ===================================================================== *)
(** * Sorting by a numeric key *)
(* ===================================================================== *)

Section KeySort.
Context {A : Type}.
Variable key : A -> number.

(** Keys the subtraction comparator orders: Numbers other than NaN. *)
Let P (a : A) : Prop := wf (key a) /\ isNaN (key a) = false.
Let ascending (a b : A) : bool := gt0 (num_sub (key a) (key b)).
Let descending (a b : A) : bool := gt0 (num_sub (key b) (key a)).

Lemma ascending_leb a b : P a -> P b -> ascending a b = negb (num_leb (key a) (key b)).
Proof. intros [] []. apply num_sub_gt0; assumption. Qed.

Lemma descending_leb a b : P a -> P b -> descending a b = negb (num_leb (key b) (key a)).
Proof. intros [] []. apply num_sub_gt0; assumption. Qed.

Lemma ascending_asym a b : P a -> P b -> ascending a b = true -> ascending b a = false.
Proof.
  intros Pa Pb. rewrite !ascending_leb by assumption.
  intros H%negb_true_iff. apply negb_false_iff.
  destruct Pa, Pb. now apply num_leb_total.
Qed.

Lemma ascending_trans a b c :
  P a -> P b -> P c ->
  ascending a b = false -> ascending b c = false -> ascending a c = false.
Proof.
  intros Pa Pb Pc. rewrite !ascending_leb by assumption.
  intros H1%negb_false_iff H2%negb_false_iff. apply negb_false_iff.
  now apply num_leb_trans with (key b).
Qed.

Lemma descending_asym a b : P a -> P b -> descending a b = true -> descending b a = false.
Proof.
  intros Pa Pb. rewrite !descending_leb by assumption.
  intros H%negb_true_iff. apply negb_false_iff.
  destruct Pa, Pb. now apply num_leb_total.
Qed.

Lemma descending_trans a b c :
  P a -> P b -> P c ->
  descending a b = false -> descending b c = false -> descending a c = false.
Proof.
  intros Pa Pb Pc. rewrite !descending_leb by assumption.
  intros H1%negb_false_iff H2%negb_false_iff. apply negb_false_iff.
  now apply num_leb_trans with (key b).
Qed.

Lemma sort_ascending l :
  Forall P l ->
  Permutation (sort_by ascending l) l
  /\ nonDecreasing key (sort_by ascending l)
  /\ keepsOrderOf (samePrice key) l (sort_by ascending l).
Proof.
  intros HP. split; [apply sort_by_perm |]. split.
  - apply StronglySorted_weaken
      with (R := fun a b => ascending a b = false) (P := P).
    + intros a b Pa Pb. rewrite ascending_leb by assumption.
      apply negb_false_iff.
    + apply sort_by_Forall, HP.
    + apply sort_by_sorted with (P := P);
        [exact ascending_asym | exact ascending_trans | exact HP].
  - intros z Hz.
    assert (Pz : P z) by (eapply List.Forall_forall; eauto).
    assert (E : forall l', Forall P l' ->
              List.filter (samePrice key z) l' = List.filter (tied ascending z) l').
    { intros l' Hl'. apply List.filter_ext_in. intros y Hy.
      assert (Py : P y) by (eapply List.Forall_forall; eauto).
      unfold tied, samePrice, num_eqb.
      rewrite !ascending_leb, !negb_involutive by assumption. reflexivity. }
    rewrite !E by auto using sort_by_Forall.
    apply sort_by_stable with (P := P);
      [exact ascending_trans | exact Pz | exact HP].
Qed.

Lemma sort_descending l :
  Forall P l ->
  Permutation (sort_by descending l) l
  /\ nonIncreasing key (sort_by descending l)
  /\ keepsOrderOf (samePrice key) l (sort_by descending l).
Proof.
  intros HP. split; [apply sort_by_perm |]. split.
  - apply StronglySorted_weaken
      with (R := fun a b => descending a b = false) (P := P).
    + intros a b Pa Pb. rewrite descending_leb by assumption.
      apply negb_false_iff.
    + apply sort_by_Forall, HP.
    + apply sort_by_sorted with (P := P);
        [exact descending_asym | exact descending_trans | exact HP].
  - intros z Hz.
    assert (Pz : P z) by (eapply List.Forall_forall; eauto).
    assert (E : forall l', Forall P l' ->
              List.filter (samePrice key z) l' = List.filter (tied descending z) l').
    { intros l' Hl'. apply List.filter_ext_in. intros y Hy.
      assert (Py : P y) by (eapply List.Forall_forall; eauto).
      unfold tied, samePrice, num_eqb.
      rewrite !descending_leb, !negb_involutive by assumption.
      apply andb_comm. }
    rewrite !E by auto using sort_by_Forall.
    apply sort_by_stable with (P := P);
      [exact descending_trans | exact Pz | exact HP].
Qed.
End KeySort.

(* ===================================================================== *)
(** * The base-letter collation is a consistent comparator *)
(* ===================================================================== *)

Lemma lexCompare_antisym a : forall b,
  lexCompare b a = CompOpp (lexCompare a b).
Proof.
  induction a as [| x a IH]; intros [| y b]; simpl; try reflexivity.
  rewrite (N.compare_antisym x y).
  destruct (x ?= y)%N; simpl; auto.
Qed.

Lemma lexCompare_trans a : forall b c,
  lexCompare a b <> Gt -> lexCompare b c <> Gt -> lexCompare a c <> Gt.
Proof.
  induction a as [| x a IH]; intros [| y b] [| z c]; simpl;
    try congruence.
  destruct (N.compare_spec x y) as [-> | Hxy | Hxy]; [| | congruence].
  - destruct (N.compare_spec y z) as [-> | Hyz | Hyz]; [| | congruence].
    + apply IH.
    + congruence.
  - destruct (N.compare_spec y z) as [-> | Hyz | Hyz]; [| | congruence].
    + intros _ _. rewrite (proj2 (N.compare_lt_iff x z) Hxy). congruence.
    + intros _ _. rewrite (proj2 (N.compare_lt_iff x z)) by lia. congruence.
Qed.

Lemma gt0_collateBase a b locales :
  gt0 (collateBase a b locales) = true
  <-> lexCompare (List.map foldLetter a) (List.map foldLetter b) = Gt.
Proof.
  unfold collateBase.
  destruct (lexCompare _ _); vm_compute; split; congruence.
Qed.

Lemma collateBase_consistent : consistent (ptBR collateBase).
Proof.
  unfold ptBR. split.
  - intros a b H. apply gt0_collateBase in H.
    apply not_true_is_false. rewrite gt0_collateBase.
    rewrite lexCompare_antisym, H. discriminate.
  - intros a b c H1 H2. apply not_true_is_false.
    rewrite gt0_collateBase.
    apply lexCompare_trans with (List.map foldLetter b).
    + rewrite <- (gt0_collateBase a b (str "pt-BR")). congruence.
    + rewrite <- (gt0_collateBase b c (str "pt-BR")). congruence.
Qed.


(* ===================================================================== *)
(** * sortImoveis *)
(* ===================================================================== *)

Section SortImoveisFacts.
Variable localeCompare : jsstring -> jsstring -> jsstring -> number.

Lemma carros_valor_asc (h : store Carros.carro) data items :
  h !! data = Some items ->
  Carros.sortImoveis localeCompare data (str "valor_asc") h
  = (Ok (fresh (dom h)),
     <[fresh (dom h) :=
         sort_by (fun a b => gt0 (num_sub (precoPcdNumber a) (precoPcdNumber b)))
                 items]> h).
Proof.
  intros H. unfold Carros.sortImoveis. rewrite (spread_spec _ _ _ H).
  rewrite bool_decide_eq_true_2 by reflexivity.
  apply sort_copy_ok.
  apply (array_sort_pure _
           (fun a b => num_sub (precoPcdNumber a) (precoPcdNumber b))
           (fun _ => True)); [reflexivity |].
  apply Forall_true. exact (fun _ => I).
Qed.

Lemma carros_byMarca_ok a b :
  Carros.marca a <> None -> Carros.marca b <> None ->
  Carros.byMarca localeCompare a b
  = Ok (ptBR localeCompare (marcaCarro a) (marcaCarro b)).
Proof.
  unfold Carros.byMarca, marcaCarro, ptBR.
  destruct (Carros.marca a), (Carros.marca b); simpl; congruence.
Qed.

Lemma carros_marca_asc (h : store Carros.carro) data items :
  h !! data = Some items ->
  Forall (fun c => Carros.marca c <> None) items ->
  Carros.sortImoveis localeCompare data (str "marca_asc") h
  = (Ok (fresh (dom h)),
     <[fresh (dom h) :=
         sort_by (fun a b => gt0 (ptBR localeCompare (marcaCarro a) (marcaCarro b)))
                 items]> h).
Proof.
  intros H Hm. unfold Carros.sortImoveis. rewrite (spread_spec _ _ _ H).
  rewrite bool_decide_eq_false_2 by discriminate.
  rewrite bool_decide_eq_true_2 by reflexivity.
  apply sort_copy_ok.
  apply (array_sort_pure _
           (fun a b => ptBR localeCompare (marcaCarro a) (marcaCarro b))
           (fun c => Carros.marca c <> None)); [| exact Hm].
  exact carros_byMarca_ok.
Qed.

Lemma carros_desconto_desc (h : store Carros.carro) data items :
  h !! data = Some items ->
  Carros.sortImoveis localeCompare data (str "desconto_desc") h
  = (Ok (fresh (dom h)),
     <[fresh (dom h) :=
         sort_by (fun a b => gt0 (num_sub (Carros.calculateDesconto b)
                                          (Carros.calculateDesconto a)))
                 items]> h).
Proof.
  intros H. unfold Carros.sortImoveis. rewrite (spread_spec _ _ _ H).
  rewrite !bool_decide_eq_false_2 by discriminate.
  rewrite bool_decide_eq_true_2 by reflexivity.
  apply sort_copy_ok.
  apply (array_sort_pure _
           (fun a b => num_sub (Carros.calculateDesconto b) (Carros.calculateDesconto a))
           (fun _ => True)); [reflexivity |].
  apply Forall_true. exact (fun _ => I).
Qed.

Lemma imoveis_valor_asc (h : store Imoveis.imovel) data items :
  h !! data = Some items -> Forall priced items ->
  Imoveis.sortImoveis localeCompare data (str "valor_asc") h
  = (Ok (fresh (dom h)),
     <[fresh (dom h) :=
         sort_by (fun a b => gt0 (num_sub (valorNumber a) (valorNumber b)))
                 items]> h).
Proof.
  intros H Hp. unfold Imoveis.sortImoveis. rewrite (spread_spec _ _ _ H).
  rewrite bool_decide_eq_true_2 by reflexivity.
  apply sort_copy_ok.
  apply (array_sort_pure _
           (fun a b => num_sub (valorNumber a) (valorNumber b))
           priced); [| exact Hp].
  intros a b [Ha _] [Hb _]. unfold Imoveis.byValor, valorNumber.
  destruct (Imoveis.valor a); [| congruence].
  destruct (Imoveis.valor b); [| congruence]. reflexivity.
Qed.

Lemma imoveis_byMarca_ok a b :
  Imoveis.marca a <> None -> Imoveis.marca b <> None ->
  Imoveis.byMarca localeCompare a b
  = Ok (ptBR localeCompare (marcaImovel a) (marcaImovel b)).
Proof.
  unfold Imoveis.byMarca, marcaImovel, ptBR.
  destruct (Imoveis.marca a), (Imoveis.marca b); simpl; congruence.
Qed.

Lemma imoveis_marca_asc (h : store Imoveis.imovel) data items :
  h !! data = Some items ->
  Forall (fun a => Imoveis.marca a <> None) items ->
  Imoveis.sortImoveis localeCompare data (str "marca_asc") h
  = (Ok (fresh (dom h)),
     <[fresh (dom h) :=
         sort_by (fun a b => gt0 (ptBR localeCompare (marcaImovel a) (marcaImovel b)))
                 items]> h).
Proof.
  intros H Hm. unfold Imoveis.sortImoveis. rewrite (spread_spec _ _ _ H).
  rewrite bool_decide_eq_false_2 by discriminate.
  rewrite bool_decide_eq_true_2 by reflexivity.
  apply sort_copy_ok.
  apply (array_sort_pure _
           (fun a b => ptBR localeCompare (marcaImovel a) (marcaImovel b))
           (fun a => Imoveis.marca a <> None)); [| exact Hm].
  exact imoveis_byMarca_ok.
Qed.

Lemma carros_frame (h : store Carros.carro) data sortOption items :
  h !! data = Some items ->
  unchanged h (Carros.sortImoveis localeCompare data sortOption h).2.
Proof.
  intros H. unfold Carros.sortImoveis. rewrite (spread_spec _ _ _ H).
  repeat (destruct (bool_decide _); [apply sort_copy_frame |]).
  apply unchanged_alloc.
Qed.

Lemma imoveis_frame (h : store Imoveis.imovel) data sortOption items :
  h !! data = Some items ->
  unchanged h (Imoveis.sortImoveis localeCompare data sortOption h).2.
Proof.
  intros H. unfold Imoveis.sortImoveis. rewrite (spread_spec _ _ _ H).
  repeat (destruct (bool_decide _); [apply sort_copy_frame |]).
  apply unchanged_alloc.
Qed.

Lemma carros_fallback (h : store Carros.carro) data sortOption items :
  h !! data = Some items ->
  sortOption <> str "valor_asc" -> sortOption <> str "marca_asc" ->
  sortOption <> str "desconto_desc" ->
  Carros.sortImoveis localeCompare data sortOption h
  = (Ok data, <[fresh (dom h) := items]> h).
Proof.
  intros H H1 H2 H3. unfold Carros.sortImoveis. rewrite (spread_spec _ _ _ H).
  rewrite !bool_decide_eq_false_2 by assumption. reflexivity.
Qed.

Lemma imoveis_fallback (h : store Imoveis.imovel) data sortOption items :
  h !! data = Some items ->
  sortOption <> str "valor_asc" -> sortOption <> str "marca_asc" ->
  Imoveis.sortImoveis localeCompare data sortOption h
  = (Ok data, <[fresh (dom h) := items]> h).
Proof.
  intros H H1 H2. unfold Imoveis.sortImoveis. rewrite (spread_spec _ _ _ H).
  rewrite !bool_decide_eq_false_2 by assumption. reflexivity.
Qed.

Lemma returnsArray_fresh {A} (h : store A) sorted :
  returnsArray (Ok (fresh (dom h)), <[fresh (dom h) := sorted]> h) sorted.
Proof. exists (fresh (dom h)). split; [reflexivity | apply lookup_insert_eq]. Qed.

Lemma returnsArray_input {A} (h : store A) data items v :
  h !! data = Some items ->
  returnsArray (Ok data, <[fresh (dom h) := v]> h) items.
Proof.
  intros H. exists data. split; [reflexivity |]. simpl.
  rewrite <- H. apply unchanged_alloc. rewrite H. eauto.
Qed.
End SortImoveisFacts.

(* ===================================================================== *)
(** * The catalog sorter *)
(* ===================================================================== *)

Lemma precoPcdNumber_ordered (items : list Carros.carro) :
  Forall (fun a => wf (precoPcdNumber a) /\ isNaN (precoPcdNumber a) = false) items.
Proof.
  apply Forall_true. intros a. split;
    [apply cleanAndParseValue_wf | apply cleanAndParseValue_not_nan].
Qed.

Lemma valorNumber_wf a : wf (valorNumber a).
Proof.
  unfold valorNumber, Imoveis.cleanAndParseValue.
  destruct (Imoveis.valor a); [apply parseFloat_wf | exact I].
Qed.

Lemma calculateDesconto_wf c : wf (Carros.calculateDesconto c).
Proof. apply num_sub_wf; apply cleanAndParseValue_wf. Qed.

Lemma num_sub_not_nan x y :
  wf x -> wf y -> isNaN x = false -> isNaN y = false ->
  isFinite x = true \/ isFinite y = true ->
  isNaN (num_sub x y) = false.
Proof.
  destruct x as [sx | sx | | sx mx ex], y as [sy | sy | | sy my ey];
    simpl; intros Hx Hy Nx Ny Hf; try discriminate; try reflexivity;
    try (destruct sx, sy; reflexivity);
    try (destruct Hf; discriminate).
  set (d := _ - _). destruct d as [| q | q]; simpl; [reflexivity | |].
  - pose proof (binary_round_pos false q (Z.min ex ey) ltac:(lia)) as H.
    destruct (binary_round prec emax false q (Z.min ex ey)); simpl in *; tauto.
  - pose proof (binary_round_pos true q (Z.min ex ey) ltac:(lia)) as H.
    destruct (binary_round prec emax true q (Z.min ex ey)); simpl in *; tauto.
Qed.

(** The discount is a number as soon as one of the two prices has at
    most 307 digits. *)
Lemma calculateDesconto_number (c : Carros.carro) :
  (forall s, Carros.preco_publico c = Some s ->
             (length (List.filter isDigit s) <= 307)%nat)
  \/ (forall s, Carros.preco_pcd c = Some s ->
                (length (List.filter isDigit s) <= 307)%nat) ->
  isNaN (Carros.calculateDesconto c) = false.
Proof.
  intros H. unfold Carros.calculateDesconto. rewrite !orDefault_parse.
  apply num_sub_not_nan;
    auto using cleanAndParseValue_wf, cleanAndParseValue_not_nan.
  destruct H as [H | H]; [left | right].
  - destruct (Carros.preco_publico c) as [s |]; [| reflexivity].
    apply cleanAndParseValue_finite. auto.
  - destruct (Carros.preco_pcd c) as [s |]; [| reflexivity].
    apply cleanAndParseValue_finite. auto.
Qed.

(** C5.  Whatever the sort mode, [sortImoveis] leaves the array it is
    given as it was (and every other array of the store), also when the
    comparator throws; with mode "default" the call returns the input
    array itself, holding exactly the input sequence, the empty and the
    one-element sequence included.  Both variants. *)
Theorem C5_input_unchanged
    (compareC compareI : jsstring -> jsstring -> jsstring -> number)
    (hC : store Carros.carro) (hI : store Imoveis.imovel)
    (dataC dataI : loc) (itemsC : list Carros.carro)
    (itemsI : list Imoveis.imovel) (sortOption : jsstring) :
  hC !! dataC = Some itemsC ->
  hI !! dataI = Some itemsI ->
  ((Carros.sortImoveis compareC dataC sortOption hC).2 !! dataC = Some itemsC
   /\ unchanged hC (Carros.sortImoveis compareC dataC sortOption hC).2
   /\ (Carros.sortImoveis compareC dataC (str "default") hC).1 = Ok dataC
   /\ returnsArray (Carros.sortImoveis compareC dataC (str "default") hC) itemsC)
  /\
  ((Imoveis.sortImoveis compareI dataI sortOption hI).2 !! dataI = Some itemsI
   /\ unchanged hI (Imoveis.sortImoveis compareI dataI sortOption hI).2
   /\ (Imoveis.sortImoveis compareI dataI (str "default") hI).1 = Ok dataI
   /\ returnsArray (Imoveis.sortImoveis compareI dataI (str "default") hI) itemsI).
Proof.
  intros HC HI. split.
  - pose proof (carros_frame compareC hC dataC sortOption itemsC HC) as Hf.
    split; [rewrite <- HC; apply Hf; rewrite HC; eauto |].
    split; [exact Hf |].
    rewrite (carros_fallback compareC hC dataC (str "default") itemsC HC)
      by discriminate.
    split; [reflexivity |]. apply returnsArray_input, HC.
  - pose proof (imoveis_frame compareI hI dataI sortOption itemsI HI) as Hf.
    split; [rewrite <- HI; apply Hf; rewrite HI; eauto |].
    split; [exact Hf |].
    rewrite (imoveis_fallback compareI hI dataI (str "default") itemsI HI)
      by discriminate.
    split; [reflexivity |]. apply returnsArray_input, HI.
Qed.

Lemma C5_witness :
  store_carros !! 1%positive = Some catalogo_marcas
  /\ store_imoveis !! 1%positive = Some lista_imoveis
  /\ (Carros.sortImoveis collateBase 1%positive (str "marca_asc") store_carros).2
       !! 1%positive = Some catalogo_marcas
  /\ (Imoveis.sortImoveis collateBase 1%positive (str "marca_asc") store_imoveis).2
       !! 1%positive = Some lista_imoveis.
Proof.
  assert (H1 : store_carros !! 1%positive = Some catalogo_marcas) by reflexivity.
  assert (H2 : store_imoveis !! 1%positive = Some lista_imoveis) by reflexivity.
  pose proof (C5_input_unchanged collateBase collateBase store_carros store_imoveis
                1%positive 1%positive catalogo_marcas lista_imoveis
                (str "marca_asc") H1 H2) as [[Ha _] [Hb _]].
  split; [exact H1 |]. split; [exact H2 |]. split; [exact Ha | exact Hb].
Defined.

(** C6 (as stated, refuted).  In the imoveis variant a price that is
    not a number parses to NaN and compares as equal to every other
    price: the listing with prices 2, "Sob consulta", 1 comes back in
    that order, which is not non-decreasing; and no arrangement of that
    listing is non-decreasing in the parsed price, since NaN is below or
    equal to nothing. *)
Lemma C6_counterexample :
  returnsArray
    (Imoveis.sortImoveis collateBase 1%positive (str "valor_asc") store_sob_consulta)
    lista_sob_consulta
  /\ ~ nonDecreasing valorNumber lista_sob_consulta
  /\ ~ (exists out, Permutation out lista_sob_consulta
                    /\ nonDecreasing valorNumber out).
Proof.
  split; [| split].
  - exists 2%positive. split; vm_compute; reflexivity.
  - intros H. apply StronglySorted_inv in H as [_ H].
    apply Forall_inv in H. vm_compute in H. discriminate.
  - intros (out & Hperm & Hs).
    pose proof (StronglySorted_pairs _ _ Hs
                  (imovel_de "i2" "Sob consulta") (imovel_de "i3" "R$ 1,00")) as H.
    destruct H as [H | [H | H]].
    + eapply Permutation_in; [symmetry; exact Hperm |]. simpl. auto.
    + eapply Permutation_in; [symmetry; exact Hperm |]. simpl. auto.
    + discriminate H.
    + vm_compute in H. discriminate.
    + vm_compute in H. discriminate.
Qed.

(** In the imoveis variant a record without [valor] makes the
    comparator, and so the call, throw. *)
Example valor_asc_missing_valor_throws :
  (Imoveis.sortImoveis collateBase 1%positive (str "valor_asc")
     {[ 1%positive :=
          [ imovel_de "i1" "R$ 2,00";
            {| Imoveis.id := str "i2"; Imoveis.marca := Some (str "Casa");
               Imoveis.tipo := str "Venda"; Imoveis.valor := None |} ] ]}).1
  = Throw TypeError.
Proof. vm_compute. reflexivity. Qed.

(** C6 (amended).  With mode "valor_asc" the call returns a new array
    that is a rearrangement of the input, non-decreasing in the parsed
    price and stable (records with equal parsed price keep their input
    order): in the carros variant, by [preco_pcd], for every input; in
    the imoveis variant, by [valor], for every input whose records all
    carry a [valor] that parses to a number. *)
Theorem C6_valor_asc_sorted_stable
    (compareC compareI : jsstring -> jsstring -> jsstring -> number)
    (hC : store Carros.carro) (hI : store Imoveis.imovel)
    (dataC dataI : loc) (itemsC : list Carros.carro)
    (itemsI : list Imoveis.imovel) :
  hC !! dataC = Some itemsC ->
  hI !! dataI = Some itemsI ->
  Forall priced itemsI ->
  (exists sorted,
      returnsArray (Carros.sortImoveis compareC dataC (str "valor_asc") hC) sorted
      /\ Permutation sorted itemsC
      /\ nonDecreasing precoPcdNumber sorted
      /\ keepsOrderOf (samePrice precoPcdNumber) itemsC sorted)
  /\
  (exists sorted,
      returnsArray (Imoveis.sortImoveis compareI dataI (str "valor_asc") hI) sorted
      /\ Permutation sorted itemsI
      /\ nonDecreasing valorNumber sorted
      /\ keepsOrderOf (samePrice valorNumber) itemsI sorted).
Proof.
  intros HC HI Hp. split.
  - rewrite (carros_valor_asc compareC hC dataC itemsC HC).
    eexists. split; [apply returnsArray_fresh |].
    apply (sort_ascending precoPcdNumber), precoPcdNumber_ordered.
  - rewrite (imoveis_valor_asc compareI hI dataI itemsI HI Hp).
    eexists. split; [apply returnsArray_fresh |].
    apply (sort_ascending valorNumber).
    eapply Forall_impl; [exact Hp |].
    intros a [_ Hn]. split; [apply valorNumber_wf | exact Hn].
Qed.

Lemma lista_imoveis_priced : Forall priced lista_imoveis.
Proof. repeat constructor; try discriminate; reflexivity. Qed.

Lemma C6_witness :
  store_carros !! 1%positive = Some catalogo_marcas
  /\ store_imoveis !! 1%positive = Some lista_imoveis
  /\ Forall priced lista_imoveis
  /\ (exists sorted,
        returnsArray
          (Imoveis.sortImoveis collateBase 1%positive (str "valor_asc") store_imoveis)
          sorted
        /\ Permutation sorted lista_imoveis
        /\ nonDecreasing valorNumber sorted
        /\ keepsOrderOf (samePrice valorNumber) lista_imoveis sorted).
Proof.
  assert (H1 : store_carros !! 1%positive = Some catalogo_marcas) by reflexivity.
  assert (H2 : store_imoveis !! 1%positive = Some lista_imoveis) by reflexivity.
  split; [exact H1 |]. split; [exact H2 |]. split; [exact lista_imoveis_priced |].
  exact (proj2 (C6_valor_asc_sorted_stable collateBase collateBase
                  store_carros store_imoveis 1%positive 1%positive
                  catalogo_marcas lista_imoveis H1 H2 lista_imoveis_priced)).
Defined.

(** With mode "desconto_desc" the call returns a new array that is a
    rearrangement of the input, non-increasing in [calculateDesconto]
    and stable (records with equal discount keep their input order), for
    every input in which every record's discount is a number (not NaN). *)
Lemma desconto_desc_sorted_stable
    (compare : jsstring -> jsstring -> jsstring -> number)
    (h : store Carros.carro) (data : loc) (items : list Carros.carro) :
  h !! data = Some items ->
  Forall (fun c => isNaN (Carros.calculateDesconto c) = false) items ->
  exists sorted,
    returnsArray (Carros.sortImoveis compare data (str "desconto_desc") h) sorted
    /\ Permutation sorted items
    /\ nonIncreasing Carros.calculateDesconto sorted
    /\ keepsOrderOf (samePrice Carros.calculateDesconto) items sorted.
Proof.
  intros H Hn.
  rewrite (carros_desconto_desc compare h data items H).
  eexists. split; [apply returnsArray_fresh |].
  apply (sort_descending Carros.calculateDesconto).
  eapply Forall_impl; [exact Hn |].
  intros c Hc. split; [apply calculateDesconto_wf | exact Hc].
Qed.

Lemma catalogo_marcas_discounts :
  Forall (fun c => isNaN (Carros.calculateDesconto c) = false) catalogo_marcas.
Proof. repeat constructor. Qed.

Lemma desconto_desc_sorted_stable_example :
  store_carros !! 1%positive = Some catalogo_marcas
  /\ Forall (fun c => isNaN (Carros.calculateDesconto c) = false) catalogo_marcas
  /\ (exists sorted,
        returnsArray
          (Carros.sortImoveis collateBase 1%positive (str "desconto_desc") store_carros)
          sorted
        /\ Permutation sorted catalogo_marcas
        /\ nonIncreasing Carros.calculateDesconto sorted
        /\ keepsOrderOf (samePrice Carros.calculateDesconto) catalogo_marcas sorted).
Proof.
  assert (H1 : store_carros !! 1%positive = Some catalogo_marcas) by reflexivity.
  split; [exact H1 |]. split; [exact catalogo_marcas_discounts |].
  exact (desconto_desc_sorted_stable collateBase store_carros 1%positive
           catalogo_marcas H1 catalogo_marcas_discounts).
Defined.

(** C7 (the code departs from its own comments).  [calculateDesconto]
    is commented as returning 0 rather than NaN, and the comparator as
    ordering by decreasing discount; but when both prices of a record
    are beyond the binary64 range they parse to [Infinity] and the
    discount is [Infinity - Infinity], NaN, which compares as equal to
    every other discount.  The catalog with discounts 2, NaN, 4 comes
    back in that order, which is not non-increasing; and no arrangement
    of that catalog is non-increasing in the discount. *)
Theorem C7_nan_discount_unsorted :
  isNaN (Carros.calculateDesconto carro_overflow) = true
  /\ returnsArray
       (Carros.sortImoveis collateBase 1%positive (str "desconto_desc") store_overflow)
       catalogo_overflow
  /\ ~ nonIncreasing Carros.calculateDesconto catalogo_overflow
  /\ ~ (exists out, Permutation out catalogo_overflow
                    /\ nonIncreasing Carros.calculateDesconto out).
Proof.
  split; [vm_compute; reflexivity |]. split; [| split].
  - exists 2%positive. split; vm_compute; reflexivity.
  - intros H. apply StronglySorted_inv in H as [_ H].
    apply Forall_inv in H. vm_compute in H. discriminate.
  - intros (out & Hperm & Hs).
    pose proof (StronglySorted_pairs _ _ Hs carro_overflow
                  (carro_de (str "d2") (str "Fiat") (str "R$ 5,00") (str "R$ 1,00")))
      as H.
    destruct H as [H | [H | H]].
    + eapply Permutation_in; [symmetry; exact Hperm |]. simpl. auto.
    + eapply Permutation_in; [symmetry; exact Hperm |]. simpl. auto.
    + discriminate H.
    + vm_compute in H. discriminate.
    + vm_compute in H. discriminate.
Qed.

Lemma catalogo_marcas_marca :
  Forall (fun c => Carros.marca c <> None) catalogo_marcas.
Proof. repeat constructor; discriminate. Qed.





(** The locale the comparator passes decides the order.  On an engine
    that collates by base letter for "pt-BR" and by code unit for any
    other locale, "Álamo" sorts before "Alfa", both before "Zeta", and
    the two "Zeta" records keep their input order; the order of the code
    units, which that engine uses for another locale, puts "Álamo" after
    "Zeta". *)
Example marca_asc_accents :
  (Carros.sortImoveis collateByLocale 1%positive (str "marca_asc") store_carros).2
    !! 2%positive
  = Some [ carro_de (str "m2") alamo (str "R$ 7,00") (str "R$ 6,00");
           carro_de (str "m3") (str "Alfa") (str "R$ 5,00") (str "R$ 4,00");
           carro_de (str "m1") (str "Zeta") (str "R$ 9,00") (str "R$ 8,00");
           carro_de (str "m4") (str "Zeta") (str "R$ 3,00") (str "R$ 2,00") ]
  /\ sort_by (fun a b => gt0 (collateByLocale (marcaCarro a) (marcaCarro b)
                                (str "en-US")))
       catalogo_marcas
     = [ carro_de (str "m3") (str "Alfa") (str "R$ 5,00") (str "R$ 4,00");
         carro_de (str "m1") (str "Zeta") (str "R$ 9,00") (str "R$ 8,00");
         carro_de (str "m4") (str "Zeta") (str "R$ 3,00") (str "R$ 2,00");
         carro_de (str "m2") alamo (str "R$ 7,00") (str "R$ 6,00") ].
Proof. split; vm_compute; reflexivity. Qed.

(** C9.  A mode string other than "valor_asc", "marca_asc",
    "desconto_desc" and "default" is treated as "default": the call has
    the same outcome, returns the input array itself with its order
    unchanged, and never throws.  Both variants. *)
Theorem C9_unknown_mode_is_default
    (compareC compareI : jsstring -> jsstring -> jsstring -> number)
    (hC : store Carros.carro) (hI : store Imoveis.imovel)
    (dataC dataI : loc) (itemsC : list Carros.carro)
    (itemsI : list Imoveis.imovel) (sortOption : jsstring) :
  sortOption <> str "valor_asc" ->
  sortOption <> str "marca_asc" ->
  sortOption <> str "desconto_desc" ->
  sortOption <> str "default" ->
  hC !! dataC = Some itemsC ->
  hI !! dataI = Some itemsI ->
  (Carros.sortImoveis compareC dataC sortOption hC
   = Carros.sortImoveis compareC dataC (str "default") hC
   /\ (Carros.sortImoveis compareC dataC sortOption hC).1 = Ok dataC
   /\ returnsArray (Carros.sortImoveis compareC dataC sortOption hC) itemsC)
  /\
  (Imoveis.sortImoveis compareI dataI sortOption hI
   = Imoveis.sortImoveis compareI dataI (str "default") hI
   /\ (Imoveis.sortImoveis compareI dataI sortOption hI).1 = Ok dataI
   /\ returnsArray (Imoveis.sortImoveis compareI dataI sortOption hI) itemsI).
Proof.
  intros H1 H2 H3 _ HC HI. split.
  - rewrite (carros_fallback compareC hC dataC sortOption itemsC HC H1 H2 H3).
    rewrite (carros_fallback compareC hC dataC (str "default") itemsC HC)
      by discriminate.
    split; [reflexivity |]. split; [reflexivity |].
    apply returnsArray_input, HC.
  - rewrite (imoveis_fallback compareI hI dataI sortOption itemsI HI H1 H2).
    rewrite (imoveis_fallback compareI hI dataI (str "default") itemsI HI)
      by discriminate.
    split; [reflexivity |]. split; [reflexivity |].
    apply returnsArray_input, HI.
Qed.

Lemma C9_witness :
  str "preco_desc" <> str "valor_asc"
  /\ str "preco_desc" <> str "marca_asc"
  /\ str "preco_desc" <> str "desconto_desc"
  /\ str "preco_desc" <> str "default"
  /\ store_carros !! 1%positive = Some catalogo_marcas
  /\ store_imoveis !! 1%positive = Some lista_imoveis
  /\ Carros.sortImoveis collateBase 1%positive (str "preco_desc") store_carros
     = Carros.sortImoveis collateBase 1%positive (str "default") store_carros
  /\ Imoveis.sortImoveis collateBase 1%positive (str "preco_desc") store_imoveis
     = Imoveis.sortImoveis collateBase 1%positive (str "default") store_imoveis.
Proof.
  assert (N1 : str "preco_desc" <> str "valor_asc") by discriminate.
  assert (N2 : str "preco_desc" <> str "marca_asc") by discriminate.
  assert (N3 : str "preco_desc" <> str "desconto_desc") by discriminate.
  assert (N4 : str "preco_desc" <> str "default") by discriminate.
  assert (H1 : store_carros !! 1%positive = Some catalogo_marcas) by reflexivity.
  assert (H2 : store_imoveis !! 1%positive = Some lista_imoveis) by reflexivity.
  pose proof (C9_unknown_mode_is_default collateBase collateBase
                store_carros store_imoveis 1%positive 1%positive
                catalogo_marcas lista_imoveis (str "preco_desc")
                N1 N2 N3 N4 H1 H2) as [[Ha _] [Hb _]].
  repeat (split; [assumption |]). exact Hb.
Defined.

(* ===================================================================== *)
(** * Further properties of the currency parsers *)
(* ===================================================================== *)

Section ParserFacts.

Local Abbreviation digit := (fun c => isDigit c = true).

Lemma digit_keep c : isDigit c = true -> Carros.keepChar c = true.
Proof. intros H. unfold Carros.keepChar. now rewrite H. Qed.

Lemma digit_not_sep c :
  isDigit c = true -> (c =? char_dot)%N = false /\ (c =? char_comma)%N = false.
Proof.
  intros H. pose proof (keep_digit_or_sep c (digit_keep c H)) as E.
  rewrite H in E. unfold isSep in E.
  destruct (c =? char_dot)%N, (c =? char_comma)%N; simpl in E;
    try discriminate; split; reflexivity.
Qed.

Lemma filter_id (p : N -> bool) s :
  Forall (fun c => p c = true) s -> List.filter p s = s.
Proof.
  induction 1 as [| c t Hc _ IH]; simpl; [reflexivity |].
  now rewrite Hc, IH.
Qed.

Lemma filter_none (p : N -> bool) s :
  Forall (fun c => p c = false) s -> List.filter p s = [].
Proof.
  induction 1 as [| c t Hc _ IH]; simpl; [reflexivity |].
  now rewrite Hc.
Qed.

Lemma takeWhile_app_stop (p : N -> bool) u c v :
  Forall (fun x => p x = true) u -> p c = false ->
  takeWhile p (u ++ c :: v) = u /\ dropWhile p (u ++ c :: v) = c :: v.
Proof.
  intros Hu Hc. induction Hu as [| x t Hx _ [IH1 IH2]]; simpl.
  - now rewrite Hc.
  - rewrite Hx, IH1, IH2. split; reflexivity.
Qed.

Lemma takeWhile_whole (p : N -> bool) u :
  Forall (fun x => p x = true) u ->
  takeWhile p u = u /\ dropWhile p u = [].
Proof.
  induction 1 as [| x t Hx _ [IH1 IH2]]; simpl; [split; reflexivity |].
  rewrite Hx, IH1, IH2. split; reflexivity.
Qed.

Lemma replaceFirst_absent c d s :
  Forall (fun x => (x =? c)%N = false) s -> replaceFirst c d s = s.
Proof.
  induction 1 as [| x t Hx _ IH]; simpl; [reflexivity |].
  now rewrite Hx, IH.
Qed.

Lemma replaceFirst_app c d u v :
  Forall (fun x => (x =? c)%N = false) u ->
  replaceFirst c d (u ++ c :: v) = u ++ d :: v.
Proof.
  induction 1 as [| x t Hx _ IH]; simpl.
  - now rewrite N.eqb_refl.
  - now rewrite Hx, IH.
Qed.

Lemma countChar_app c u v :
  countChar c (u ++ v) = (countChar c u + countChar c v)%nat.
Proof. unfold countChar. now rewrite List.filter_app, length_app. Qed.

Lemma countChar_absent c s :
  Forall (fun x => (x =? c)%N = false) s -> countChar c s = 0%nat.
Proof. intros H. unfold countChar. now rewrite filter_none. Qed.

Lemma lastIndexOf_from_absent c s : forall i acc,
  Forall (fun x => (x =? c)%N = false) s -> lastIndexOf_from c s i acc = acc.
Proof.
  induction s as [| x t IH]; intros i acc H; simpl; [reflexivity |].
  apply Forall_cons_1 in H as [Hx Ht]. rewrite Hx. now apply IH.
Qed.

Lemma lastIndexOf_from_app c u v : forall i acc,
  lastIndexOf_from c (u ++ v) i acc
  = lastIndexOf_from c v (i + Z.of_nat (length u)) (lastIndexOf_from c u i acc).
Proof.
  induction u as [| x t IH]; intros i acc; simpl lastIndexOf_from.
  - simpl. now rewrite Z.add_0_r.
  - rewrite IH. simpl length. f_equal. lia.
Qed.

Lemma lastIndexOf_from_bound c s : forall i acc,
  acc < i -> lastIndexOf_from c s i acc < i + Z.of_nat (length s).
Proof.
  induction s as [| x t IH]; intros i acc H; simpl lastIndexOf_from.
  - simpl. lia.
  - simpl length. rewrite Nat2Z.inj_succ.
    specialize (IH (i + 1) (if (x =? c)%N then i else acc)).
    destruct (x =? c)%N; lia.
Qed.

(** In [u ++ "," ++ v] with no comma and no period in [v], the last
    comma comes after the last period. *)
Lemma comma_after_periods u v :
  Forall (fun x => (x =? char_dot)%N = false) v ->
  Forall (fun x => (x =? char_comma)%N = false) v ->
  (lastIndexOf char_dot (u ++ char_comma :: v)
   <? lastIndexOf char_comma (u ++ char_comma :: v)) = true.
Proof.
  intros Hd Hc. unfold lastIndexOf. rewrite !lastIndexOf_from_app.
  simpl lastIndexOf_from.
  rewrite (lastIndexOf_from_absent char_dot v) by assumption.
  rewrite (lastIndexOf_from_absent char_comma v) by assumption.
  apply Z.ltb_lt.
  pose proof (lastIndexOf_from_bound char_dot u 0 (-1) ltac:(lia)). lia.
Qed.

Lemma shr_fexp_nonneg m e l :
  0 <= m -> 0 <= shr_m (fst (shr_fexp prec emax m e l)).
Proof.
  intros Hm. unfold shr_fexp, shr.
  destruct (fexp prec emax (Zdigits2 m + e) - e) as [| n | n];
    simpl fst; rewrite ?shr_record_of_loc_m; try exact Hm.
  rewrite iter_shr_1_m by (rewrite shr_record_of_loc_m; exact Hm).
  rewrite shr_record_of_loc_m. apply Z.div_pos; [exact Hm |].
  apply Z.pow_pos_nonneg; lia.
Qed.

(** Rounding a non-negative magnitude never gives NaN. *)
Lemma binary_round_aux_not_nan s m e l :
  0 <= m -> isNaN (binary_round_aux prec emax s m e l) = false.
Proof.
  intros Hm. unfold binary_round_aux.
  pose proof (shr_fexp_nonneg m e l Hm) as H1.
  destruct (shr_fexp prec emax m e l) as [mrs' e'].
  pose proof (round_nearest_even_ge (shr_m mrs') (loc_of_shr_record mrs')) as Hr.
  simpl in H1.
  pose proof (shr_fexp_nonneg _ e' loc_Exact (Z.le_trans _ _ _ H1 Hr)) as H2.
  destruct (shr_fexp prec emax _ e' loc_Exact) as [mrs'' e''].
  simpl in H2.
  destruct (shr_m mrs'') as [| q | q]; [reflexivity | | lia].
  destruct (e'' <=? emax - prec); reflexivity.
Qed.

Lemma num_of_decimal_not_nan neg m e10 :
  isNaN (num_of_decimal neg m e10) = false.
Proof.
  unfold num_of_decimal. destruct m as [| p]; [reflexivity |].
  destruct (0 <=? e10) eqn:He.
  - apply Z.leb_le in He.
    assert (Hp : 0 < Zpos p * 10 ^ e10).
    { apply Z.mul_pos_pos; [lia | apply Z.pow_pos_nonneg; lia]. }
    destruct (Zpos p * 10 ^ e10) as [| q | q]; try lia.
    destruct neg; simpl cond_Zopp; simpl binary_normalize.
    + pose proof (binary_round_pos true q 0) as H.
      rewrite emin_val in H. specialize (H ltac:(lia)).
      destruct (binary_round prec emax true q 0); simpl in *; tauto.
    + pose proof (binary_round_pos false q 0) as H.
      rewrite emin_val in H. specialize (H ltac:(lia)).
      destruct (binary_round prec emax false q 0); simpl in *; tauto.
  - unfold SFdiv, SFdiv_core_binary.
    match goal with
    | |- context [Z.div_eucl ?a ?b] =>
        pose proof (Z_div_mod a b ltac:(lia)) as Hdm;
        assert (Ha : 0 <= a);
        [| destruct (Z.div_eucl a b) as [qt r] ]
    end.
    + match goal with
      | |- 0 <= match ?s with _ => _ end =>
          destruct s as [| n | n] eqn:Hs; try lia
      end.
      apply Z.shiftl_nonneg. lia.
    + apply binary_round_aux_not_nan. nia.
Qed.

(** The carros parser on any string, the empty one included. *)
Lemma cleanAndParseValue_filtered s :
  Carros.cleanAndParseValue (Some s)
  = if isNaN (parseFloat (separatorsNormalized (List.filter Carros.keepChar s)))
    then zero
    else parseFloat (separatorsNormalized (List.filter Carros.keepChar s)).
Proof.
  destruct s as [| c s]; [reflexivity |].
  rewrite cleanAndParseValue_unfold, cleanedValue_filter. reflexivity.
Qed.

(** The number read from [ip ++ "." ++ fp], digits on both sides. *)
Lemma parseFloat_decimal ip fp :
  Forall digit ip -> Forall digit fp -> ip ++ fp <> [] ->
  parseFloat (ip ++ char_dot :: fp)
  = num_of_decimal false (digitsValue (ip ++ fp)) (- Z.of_nat (length fp)).
Proof.
  intros Hi Hf Hne.
  rewrite parseFloat_keep.
  2: { apply Forall_app. split.
       - eapply Forall_impl; [exact Hi | apply digit_keep].
       - constructor; [reflexivity |].
         eapply Forall_impl; [exact Hf | apply digit_keep]. }
  destruct (takeWhile_app_stop isDigit ip char_dot fp Hi eq_refl) as [-> ->].
  simpl fracDigits. destruct (takeWhile_whole isDigit fp Hf) as [-> _].
  destruct (ip ++ fp) as [| d ds]; [congruence | reflexivity].
Qed.

Lemma parseFloat_digits ds :
  Forall digit ds -> ds <> [] ->
  parseFloat ds = num_of_Z (Z.of_N (digitsValue ds)).
Proof.
  intros Hd Hne.
  rewrite parseFloat_keep
    by (eapply Forall_impl; [exact Hd | apply digit_keep]).
  destruct (takeWhile_whole isDigit ds Hd) as [-> ->].
  simpl fracDigits. rewrite app_nil_r.
  destruct ds as [| d t]; [congruence |].
  simpl length. simpl Z.opp. apply num_of_decimal_int.
Qed.

Lemma trim_after_space w :
  Forall (fun c => Carros.keepChar c = true) w -> trim (32%N :: w) = w.
Proof.
  intros Hw. rewrite <- (trim_keep w Hw) at 2. reflexivity.
Qed.

End ParserFacts.

(** X1.  In the carros variant the parsed value depends only on the
    digits, commas and periods of the text, in their order: two texts
    that agree on them parse to the same number.  Signs, letters
    (exponents included), currency symbols and white space play no
    part. *)
Theorem parse_reads_digits_and_separators_only (s1 s2 : jsstring) :
  List.filter Carros.keepChar s1 = List.filter Carros.keepChar s2 ->
  Carros.cleanAndParseValue (Some s1) = Carros.cleanAndParseValue (Some s2).
Proof.
  intros H. rewrite (cleanAndParseValue_filtered s1).
  rewrite (cleanAndParseValue_filtered s2). rewrite H. reflexivity.
Qed.

Lemma parse_reads_digits_and_separators_only_witness :
  List.filter Carros.keepChar (str "- R$ 1.234,50e0")
    = List.filter Carros.keepChar (str "1.234,500")
  /\ Carros.cleanAndParseValue (Some (str "- R$ 1.234,50e0"))
     = Carros.cleanAndParseValue (Some (str "1.234,500"))
  /\ Carros.cleanAndParseValue (Some (str "1.234,500"))
     = num_of_decimal false 12345 (-1).
Proof.
  assert (H : List.filter Carros.keepChar (str "- R$ 1.234,50e0")
              = List.filter Carros.keepChar (str "1.234,500")) by reflexivity.
  split; [exact H |]. split; [| vm_compute; reflexivity].
  exact (parse_reads_digits_and_separators_only
           (str "- R$ 1.234,50e0") (str "1.234,500") H).
Defined.

(** X2.  A price written with a period and no comma, as "R$ 74.350":
    the carros variant takes the period for the radix point (74.35),
    the imoveis variant for a thousands separator (74350). *)
Theorem period_without_comma (i g : jsstring) :
  Forall (fun c => isDigit c = true) i ->
  Forall (fun c => isDigit c = true) g ->
  i ++ g <> [] ->
  Carros.cleanAndParseValue (Some (str "R$ " ++ i ++ char_dot :: g))
    = num_of_decimal false (digitsValue (i ++ g)) (- Z.of_nat (length g))
  /\ Imoveis.cleanAndParseValue (Some (str "R$ " ++ i ++ char_dot :: g))
     = Ok (num_of_Z (Z.of_N (digitsValue (i ++ g)))).
Proof.
  intros Hi Hg Hne.
  assert (Hki : Forall (fun c => Carros.keepChar c = true) i)
    by (eapply Forall_impl; [exact Hi | apply digit_keep]).
  assert (Hkg : Forall (fun c => Carros.keepChar c = true) g)
    by (eapply Forall_impl; [exact Hg | apply digit_keep]).
  assert (Hnc : forall u, Forall (fun c => isDigit c = true) u ->
                          Forall (fun x => (x =? char_comma)%N = false) u).
  { intros u Hu. eapply Forall_impl; [exact Hu |].
    intros c Hc. apply (digit_not_sep c Hc). }
  assert (Hnd : forall u, Forall (fun c => isDigit c = true) u ->
                          Forall (fun x => (x =? char_dot)%N = false) u).
  { intros u Hu. eapply Forall_impl; [exact Hu |].
    intros c Hc. apply (digit_not_sep c Hc). }
  split.
  - rewrite cleanAndParseValue_filtered.
    change (List.filter Carros.keepChar (str "R$ " ++ i ++ char_dot :: g))
      with (List.filter Carros.keepChar (i ++ char_dot :: g)).
    rewrite filter_id
      by (apply Forall_app; split; [exact Hki | constructor; [reflexivity | exact Hkg]]).
    assert (Hsn : separatorsNormalized (i ++ char_dot :: g) = i ++ char_dot :: g).
    { unfold separatorsNormalized.
      rewrite (countChar_absent char_comma (i ++ char_dot :: g)); [reflexivity |].
      apply Forall_app. split; [apply Hnc, Hi |].
      constructor; [reflexivity | apply Hnc, Hg]. }
    rewrite Hsn, parseFloat_decimal by assumption.
    now rewrite num_of_decimal_not_nan.
  - unfold Imoveis.cleanAndParseValue. f_equal.
    change (removeFirstSub (str "R$") (str "R$ " ++ i ++ char_dot :: g))
      with (32%N :: i ++ char_dot :: g).
    assert (Hra : removeAll char_dot (32%N :: i ++ char_dot :: g) = 32%N :: i ++ g).
    { unfold removeAll. simpl List.filter. f_equal.
      rewrite List.filter_app. simpl List.filter.
      rewrite !filter_id; [reflexivity | |].
      - eapply Forall_impl; [exact (Hnd g Hg) |]. intros c ->. reflexivity.
      - eapply Forall_impl; [exact (Hnd i Hi) |]. intros c ->. reflexivity. }
    rewrite Hra.
    rewrite replaceFirst_absent
      by (constructor; [reflexivity | apply Hnc, Forall_app; split; assumption]).
    rewrite trim_after_space by (apply Forall_app; split; assumption).
    apply parseFloat_digits; [apply Forall_app; split; assumption | exact Hne].
Qed.

Lemma period_without_comma_witness :
  Forall (fun c => isDigit c = true) (str "74")
  /\ Forall (fun c => isDigit c = true) (str "350")
  /\ str "74" ++ str "350" <> []
  /\ Carros.cleanAndParseValue (Some (str "R$ 74.350"))
     = num_of_decimal false 7435 (-2)
  /\ Imoveis.cleanAndParseValue (Some (str "R$ 74.350")) = Ok (num_of_Z 74350).
Proof.
  assert (H1 : Forall (fun c => isDigit c = true) (str "74"))
    by (repeat constructor).
  assert (H2 : Forall (fun c => isDigit c = true) (str "350"))
    by (repeat constructor).
  assert (H3 : str "74" ++ str "350" <> []) by discriminate.
  pose proof (period_without_comma (str "74") (str "350") H1 H2 H3) as [Ha Hb].
  split; [exact H1 |]. split; [exact H2 |]. split; [exact H3 |].
  split.
  - etransitivity; [exact Ha |]. vm_compute. reflexivity.
  - exact Hb.
Defined.

(** X3.  On the documented form, "R$ " followed by digits grouped by
    periods, a comma and the decimal digits, the two variants read the
    same number: the one whose digits are those of the text and whose
    decimal places are the digits after the comma. *)
Theorem variants_agree_on_brazilian_form (body f : jsstring) :
  Forall (fun c => isDigit c = true \/ c = char_dot) body ->
  Forall (fun c => isDigit c = true) f ->
  List.filter isDigit body ++ f <> [] ->
  Carros.cleanAndParseValue (Some (str "R$ " ++ body ++ char_comma :: f))
    = num_of_decimal false (digitsValue (List.filter isDigit body ++ f))
        (- Z.of_nat (length f))
  /\ Imoveis.cleanAndParseValue (Some (str "R$ " ++ body ++ char_comma :: f))
     = Ok (Carros.cleanAndParseValue
             (Some (str "R$ " ++ body ++ char_comma :: f))).
Proof.
  intros Hb Hf Hne.
  set (D := List.filter isDigit body) in *.
  assert (HD : Forall (fun c => isDigit c = true) D).
  { unfold D. clear. induction body as [| c t IH]; simpl; [constructor |].
    destruct (isDigit c) eqn:E; [constructor; assumption | exact IH]. }
  assert (Hkb : Forall (fun c => Carros.keepChar c = true) body).
  { eapply Forall_impl; [exact Hb |].
    intros c [Hc | ->]; [apply digit_keep, Hc | reflexivity]. }
  assert (Hkf : Forall (fun c => Carros.keepChar c = true) f)
    by (eapply Forall_impl; [exact Hf | apply digit_keep]).
  assert (HkD : Forall (fun c => Carros.keepChar c = true) D)
    by (eapply Forall_impl; [exact HD | apply digit_keep]).
  assert (Hncb : Forall (fun x => (x =? char_comma)%N = false) body).
  { eapply Forall_impl; [exact Hb |].
    intros c [Hc | ->]; [apply (digit_not_sep c Hc) | reflexivity]. }
  assert (Hncf : Forall (fun x => (x =? char_comma)%N = false) f).
  { eapply Forall_impl; [exact Hf |]. intros c Hc. apply (digit_not_sep c Hc). }
  assert (Hndf : Forall (fun x => (x =? char_dot)%N = false) f).
  { eapply Forall_impl; [exact Hf |]. intros c Hc. apply (digit_not_sep c Hc). }
  assert (HncD : Forall (fun x => (x =? char_comma)%N = false) D).
  { eapply Forall_impl; [exact HD |]. intros c Hc. apply (digit_not_sep c Hc). }
  assert (HndD : Forall (fun x => (x =? char_dot)%N = false) D).
  { eapply Forall_impl; [exact HD |]. intros c Hc. apply (digit_not_sep c Hc). }
  assert (Hrb : removeAll char_dot body = D).
  { unfold removeAll, D. apply List.filter_ext_in. intros c Hc.
    rewrite List.Forall_forall in Hb. destruct (Hb c Hc) as [Hd | ->].
    - rewrite Hd. now destruct (digit_not_sep c Hd) as [-> _].
    - reflexivity. }
  assert (Hrf : removeAll char_dot f = f).
  { unfold removeAll. apply filter_id.
    eapply Forall_impl; [exact Hndf |]. intros c ->. reflexivity. }
  assert (Hra : removeAll char_dot (body ++ char_comma :: f) = D ++ char_comma :: f).
  { unfold removeAll in *. rewrite List.filter_app. simpl List.filter.
    now rewrite Hrb, Hrf. }
  assert (Hsn : separatorsNormalized (body ++ char_comma :: f) = D ++ char_dot :: f).
  { unfold separatorsNormalized.
    assert (Hcc : countChar char_comma (body ++ char_comma :: f) = 1%nat).
    { rewrite countChar_app, (countChar_absent char_comma body Hncb).
      unfold countChar. simpl List.filter. simpl length.
      now rewrite (filter_none _ f) by exact Hncf. }
    rewrite Hcc. simpl (0 <? 1)%nat. simpl (1 =? 1)%nat. simpl andb.
    destruct (0 <? countChar char_dot (body ++ char_comma :: f))%nat eqn:Hdots.
    - rewrite comma_after_periods by assumption.
      rewrite Hra. apply replaceFirst_app, HncD.
    - apply Nat.ltb_ge in Hdots.
      assert (Hz : countChar char_dot (body ++ char_comma :: f) = 0%nat) by lia.
      rewrite Hz. simpl (0 =? 0)%nat. cbv iota.
      rewrite replaceFirst_app by exact Hncb.
      rewrite <- Hrb. unfold removeAll. rewrite filter_id; [reflexivity |].
      pose proof (countChar_0 _ _ Hz) as Hall.
      apply Forall_app in Hall as [Hall _].
      eapply Forall_impl; [exact Hall |]. intros c ->. reflexivity. }
  assert (Hc : Carros.cleanAndParseValue (Some (str "R$ " ++ body ++ char_comma :: f))
               = parseFloat (D ++ char_dot :: f)).
  { rewrite cleanAndParseValue_filtered.
    change (List.filter Carros.keepChar (str "R$ " ++ body ++ char_comma :: f))
      with (List.filter Carros.keepChar (body ++ char_comma :: f)).
    rewrite filter_id
      by (apply Forall_app; split; [exact Hkb | constructor; [reflexivity | exact Hkf]]).
    rewrite Hsn, parseFloat_decimal by assumption.
    now rewrite num_of_decimal_not_nan. }
  split.
  - rewrite Hc. apply parseFloat_decimal; assumption.
  - rewrite Hc. unfold Imoveis.cleanAndParseValue. f_equal. f_equal.
    change (removeFirstSub (str "R$") (str "R$ " ++ body ++ char_comma :: f))
      with (32%N :: body ++ char_comma :: f).
    change (removeAll char_dot (32%N :: body ++ char_comma :: f))
      with (32%N :: removeAll char_dot (body ++ char_comma :: f)).
    rewrite Hra.
    change (32%N :: D ++ char_comma :: f) with ((32%N :: D) ++ char_comma :: f).
    rewrite replaceFirst_app by (constructor; [reflexivity | exact HncD]).
    apply trim_after_space.
    apply Forall_app. split; [exact HkD | constructor; [reflexivity | exact Hkf]].
Qed.

Lemma variants_agree_on_brazilian_form_witness :
  Forall (fun c => isDigit c = true \/ c = char_dot) (str "74.350")
  /\ Forall (fun c => isDigit c = true) (str "00")
  /\ List.filter isDigit (str "74.350") ++ str "00" <> []
  /\ Carros.cleanAndParseValue (Some (str "R$ 74.350,00")) = num_of_Z 74350
  /\ Imoveis.cleanAndParseValue (Some (str "R$ 74.350,00"))
     = Ok (Carros.cleanAndParseValue (Some (str "R$ 74.350,00"))).
Proof.
  assert (H1 : Forall (fun c => isDigit c = true \/ c = char_dot) (str "74.350"))
    by (repeat constructor; (left; reflexivity) || (right; reflexivity)).
  assert (H2 : Forall (fun c => isDigit c = true) (str "00"))
    by (repeat constructor).
  assert (H3 : List.filter isDigit (str "74.350") ++ str "00" <> [])
    by discriminate.
  pose proof (variants_agree_on_brazilian_form (str "74.350") (str "00") H1 H2 H3)
    as [Ha Hb].
  split; [exact H1 |]. split; [exact H2 |]. split; [exact H3 |].
  split; [| exact Hb].
  etransitivity; [exact Ha |]. vm_compute. reflexivity.
Defined.

(* ===================================================================== *)
(** * Further properties of the discount *)
(* ===================================================================== *)

Lemma num_leb_zero_gt0 d :
  wf d -> isNaN d = false -> num_leb d zero = negb (gt0 d).
Proof.
  destruct d as [[] | [] | | [] m e]; simpl; intros Hw H;
    try discriminate; try reflexivity;
    pose proof (ulps_finite_pos m e Hw);
    [apply Z.leb_le | apply Z.leb_gt]; lia.
Qed.

Lemma positive_finite x :
  isFinite x = true -> gt0 x = true -> exists m e, x = S754_finite false m e.
Proof.
  destruct x as [[] | [] | | [] m e]; simpl; try discriminate; eauto.
Qed.

(** A finite non-zero Number divided by itself is 1. *)
Lemma num_div_self s m e :
  num_div (S754_finite s m e) (S754_finite s m e) = num_of_Z 1.
Proof.
  unfold num_div, SFdiv, SFdiv_core_binary.
  replace (Zdigits2 (Zpos m) + e - (Zdigits2 (Zpos m) + e)) with 0 by lia.
  replace (e - e) with 0 by lia.
  change (Z.min (fexp prec emax 0) 0) with (-53).
  change (0 - -53) with 53.
  rewrite Z.shiftl_mul_pow2 by lia.
  pose proof (Z_div_mod (Zpos m * 2 ^ 53) (Zpos m) ltac:(lia)) as Hdm.
  destruct (Z.div_eucl (Zpos m * 2 ^ 53) (Zpos m)) as [q r].
  destruct Hdm as [Hq Hr].
  assert (Eq : q = 2 ^ 53) by nia.
  assert (Er : r = 0) by nia.
  subst q r.
  assert (El : new_location (Zpos m) 0 = loc_Exact).
  { unfold new_location, new_location_even, new_location_odd.
    destruct (Z.even (Zpos m)); reflexivity. }
  rewrite El. rewrite xorb_nilpotent. reflexivity.
Qed.

Lemma num_sub_self s m e :
  num_sub (S754_finite s m e) (S754_finite s m e) = zero.
Proof.
  unfold num_sub, SFsub. rewrite Z.min_id.
  rewrite Z.sub_diag. reflexivity.
Qed.

(** X4.  The sign of the discount is the order of the two parsed
    prices: it is positive exactly when the public price is above the
    PCD price, and zero or negative exactly when it is not; it is NaN
    in one case only, when both prices are beyond the binary64 range. *)
Theorem desconto_sign (c : Carros.carro) :
  gt0 (Carros.calculateDesconto c)
    = negb (num_leb (Carros.cleanAndParseValue (Carros.preco_publico c))
                    (Carros.cleanAndParseValue (Carros.preco_pcd c)))
  /\ isNaN (Carros.calculateDesconto c)
     = negb (isFinite (Carros.cleanAndParseValue (Carros.preco_publico c)))
       && negb (isFinite (Carros.cleanAndParseValue (Carros.preco_pcd c)))
  /\ num_leb (Carros.calculateDesconto c) zero
     = num_leb (Carros.cleanAndParseValue (Carros.preco_publico c))
               (Carros.cleanAndParseValue (Carros.preco_pcd c))
       && negb (isNaN (Carros.calculateDesconto c)).
Proof.
  unfold Carros.calculateDesconto. rewrite !orDefault_parse.
  set (pub := Carros.cleanAndParseValue (Carros.preco_publico c)).
  set (pcd := Carros.cleanAndParseValue (Carros.preco_pcd c)).
  pose proof (cleanAndParseValue_wf (Carros.preco_publico c)) as Wp.
  pose proof (cleanAndParseValue_wf (Carros.preco_pcd c)) as Wd.
  pose proof (cleanAndParseValue_not_nan (Carros.preco_publico c)) as Np.
  pose proof (cleanAndParseValue_not_nan (Carros.preco_pcd c)) as Nd.
  pose proof (cleanAndParseValue_nonNegative (Carros.preco_publico c)) as Pp.
  pose proof (cleanAndParseValue_nonNegative (Carros.preco_pcd c)) as Pd.
  fold pub in Wp, Np, Pp. fold pcd in Wd, Nd, Pd.
  assert (H1 : gt0 (num_sub pub pcd) = negb (num_leb pub pcd))
    by (apply num_sub_gt0; assumption).
  assert (H2 : isNaN (num_sub pub pcd)
               = negb (isFinite pub) && negb (isFinite pcd)).
  { destruct (isFinite pub) eqn:Fp.
    - simpl. apply num_sub_not_nan; auto.
    - destruct (isFinite pcd) eqn:Fd.
      + rewrite andb_false_r. apply num_sub_not_nan; auto.
      + destruct pub as [| [] | |]; try discriminate; try contradiction.
        destruct pcd as [| [] | |]; try discriminate; try contradiction.
        reflexivity. }
  split; [exact H1 |]. split; [exact H2 |].
  destruct (isNaN (num_sub pub pcd)) eqn:Hn.
  - rewrite andb_false_r.
    destruct (num_sub pub pcd); try discriminate. reflexivity.
  - rewrite andb_true_r, num_leb_zero_gt0, H1
      by (try exact Hn; apply num_sub_wf; assumption).
    apply negb_involutive.
Qed.

(** X5.  When the public price is a positive finite number, the
    percentage is the string "100.00" for a record whose PCD price is
    missing or parses to 0, and the string "0.00" for a record whose two
    prices parse to the same number. *)
Theorem percentage_full_and_none
    (numberToString : number -> jsstring) (c : Carros.carro) :
  isFinite (Carros.cleanAndParseValue (Carros.preco_publico c)) = true ->
  gt0 (Carros.cleanAndParseValue (Carros.preco_publico c)) = true ->
  (Carros.cleanAndParseValue (Carros.preco_pcd c) = zero ->
   Carros.calculateDescontoPercentage numberToString c = VString (str "100.00"))
  /\ (Carros.cleanAndParseValue (Carros.preco_pcd c)
      = Carros.cleanAndParseValue (Carros.preco_publico c) ->
      Carros.calculateDescontoPercentage numberToString c = VString (str "0.00")).
Proof.
  intros Hf Hg.
  unfold Carros.calculateDescontoPercentage, Carros.calculateDesconto.
  rewrite !orDefault_parse, Hg.
  destruct (positive_finite _ Hf Hg) as (m & e & Hx).
  split; intros Hd; rewrite Hd, ?Hx.
  - change (num_sub (S754_finite false m e) zero) with (S754_finite false m e).
    rewrite num_div_self. reflexivity.
  - rewrite num_sub_self. reflexivity.
Qed.

Lemma percentage_full_and_none_witness :
  isFinite (Carros.cleanAndParseValue
              (Carros.preco_publico
                 (carro_de (str "p1") (str "Fiat") (str "R$ 80.000,00") (str "gratis"))))
    = true
  /\ gt0 (Carros.cleanAndParseValue
            (Carros.preco_publico
               (carro_de (str "p1") (str "Fiat") (str "R$ 80.000,00") (str "gratis"))))
     = true
  /\ Carros.calculateDescontoPercentage (fun _ => [])
       (carro_de (str "p1") (str "Fiat") (str "R$ 80.000,00") (str "gratis"))
     = VString (str "100.00").
Proof.
  assert (H1 : isFinite (Carros.cleanAndParseValue
                 (Carros.preco_publico
                    (carro_de (str "p1") (str "Fiat") (str "R$ 80.000,00")
                       (str "gratis")))) = true) by reflexivity.
  assert (H2 : gt0 (Carros.cleanAndParseValue
                 (Carros.preco_publico
                    (carro_de (str "p1") (str "Fiat") (str "R$ 80.000,00")
                       (str "gratis")))) = true) by reflexivity.
  split; [exact H1 |]. split; [exact H2 |].
  exact (proj1 (percentage_full_and_none (fun _ => [])
                  (carro_de (str "p1") (str "Fiat") (str "R$ 80.000,00")
                     (str "gratis")) H1 H2) eq_refl).
Defined.

(* ===================================================================== *)
(** * Further properties of sortImoveis *)
(* ===================================================================== *)

Lemma fresh_unallocated {A} (h : store A) : h !! fresh (dom h) = None.
Proof. apply not_elem_of_dom, is_fresh. Qed.

(** X6.  In the carros variant [sortImoveis], with mode "valor_asc" or
    "desconto_desc" on any array, and with mode "marca_asc" on an array
    whose records all have a [marca], returns an array that did not
    exist before the call (so never the input array), holding a
    rearrangement of the input, whatever the prices and whatever the
    collation, and the call changes nothing else in the store. *)
Theorem carros_sort_returns_new_array
    (localeCompare : jsstring -> jsstring -> jsstring -> number)
    (h : store Carros.carro) (data : loc) (items : list Carros.carro)
    (sortOption : jsstring) :
  h !! data = Some items ->
  sortOption = str "valor_asc" \/ sortOption = str "desconto_desc"
  \/ (sortOption = str "marca_asc"
      /\ Forall (fun c => Carros.marca c <> None) items) ->
  exists r sorted,
    Carros.sortImoveis localeCompare data sortOption h
      = (Ok r, <[r := sorted]> h)
    /\ h !! r = None
    /\ r <> data
    /\ Permutation sorted items.
Proof.
  intros H Hmode.
  assert (Hne : fresh (dom h) <> data).
  { intros E. pose proof (fresh_unallocated h) as Hf. rewrite E in Hf. congruence. }
  destruct Hmode as [-> | [-> | [-> Hm]]].
  - rewrite (carros_valor_asc localeCompare h data items H).
    eexists _, _. split; [reflexivity |].
    split; [apply fresh_unallocated |]. split; [exact Hne | apply sort_by_perm].
  - rewrite (carros_desconto_desc localeCompare h data items H).
    eexists _, _. split; [reflexivity |].
    split; [apply fresh_unallocated |]. split; [exact Hne | apply sort_by_perm].
  - rewrite (carros_marca_asc localeCompare h data items H Hm).
    eexists _, _. split; [reflexivity |].
    split; [apply fresh_unallocated |]. split; [exact Hne | apply sort_by_perm].
Qed.

Lemma carros_sort_returns_new_array_witness :
  store_carros !! 1%positive = Some catalogo_marcas
  /\ Forall (fun c => Carros.marca c <> None) catalogo_marcas
  /\ exists r sorted,
       Carros.sortImoveis collateBase 1%positive (str "marca_asc") store_carros
         = (Ok r, <[r := sorted]> store_carros)
       /\ store_carros !! r = None
       /\ r <> 1%positive
       /\ Permutation sorted catalogo_marcas.
Proof.
  assert (H : store_carros !! 1%positive = Some catalogo_marcas) by reflexivity.
  split; [exact H |]. split; [exact catalogo_marcas_marca |].
  exact (carros_sort_returns_new_array collateBase store_carros 1%positive
           catalogo_marcas (str "marca_asc") H
           (or_intror (or_intror (conj eq_refl catalogo_marcas_marca)))).
Defined.

Section ImoveisThrows.

Let hasValor (a : Imoveis.imovel) : Prop := Imoveis.valor a <> None.

Lemma byValor_hasValor a b :
  hasValor a -> hasValor b ->
  Imoveis.byValor a b = Ok (num_sub (valorNumber a) (valorNumber b)).
Proof.
  unfold hasValor, Imoveis.byValor, valorNumber.
  destruct (Imoveis.valor a); [| congruence].
  destruct (Imoveis.valor b); [| congruence]. reflexivity.
Qed.

Lemma byValor_missing a b :
  Imoveis.valor a = None \/ Imoveis.valor b = None ->
  Imoveis.byValor a b = Throw TypeError.
Proof.
  unfold Imoveis.byValor. intros [-> | ->]; [reflexivity |].
  destruct (Imoveis.valor a); reflexivity.
Qed.

Lemma array_sort_byValor_ok l :
  Forall hasValor l ->
  array_sort Imoveis.byValor l
  = Ok (sort_by (fun a b => gt0 (num_sub (valorNumber a) (valorNumber b))) l).
Proof.
  apply (array_sort_pure _
           (fun a b => num_sub (valorNumber a) (valorNumber b)) hasValor).
  exact byValor_hasValor.
Qed.

Lemma sort_by_cons {A} (gt : A -> A -> bool) x t :
  exists y s, sort_by gt (x :: t) = y :: s.
Proof.
  pose proof (sort_by_perm gt (x :: t)) as Hp.
  destruct (sort_by gt (x :: t)) as [| y s]; [| eauto].
  apply Permutation_nil in Hp. discriminate.
Qed.

Lemma valor_cases l :
  Forall hasValor l \/ Exists (fun a => Imoveis.valor a = None) l.
Proof.
  induction l as [| x t [IH | IH]]; [left; constructor | |].
  - destruct (Imoveis.valor x) eqn:E.
    + left. constructor; [unfold hasValor; congruence | exact IH].
    + right. now constructor.
  - right. now constructor 2.
Qed.

(** Two or more records, one of them without [valor]: the comparator
    is called on it and throws. *)
Lemma array_sort_byValor_throws l :
  (2 <= length l)%nat -> Exists (fun a => Imoveis.valor a = None) l ->
  array_sort Imoveis.byValor l = Throw TypeError.
Proof.
  induction l as [| x t IH]; intros Hlen Hex; [simpl in Hlen; lia |].
  simpl array_sort.
  destruct (valor_cases t) as [Hall | Hnone].
  - (* every record of the tail has a price: the head has none *)
    rewrite array_sort_byValor_ok by exact Hall.
    assert (Hx : Imoveis.valor x = None).
    { apply Exists_cons in Hex as [Hx | Ht]; [exact Hx |].
      apply Exists_exists in Ht as (a & Ha & Hn).
      rewrite Forall_forall in Hall. now destruct (Hall a Ha). }
    destruct t as [| y t']; [simpl in Hlen; lia |].
    destruct (sort_by_cons
                (fun a b => gt0 (num_sub (valorNumber a) (valorNumber b))) y t')
      as (z & s & ->).
    simpl. rewrite byValor_missing by (left; exact Hx). reflexivity.
  - destruct t as [| y [| y' t']].
    + inversion Hnone.
    + (* the tail is the one record without a price *)
      apply Exists_cons in Hnone as [Hy | Hn]; [| inversion Hn].
      simpl. rewrite byValor_missing by (right; exact Hy). reflexivity.
    + rewrite IH; [reflexivity | simpl; lia | exact Hnone].
Qed.

Lemma array_sort_byValor_short l :
  (length l <= 1)%nat -> array_sort Imoveis.byValor l = Ok l.
Proof.
  destruct l as [| x [| y t]]; simpl; intros H; try reflexivity; lia.
Qed.

(** X7.  In the imoveis variant, with mode "valor_asc", [sortImoveis]
    throws (a TypeError, raised by the price parser) exactly when the
    array has two or more records and one of them has no [valor].  An
    array of fewer than two records is never compared, so the call
    returns even if its record has no [valor]. *)
Theorem imoveis_sort_throws_iff
    (localeCompare : jsstring -> jsstring -> jsstring -> number)
    (h : store Imoveis.imovel) (data : loc) (items : list Imoveis.imovel) :
  h !! data = Some items ->
  (Imoveis.sortImoveis localeCompare data (str "valor_asc") h).1 = Throw TypeError
  <-> (2 <= length items)%nat
      /\ Exists (fun a => Imoveis.valor a = None) items.
Proof.
  intros H.
  assert (Hcall : (Imoveis.sortImoveis localeCompare data (str "valor_asc") h).1
                  = match array_sort Imoveis.byValor items with
                    | Ok _ => Ok (fresh (dom h))
                    | Throw e => Throw e
                    end).
  { unfold Imoveis.sortImoveis. rewrite (spread_spec _ _ _ H).
    rewrite bool_decide_eq_true_2 by reflexivity.
    unfold sortInPlace. rewrite lookup_insert_eq.
    destruct (array_sort Imoveis.byValor items); reflexivity. }
  rewrite Hcall. split.
  - intros Ht.
    destruct (le_lt_dec 2 (length items)) as [Hlen | Hlen].
    + split; [exact Hlen |].
      destruct (valor_cases items) as [Hall | Hnone].
      * rewrite array_sort_byValor_ok in Ht by exact Hall. discriminate.
      * exact Hnone.
    + rewrite array_sort_byValor_short in Ht by lia. discriminate.
  - intros (Hlen & Hex).
    now rewrite array_sort_byValor_throws.
Qed.

End ImoveisThrows.

Lemma imoveis_sort_throws_iff_witness :
  store_sem_valor !! 1%positive = Some lista_sem_valor
  /\ (Imoveis.sortImoveis collateBase 1%positive (str "valor_asc")
        store_sem_valor).1 = Throw TypeError.
Proof.
  assert (H : store_sem_valor !! 1%positive = Some lista_sem_valor)
    by reflexivity.
  split; [exact H |].
  apply (proj2 (imoveis_sort_throws_iff collateBase store_sem_valor 1%positive
                  lista_sem_valor H)).
  split; [simpl; lia |].
  apply Exists_cons_tl, Exists_cons_hd. reflexivity.
Defined.

Section SortTwice.
Context {A : Type}.
Variable gt : A -> A -> bool.
Variable P : A -> Prop.
Hypothesis gt_asym : forall a b, P a -> P b -> gt a b = true -> gt b a = false.
Hypothesis gt_trans : forall a b c, P a -> P b -> P c ->
  gt a b = false -> gt b c = false -> gt a c = false.

(** The insertion sort leaves a sorted sequence as it is. *)
Lemma sort_by_sorted_id l :
  StronglySorted (fun a b => gt a b = false) l -> sort_by gt l = l.
Proof.
  induction 1 as [| x t Hs IH Hx]; [reflexivity |].
  simpl. rewrite IH. destruct t as [| y t']; [reflexivity |].
  simpl. now rewrite (Forall_inv Hx).
Qed.

Lemma sort_by_idempotent l :
  Forall P l -> sort_by gt (sort_by gt l) = sort_by gt l.
Proof.
  intros HP. apply sort_by_sorted_id.
  apply sort_by_sorted with (P := P); assumption.
Qed.
End SortTwice.

(** X8.  Sorting what is already sorted changes nothing: in the carros
    variant, calling [sortImoveis] on the array a first call returned,
    with the same mode, "valor_asc" on any array or "marca_asc" on an
    array whose records all have a [marca], returns another new array
    with the same sequence of records. *)
Theorem carros_sort_twice
    (localeCompare : jsstring -> jsstring -> jsstring -> number)
    (h : store Carros.carro) (data : loc) (items : list Carros.carro)
    (sortOption : jsstring) :
  consistent (ptBR localeCompare) ->
  h !! data = Some items ->
  sortOption = str "valor_asc"
  \/ (sortOption = str "marca_asc"
      /\ Forall (fun c => Carros.marca c <> None) items) ->
  exists r1 h1 r2 h2 sorted,
    Carros.sortImoveis localeCompare data sortOption h = (Ok r1, h1)
    /\ Carros.sortImoveis localeCompare r1 sortOption h1 = (Ok r2, h2)
    /\ h2 !! r1 = Some sorted
    /\ h2 !! r2 = Some sorted
    /\ r1 <> r2.
Proof.
  intros [Hasym Htrans] H Hmode.
  set (h1 := fun sorted : list Carros.carro => <[fresh (dom h) := sorted]> h).
  assert (Hl : forall sorted, h1 sorted !! fresh (dom h) = Some sorted)
    by (intros; apply lookup_insert_eq).
  assert (Hne : forall sorted, fresh (dom h) <> fresh (dom (h1 sorted))).
  { intros sorted E. pose proof (fresh_unallocated (h1 sorted)) as Hf.
    rewrite <- E, Hl in Hf. discriminate. }
  destruct Hmode as [-> | [-> Hm]].
  - set (gt := fun a b : Carros.carro =>
                 gt0 (num_sub (precoPcdNumber a) (precoPcdNumber b))).
    exists (fresh (dom h)), (h1 (sort_by gt items)),
           (fresh (dom (h1 (sort_by gt items)))),
           (<[fresh (dom (h1 (sort_by gt items))) := sort_by gt items]>
              (h1 (sort_by gt items))),
           (sort_by gt items).
    split; [apply (carros_valor_asc localeCompare h data items H) |].
    split.
    + rewrite (carros_valor_asc localeCompare _ _ _ (Hl (sort_by gt items))).
      fold gt. f_equal. f_equal.
      apply (sort_by_idempotent gt
               (fun a => wf (precoPcdNumber a) /\ isNaN (precoPcdNumber a) = false)).
      * exact (ascending_asym precoPcdNumber).
      * exact (ascending_trans precoPcdNumber).
      * apply precoPcdNumber_ordered.
    + split; [rewrite lookup_insert_ne by (apply not_eq_sym, Hne); apply Hl |].
      split; [apply lookup_insert_eq | apply Hne].
  - set (gt := fun a b : Carros.carro =>
                 gt0 (ptBR localeCompare (marcaCarro a) (marcaCarro b))).
    exists (fresh (dom h)), (h1 (sort_by gt items)),
           (fresh (dom (h1 (sort_by gt items)))),
           (<[fresh (dom (h1 (sort_by gt items))) := sort_by gt items]>
              (h1 (sort_by gt items))),
           (sort_by gt items).
    split; [apply (carros_marca_asc localeCompare h data items H Hm) |].
    split.
    + rewrite (carros_marca_asc localeCompare _ _ _ (Hl (sort_by gt items)))
        by (apply sort_by_Forall, Hm).
      fold gt. f_equal. f_equal.
      apply (sort_by_idempotent gt (fun _ => True)).
      * intros a b _ _. apply Hasym.
      * intros a b c _ _ _. apply Htrans.
      * apply Forall_true. exact (fun _ => I).
    + split; [rewrite lookup_insert_ne by (apply not_eq_sym, Hne); apply Hl |].
      split; [apply lookup_insert_eq | apply Hne].
Qed.

Lemma carros_sort_twice_witness :
  consistent (ptBR collateBase)
  /\ store_carros !! 1%positive = Some catalogo_marcas
  /\ Forall (fun c => Carros.marca c <> None) catalogo_marcas
  /\ exists r1 h1 r2 h2 sorted,
       Carros.sortImoveis collateBase 1%positive (str "marca_asc") store_carros
         = (Ok r1, h1)
       /\ Carros.sortImoveis collateBase r1 (str "marca_asc") h1 = (Ok r2, h2)
       /\ h2 !! r1 = Some sorted
       /\ h2 !! r2 = Some sorted
       /\ r1 <> r2.
Proof.
  assert (H : store_carros !! 1%positive = Some catalogo_marcas) by reflexivity.
  split; [exact collateBase_consistent |]. split; [exact H |].
  split; [exact catalogo_marcas_marca |].
  exact (carros_sort_twice collateBase store_carros 1%positive catalogo_marcas
           (str "marca_asc") collateBase_consistent H
           (or_intror (conj eq_refl catalogo_marcas_marca))).
Defined.

(* ===================================================================== *)
(** * The listing grouped by brand *)
(* ===================================================================== *)

Lemma flat_map_agree {A B} (f g : A -> list B) l :
  (forall a, In a l -> f a = g a) -> flat_map f l = flat_map g l.
Proof.
  induction l as [| x t IH]; intros H; simpl; [reflexivity |].
  rewrite (H x (or_introl eq_refl)), IH; [reflexivity |].
  intros a Ha. apply H. now right.
Qed.

Section GroupedFacts.
Context {A : Type}.
Variable brand : A -> jsstring.
Variable card : A -> Dom.element.
Variable compare : jsstring -> jsstring -> number.
(** The brands of the catalog. *)
Variable known : list jsstring.
Hypothesis compare_consistent : consistent compare.
Hypothesis compare_separating : tellsApart compare known.

Let LE (a b : jsstring) : Prop := collatesBefore compare a b.
Let sorted (l : list A) : Prop :=
  StronglySorted (fun x y => LE (brand x) (brand y)) l.
Let ofBrand (m : jsstring) (x : A) : bool := bool_decide (brand x = m).
Let listed (l : list A) : Prop := Forall (fun x => In (brand x) known) l.

Lemma collates_refl a : sameCollation compare a a = true.
Proof.
  destruct compare_consistent as [Hasym _].
  unfold sameCollation. destruct (gt0 (compare a a)) eqn:E; [| reflexivity].
  rewrite (Hasym a a E) in E. discriminate.
Qed.

Lemma collates_antisym a b :
  In a known -> In b known -> LE a b -> LE b a -> a = b.
Proof.
  unfold LE, collatesBefore. intros Ha Hb H1 H2.
  apply compare_separating; [exact Ha | exact Hb |].
  unfold sameCollation. now rewrite H1, H2.
Qed.

Lemma ofBrand_collation m x :
  In m known -> In (brand x) known ->
  ofBrand m x = sameCollation compare m (brand x).
Proof.
  intros Hm Hx. unfold ofBrand. destruct (decide (brand x = m)) as [E | N].
  - rewrite bool_decide_eq_true_2 by exact E.
    rewrite E. symmetry. apply collates_refl.
  - rewrite bool_decide_eq_false_2 by exact N.
    destruct (sameCollation compare m (brand x)) eqn:S; [| reflexivity].
    exfalso. apply N. symmetry. now apply compare_separating.
Qed.

Lemma titled_brands l : forall last b,
  In b (titled brand last l) -> exists y, In y l /\ brand y = b.
Proof.
  induction l as [| x t IH]; intros last b; simpl; [tauto |].
  rewrite in_app_iff. intros [H | H].
  - destruct (bool_decide _); [destruct H |].
    destruct H as [<- | []]. eauto.
  - destruct (IH _ _ H) as (y & Hy & E). eauto.
Qed.

Lemma brands_titled l : forall last y,
  In y l -> In (brand y) (titled brand last l) \/ last = Some (brand y).
Proof.
  induction l as [| x t IH]; intros last y; simpl; [tauto |].
  assert (Hx : In (brand x)
                 ((if bool_decide (Some (brand x) = last) then [] else [brand x])
                  ++ titled brand (Some (brand x)) t)
               \/ last = Some (brand x)).
  { destruct (decide (Some (brand x) = last)) as [E | N].
    - right. now symmetry.
    - left. rewrite bool_decide_eq_false_2 by exact N. now left. }
  intros [<- | Hy]; [exact Hx |].
  destruct (IH (Some (brand x)) y Hy) as [H | H].
  - left. rewrite in_app_iff. now right.
  - injection H as E. rewrite <- E. exact Hx.
Qed.

(** After a record of brand [b], in a sorted sequence, no record has a
    brand [m] that collates at or before [b] and differs from it. *)
Lemma no_later_brand m b t :
  In m known -> In b known ->
  LE m b -> Forall (fun y => LE b (brand y)) t -> b <> m ->
  Forall (fun z => brand z <> m) t.
Proof.
  intros Km Kb Hmb Hb Hne. eapply Forall_impl; [exact Hb |].
  intros z Hz E. apply Hne.
  apply collates_antisym; [exact Kb | exact Km | | exact Hmb].
  now rewrite <- E.
Qed.

Lemma filter_ofBrand_none m t :
  Forall (fun z => brand z <> m) t -> List.filter (ofBrand m) t = [].
Proof.
  induction 1 as [| z t Hz _ IH]; simpl; [reflexivity |].
  unfold ofBrand at 1. now rewrite bool_decide_eq_false_2.
Qed.

Lemma titled_not_last m l :
  In m known -> listed l ->
  sorted l -> Forall (fun y => LE m (brand y)) l ->
  ~ In m (titled brand (Some m) l).
Proof.
  intros Km Hl Hs. revert Hl.
  induction Hs as [| x t Hs IH Hx]; intros Hl Hm; simpl; [tauto |].
  apply Forall_cons_1 in Hm as [Hmx Hmt].
  apply Forall_cons_1 in Hl as [Kx Kt].
  rewrite in_app_iff. intros [H | H].
  - destruct (decide (Some (brand x) = Some m)) as [E | N].
    + rewrite bool_decide_eq_true_2 in H by exact E. destruct H.
    + rewrite bool_decide_eq_false_2 in H by exact N.
      destruct H as [E | []]. apply N. now rewrite E.
  - destruct (decide (brand x = m)) as [E | N].
    + rewrite E in H. now apply IH.
    + destruct (titled_brands _ _ _ H) as (y & Hy & Ey).
      pose proof (no_later_brand m (brand x) t Km Kx Hmx Hx N) as Hnone.
      rewrite List.Forall_forall in Hnone. exact (Hnone y Hy Ey).
Qed.

Lemma titled_NoDup l : forall last,
  listed l -> sorted l -> List.NoDup (titled brand last l).
Proof.
  induction l as [| x t IH]; intros last Hl Hs; simpl; [constructor |].
  apply StronglySorted_inv in Hs as [Hs Hx].
  apply Forall_cons_1 in Hl as [Kx Kt].
  assert (Hn : ~ In (brand x) (titled brand (Some (brand x)) t))
    by (apply titled_not_last; assumption).
  destruct (bool_decide _); simpl; [now apply IH |].
  constructor; [exact Hn | now apply IH].
Qed.

Lemma brandSection_tail x t rs :
  ~ In (brand x) rs ->
  flat_map (brandSection brand card (x :: t)) rs
  = flat_map (brandSection brand card t) rs.
Proof.
  intros Hn. apply flat_map_agree. intros b Hb.
  unfold brandSection. simpl List.filter.
  rewrite bool_decide_eq_false_2; [reflexivity |].
  intros E. apply Hn. now rewrite E.
Qed.

Lemma grouped_sections l : forall last,
  listed l -> sorted l ->
  (forall m, last = Some m ->
             In m known /\ Forall (fun y => LE m (brand y)) l) ->
  grouped brand card last l
  = match last with
    | Some m => List.map card (List.filter (ofBrand m) l)
    | None => []
    end ++ flat_map (brandSection brand card l) (titled brand last l).
Proof.
  induction l as [| x t IH]; intros last Hl Hs Hlast.
  - destruct last; reflexivity.
  - apply StronglySorted_inv in Hs as [Hs Hx].
    apply Forall_cons_1 in Hl as [Kx Kt].
    assert (Hn : ~ In (brand x) (titled brand (Some (brand x)) t))
      by (apply titled_not_last; assumption).
    simpl grouped. simpl titled.
    rewrite (IH (Some (brand x)) Kt Hs)
      by (intros m E; injection E as <-; split; [exact Kx | exact Hx]).
    destruct (decide (Some (brand x) = last)) as [E | N].
    + rewrite bool_decide_eq_true_2 by exact E. subst last.
      simpl. unfold ofBrand at 2.
      rewrite bool_decide_eq_true_2 by reflexivity.
      simpl. now rewrite brandSection_tail.
    + rewrite bool_decide_eq_false_2 by exact N.
      assert (Hfirst : match last with
                       | Some m => List.map card (List.filter (ofBrand m) (x :: t))
                       | None => []
                       end = []).
      { destruct last as [m |]; [| reflexivity].
        destruct (Hlast m eq_refl) as [Km Hm].
        apply Forall_cons_1 in Hm as [Hmx Hmt].
        assert (Hne : brand x <> m) by congruence.
        simpl. unfold ofBrand at 1.
        rewrite bool_decide_eq_false_2 by exact Hne.
        rewrite filter_ofBrand_none; [reflexivity |].
        apply (no_later_brand m (brand x) t Km Kx Hmx Hx Hne). }
      rewrite Hfirst. simpl app. simpl flat_map.
      rewrite brandSection_tail by exact Hn.
      unfold brandSection at 1. simpl List.filter.
      rewrite bool_decide_eq_true_2 by reflexivity. reflexivity.
Qed.

(** A sequence sorted by brand is shown as one section per brand. *)
Lemma grouped_by_brand l :
  listed l -> sorted l ->
  grouped brand card None l
  = flat_map (brandSection brand card l) (titled brand None l)
  /\ List.NoDup (titled brand None l)
  /\ (forall m, In m (titled brand None l) <-> exists y, In y l /\ brand y = m).
Proof.
  intros Hl Hs. split; [| split].
  - rewrite (grouped_sections l None Hl Hs) by discriminate. reflexivity.
  - apply titled_NoDup; assumption.
  - intros m. split; [apply titled_brands |].
    intros (y & Hy & <-).
    destruct (brands_titled l None y Hy) as [H | H]; [exact H | discriminate].
Qed.

(** The stable sort by brand, shown: one section per brand, each with
    the brand's records in their input order. *)
Lemma sorted_grouped items :
  listed items ->
  exists brands,
    grouped brand card None
      (sort_by (fun a b => gt0 (compare (brand a) (brand b))) items)
    = flat_map (brandSection brand card items) brands
    /\ List.NoDup brands
    /\ (forall m, In m brands <-> exists y, In y items /\ brand y = m).
Proof.
  intros Hl.
  destruct compare_consistent as [Hasym Htrans].
  set (gt := fun a b : A => gt0 (compare (brand a) (brand b))).
  assert (Hs : sorted (sort_by gt items)).
  { apply sort_by_sorted with (P := fun _ => True);
      [ intros a b _ _; apply Hasym
      | intros a b c _ _ _; apply Htrans
      | apply Forall_true; exact (fun _ => I) ]. }
  assert (Hl' : listed (sort_by gt items)) by (apply sort_by_Forall, Hl).
  destruct (grouped_by_brand _ Hl' Hs) as (Hg & Hnd & Hin).
  exists (titled brand None (sort_by gt items)).
  assert (Hperm : forall y, In y (sort_by gt items) <-> In y items).
  { intros y. split; apply Permutation_in;
      [apply sort_by_perm | symmetry; apply sort_by_perm]. }
  assert (Hk : forall y, In y items -> In (brand y) known).
  { intros y Hy. unfold listed in Hl. rewrite List.Forall_forall in Hl.
    now apply Hl. }
  split; [| split; [exact Hnd |]].
  - rewrite Hg. apply flat_map_agree. intros m Hm.
    apply Hin in Hm as (z & Hz & <-).
    assert (Kz : In (brand z) known) by (apply Hk, Hperm, Hz).
    unfold brandSection. do 3 f_equal.
    transitivity (List.filter (tied gt z) (sort_by gt items)).
    { apply List.filter_ext_in. intros x Hx.
      change (bool_decide (brand x = brand z)) with (ofBrand (brand z) x).
      rewrite ofBrand_collation; [reflexivity | exact Kz |].
      apply Hk, Hperm, Hx. }
    rewrite (sort_by_stable gt (fun _ => True));
      [ | intros a b c _ _ _; apply Htrans | exact I
        | apply Forall_true; exact (fun _ => I) ].
    apply List.filter_ext_in. intros x Hx.
    change (bool_decide (brand x = brand z)) with (ofBrand (brand z) x).
    rewrite ofBrand_collation; [reflexivity | exact Kz | apply Hk, Hx].
  - intros m. rewrite Hin. split; intros (y & Hy & E); exists y;
      (split; [apply Hperm, Hy | exact E]).
Qed.

End GroupedFacts.

(* ===================================================================== *)
(** * carros.js: what the page shows *)
(* ===================================================================== *)

Lemma marca_present (c : Carros.carro) :
  Carros.marca c <> None -> Carros.marca c = Some (marcaCarro c).
Proof. unfold marcaCarro. destruct (Carros.marca c); congruence. Qed.

Lemma marcaImovel_present (a : Imoveis.imovel) :
  Imoveis.marca a <> None -> Imoveis.marca a = Some (marcaImovel a).
Proof. unfold marcaImovel. destruct (Imoveis.marca a); congruence. Qed.

(** [carro.marca !== lastMarca] for a record with a brand, after records
    that had one. *)
Lemma decide_lastMarca (m : jsstring) (last : option jsstring) :
  bool_decide (Some (Some m) = option_map Some last)
  = bool_decide (Some m = last).
Proof.
  apply bool_decide_ext. destruct last; simpl; split; congruence.
Qed.

Lemma forEach_cons {A S} (f : A -> S -> result unit * S) x t s :
  forEach f (x :: t) s
  = match f x s with
    | (Ok _, s') => forEach f t s'
    | (Throw e, s') => (Throw e, s')
    end.
Proof. reflexivity. Qed.

Section CarrosPageFacts.
Variable numberToString : number -> jsstring.
Variable localeCompare : jsstring -> jsstring -> jsstring -> number.
Variable toLocaleString : number -> jsstring.
Variable imagens : Carros.carro -> option (list jsstring).

Let renderCard := CarrosPage.renderCard numberToString toLocaleString imagens.
Let card := CarrosPage.card numberToString toLocaleString.
Let renderImoveis := CarrosPage.renderImoveis numberToString toLocaleString imagens.
Let onChange :=
  CarrosPage.onChange numberToString localeCompare toLocaleString imagens.
Let selections :=
  CarrosPage.selections numberToString localeCompare toLocaleString imagens.

Lemma renderCard_ok m dsc c imgs last children :
  imagens c = Some imgs ->
  renderCard m dsc c (last, children)
  = (Ok tt,
     (Some (Carros.marca c),
      (if m && negb (bool_decide (Some (Carros.marca c) = last))
       then children ++ [brandTitle (marcaCarro c); separatorLine]
       else children) ++ [card m dsc c imgs])).
Proof.
  intros H. unfold renderCard, CarrosPage.renderCard. rewrite H. reflexivity.
Qed.

Lemma renderCard_throws m dsc c st :
  imagens c = None -> (renderCard m dsc c st).1 = Throw TypeError.
Proof.
  intros H. destruct st as [last children].
  unfold renderCard, CarrosPage.renderCard. rewrite H. reflexivity.
Qed.

(** With pictures and a brand on every record the loop runs to its end;
    in "marca_asc" mode it appends the records grouped under titles. *)
Lemma forEach_grouped fotos dsc items :
  Forall (fun c => imagens c = Some (fotos c)) items ->
  Forall (fun c => Carros.marca c <> None) items ->
  forall last children, exists last',
    forEach (renderCard true dsc) items (option_map Some last, children)
    = (Ok tt, (last',
               children ++ grouped marcaCarro
                             (fun c => card true dsc c (fotos c)) last items)).
Proof.
  induction 1 as [| c t Hc _ IH]; intros Hm last children.
  - eexists. simpl. now rewrite app_nil_r.
  - apply Forall_cons_1 in Hm as [Hmc Hmt].
    rewrite forEach_cons, (renderCard_ok _ _ _ _ _ _ Hc).
    rewrite (marca_present c Hmc), decide_lastMarca.
    simpl andb. simpl grouped.
    change (Some (Some (marcaCarro c)))
      with (option_map (@Some jsstring) (Some (marcaCarro c))).
    destruct (bool_decide (Some (marcaCarro c) = last)); simpl negb; cbv iota.
    + destruct (IH Hmt (Some (marcaCarro c))
                  (children ++ [card true dsc c (fotos c)])) as (l' & ->).
      exists l'. now rewrite <- app_assoc.
    + destruct (IH Hmt (Some (marcaCarro c))
                  ((children ++ [brandTitle (marcaCarro c); separatorLine])
                   ++ [card true dsc c (fotos c)])) as (l' & ->).
      exists l'. rewrite <- !app_assoc. reflexivity.
Qed.

(** In the other modes it appends the cards, one per record. *)
Lemma forEach_cards fotos dsc items :
  Forall (fun c => imagens c = Some (fotos c)) items ->
  forall last children, exists last',
    forEach (renderCard false dsc) items (last, children)
    = (Ok tt, (last',
               children ++ List.map (fun c => card false dsc c (fotos c)) items)).
Proof.
  induction 1 as [| c t Hc _ IH]; intros last children.
  - exists last. simpl. now rewrite app_nil_r.
  - rewrite forEach_cons, (renderCard_ok _ _ _ _ _ _ Hc).
    simpl andb. cbv iota.
    destruct (IH (Some (Carros.marca c))
                (children ++ [card false dsc c (fotos c)])) as (l' & ->).
    exists l'. simpl List.map. now rewrite <- app_assoc.
Qed.

(** The loop ends normally exactly when every record has pictures. *)
Lemma forEach_ok_iff m dsc items : forall st,
  (forEach (renderCard m dsc) items st).1 = Ok tt
  <-> Forall (fun c => imagens c <> None) items.
Proof.
  induction items as [| c t IH]; intros [last children].
  - split; [constructor | reflexivity].
  - rewrite forEach_cons.
    destruct (imagens c) as [imgs |] eqn:Hc.
    + rewrite (renderCard_ok _ _ _ _ _ _ Hc), IH. split.
      * intros Ht. constructor; [congruence | exact Ht].
      * intros Ht. now apply Forall_cons_1 in Ht as [_ Ht].
    + pose proof (renderCard_throws m dsc c (last, children) Hc) as Ht.
      destruct (renderCard m dsc c (last, children)) as [[u | e] s'];
        simpl in Ht; [discriminate |].
      simpl. split; [discriminate |].
      intros Hall. apply Forall_cons_1 in Hall as [Hn _]. congruence.
Qed.

(** What [sortImoveis] arranges the records as, when it returns. *)
Let arranged (v : jsstring) (items : list Carros.carro) : list Carros.carro :=
  if bool_decide (v = str "valor_asc") then
    sort_by (fun a b => gt0 (num_sub (precoPcdNumber a) (precoPcdNumber b))) items
  else if bool_decide (v = str "marca_asc") then
    sort_by (fun a b => gt0 (ptBR localeCompare (marcaCarro a) (marcaCarro b)))
            items
  else if bool_decide (v = str "desconto_desc") then
    sort_by (fun a b => gt0 (num_sub (Carros.calculateDesconto b)
                                      (Carros.calculateDesconto a))) items
  else items.

(** The mode does not compare brands, or every record has one. *)
Let sortable (v : jsstring) (items : list Carros.carro) : Prop :=
  v = str "marca_asc" -> Forall (fun c => Carros.marca c <> None) items.

Lemma carros_sort_keeps (h : store Carros.carro) data items v :
  h !! data = Some items ->
  (Carros.sortImoveis localeCompare data v h).2 !! data = Some items.
Proof.
  intros H. rewrite <- H.
  apply (carros_frame localeCompare h data v items H). rewrite H. eauto.
Qed.

Lemma carros_sort_outcome (h : store Carros.carro) data items v :
  h !! data = Some items ->
  sortable v items ->
  exists r h',
    Carros.sortImoveis localeCompare data v h = (Ok r, h')
    /\ h' !! r = Some (arranged v items)
    /\ h' !! data = Some items.
Proof.
  intros H Hm.
  pose proof (carros_sort_keeps h data items v H) as Hd.
  unfold arranged.
  destruct (decide (v = str "valor_asc")) as [-> | N1].
  { rewrite (carros_valor_asc localeCompare h data items H) in Hd |- *.
    eexists _, _. split; [reflexivity |].
    split; [apply lookup_insert_eq | exact Hd]. }
  rewrite (bool_decide_eq_false_2 _ N1).
  destruct (decide (v = str "marca_asc")) as [-> | N2].
  { rewrite (carros_marca_asc localeCompare h data items H (Hm eq_refl))
      in Hd |- *.
    eexists _, _. split; [reflexivity |].
    split; [apply lookup_insert_eq | exact Hd]. }
  rewrite (bool_decide_eq_false_2 _ N2).
  destruct (decide (v = str "desconto_desc")) as [-> | N3].
  { rewrite (carros_desconto_desc localeCompare h data items H) in Hd |- *.
    eexists _, _. split; [reflexivity |].
    split; [apply lookup_insert_eq | exact Hd]. }
  rewrite (bool_decide_eq_false_2 _ N3).
  rewrite (carros_fallback localeCompare h data v items H N1 N2 N3) in Hd |- *.
  eexists _, _. split; [reflexivity |]. split; exact Hd.
Qed.

(** The children [renderImoveis] leaves in the container. *)
Let shown (v : jsstring) (items : list Carros.carro) : list Dom.element :=
  (forEach (renderCard (bool_decide (v = str "marca_asc"))
                       (bool_decide (v = str "desconto_desc")))
           items (None, [])).2.2.

Lemma render_outcome r v (h : store Carros.carro) d items :
  h !! r = Some items ->
  Dom.lista (renderImoveis r v h d).2
    = match Dom.lista d with
      | Some _ => Some (shown v items)
      | None => None
      end
  /\ Dom.sortSelect (renderImoveis r v h d).2 = Dom.sortSelect d.
Proof.
  intros H. unfold renderImoveis, CarrosPage.renderImoveis, shown.
  destruct (Dom.lista d) eqn:Hl; [| simpl; now rewrite Hl].
  rewrite H. fold renderCard.
  destruct (forEach _ items (None, [])) as [res [last children]].
  split; reflexivity.
Qed.

(** A state in which a selection re-renders the listing: the listener
    was added, the selector exists and [imoveisData] holds [items]. *)
Let enabled (items : list Carros.carro) (st : CarrosPage.state) : Prop :=
  CarrosPage.listening st = true
  /\ is_Some (Dom.sortSelect (CarrosPage.doc st))
  /\ CarrosPage.heap st !! CarrosPage.imoveisData st = Some items.

Let disabled (st : CarrosPage.state) : Prop :=
  CarrosPage.listening st = false
  \/ Dom.sortSelect (CarrosPage.doc st) = None.

Lemma enabled_or_disabled items st :
  CarrosPage.heap st !! CarrosPage.imoveisData st = Some items ->
  disabled st \/ enabled items st.
Proof.
  unfold disabled, enabled. intros H.
  destruct (CarrosPage.listening st); [| now left; left].
  destruct (Dom.sortSelect (CarrosPage.doc st)); [| now left; right].
  right. eauto.
Qed.

Lemma onChange_disabled v st :
  disabled st ->
  Dom.lista (CarrosPage.doc (onChange v st)) = Dom.lista (CarrosPage.doc st)
  /\ disabled (onChange v st).
Proof.
  unfold disabled, onChange, CarrosPage.onChange.
  destruct (Dom.sortSelect (CarrosPage.doc st)) as [sel |] eqn:Hsel.
  2: { intros _. rewrite Hsel. split; [reflexivity | now right]. }
  destruct (CarrosPage.listening st) eqn:Hlis.
  2: { intros _. simpl. split; [reflexivity | now left]. }
  intros [H | H]; discriminate.
Qed.

Lemma onChange_enabled v items st :
  sortable v items ->
  enabled items st ->
  Dom.lista (CarrosPage.doc (onChange v st))
    = match Dom.lista (CarrosPage.doc st) with
      | Some _ => Some (shown v (arranged v items))
      | None => None
      end
  /\ enabled items (onChange v st).
Proof.
  intros Hm (Hlis & [sel Hsel] & Hdata).
  unfold onChange, CarrosPage.onChange. rewrite Hsel, Hlis.
  destruct (carros_sort_outcome _ _ _ v Hdata Hm) as (r & h' & -> & Hr & Hd).
  destruct (render_outcome r v h' (Dom.withSelected v (CarrosPage.doc st))
              (arranged v items) Hr) as [Hl Hs].
  fold renderImoveis. simpl. rewrite Hl. simpl.
  split; [reflexivity |].
  unfold enabled. simpl.
  split; [reflexivity |]. split; [rewrite Hs; simpl; eauto | exact Hd].
Qed.

Lemma selections_snoc options v st :
  selections (options ++ [v]) st = onChange v (selections options st).
Proof.
  unfold selections, CarrosPage.selections. now rewrite fold_left_app.
Qed.

Lemma selections_disabled options : forall st,
  disabled st ->
  Dom.lista (CarrosPage.doc (selections options st))
    = Dom.lista (CarrosPage.doc st)
  /\ disabled (selections options st).
Proof.
  induction options as [| v t IH]; intros st Hd; [split; [reflexivity | exact Hd] |].
  destruct (onChange_disabled v st Hd) as [Hl Hd'].
  destruct (IH (onChange v st) Hd') as [Hl' Hd''].
  split; [| exact Hd'']. etransitivity; [exact Hl' | exact Hl].
Qed.

Lemma selections_enabled items options : forall st,
  (forall v, In v options -> sortable v items) ->
  enabled items st ->
  enabled items (selections options st)
  /\ (is_Some (Dom.lista (CarrosPage.doc (selections options st)))
      <-> is_Some (Dom.lista (CarrosPage.doc st))).
Proof.
  induction options as [| v t IH]; intros st Hm He;
    [split; [exact He | reflexivity] |].
  destruct (onChange_enabled v items st (Hm v (or_introl eq_refl)) He)
    as [Hl He'].
  destruct (IH (onChange v st) (fun w Hw => Hm w (or_intror Hw)) He')
    as [He'' Hs].
  split; [exact He'' |]. etransitivity; [exact Hs |].
  fold onChange. rewrite Hl.
  destruct (Dom.lista (CarrosPage.doc st)); split; intros [x Hx];
    try discriminate; eauto.
Qed.

Lemma last_selection_decides items options v st :
  CarrosPage.heap st !! CarrosPage.imoveisData st = Some items ->
  (In (str "marca_asc") (options ++ [v]) ->
   Forall (fun c => Carros.marca c <> None) items) ->
  Dom.lista (CarrosPage.doc (selections (options ++ [v]) st))
  = Dom.lista (CarrosPage.doc (onChange v st)).
Proof.
  intros Hdata Hm. rewrite selections_snoc.
  destruct (enabled_or_disabled items st Hdata) as [Hd | He].
  - destruct (selections_disabled options st Hd) as [Hl Hd'].
    rewrite (proj1 (onChange_disabled v _ Hd')), Hl.
    symmetry. apply onChange_disabled, Hd.
  - assert (Hv : sortable v items).
    { intros ->. apply Hm, in_or_app. right. now left. }
    assert (Ho : forall w, In w options -> sortable w items).
    { intros w Hw ->. apply Hm, in_or_app. now left. }
    destruct (selections_enabled items options st Ho He) as [He' Hs].
    rewrite (proj1 (onChange_enabled v items _ Hv He')).
    rewrite (proj1 (onChange_enabled v items _ Hv He)).
    destruct (Dom.lista (CarrosPage.doc (selections options st))) eqn:E1,
             (Dom.lista (CarrosPage.doc st)) eqn:E2; try reflexivity.
    + destruct (proj1 Hs) as [x Hx]; [eauto | discriminate].
    + destruct (proj2 Hs) as [x Hx]; [eauto | discriminate].
Qed.

Lemma arranged_perm v items : Permutation (arranged v items) items.
Proof.
  unfold arranged.
  repeat (destruct (bool_decide _); [apply sort_by_perm |]). reflexivity.
Qed.

Lemma render_ok_iff r v (h : store Carros.carro) d items :
  h !! r = Some items ->
  (renderImoveis r v h d).1 = Ok tt
  <-> Dom.lista d = None \/ Forall (fun c => imagens c <> None) items.
Proof.
  intros H. unfold renderImoveis, CarrosPage.renderImoveis.
  destruct (Dom.lista d) eqn:Hl; [| simpl; split; auto].
  rewrite H. fold renderCard.
  rewrite <- (forEach_ok_iff (bool_decide (v = str "marca_asc"))
                (bool_decide (v = str "desconto_desc")) items (None, [])).
  destruct (forEach _ items (None, [])) as [res [last children]]. simpl.
  split; [auto | intros [? | ?]; [discriminate | assumption]].
Qed.

Lemma render_sortSelect r v (h : store Carros.carro) d :
  Dom.sortSelect (renderImoveis r v h d).2 = Dom.sortSelect d.
Proof.
  unfold renderImoveis, CarrosPage.renderImoveis.
  destruct (Dom.lista d); [| reflexivity].
  destruct (h !! r) as [items |]; [| reflexivity].
  destruct (forEach _ items (None, [])) as [res [last children]]. reflexivity.
Qed.

Lemma load_listening res st :
  CarrosPage.listening st = false ->
  (Dom.sortSelect (CarrosPage.doc st) = Some (str "marca_asc") ->
   forall status carros,
     res = Dom.Response true status (Some carros) ->
     Forall (fun c => Carros.marca c <> None) carros) ->
  CarrosPage.listening
    (CarrosPage.onDOMContentLoaded numberToString localeCompare toLocaleString
       imagens res st) = true
  <-> exists status carros,
        res = Dom.Response true status (Some carros)
        /\ is_Some (Dom.sortSelect (CarrosPage.doc st))
        /\ (Dom.lista (CarrosPage.doc st) = None
            \/ Forall (fun c => imagens c <> None) carros).
Proof.
  intros Hlis Hm. unfold CarrosPage.onDOMContentLoaded.
  destruct res as [| [] status [carros |]]; simpl;
    try (rewrite Hlis; split; [discriminate | intros (? & ? & ? & _); discriminate]).
  set (data := fresh (dom (CarrosPage.heap st))).
  set (h := <[data := carros]> (CarrosPage.heap st)).
  set (v := match Dom.sortSelect (CarrosPage.doc st) with
            | Some v => v
            | None => str "default"
            end).
  assert (Hdata : h !! data = Some carros) by apply lookup_insert_eq.
  assert (Hv : sortable v carros).
  { intros E. apply (fun Hs => Hm Hs status carros eq_refl).
    unfold v in E. destruct (Dom.sortSelect (CarrosPage.doc st));
      [now rewrite E | discriminate]. }
  destruct (carros_sort_outcome h data carros v Hdata Hv)
    as (r & h' & -> & Hr & _).
  pose proof (render_ok_iff r v h' (CarrosPage.doc st) _ Hr) as Hok.
  pose proof (render_sortSelect r v h' (CarrosPage.doc st)) as Hsel.
  fold renderImoveis.
  destruct (renderImoveis r v h' (CarrosPage.doc st)) as [[[] | e] d'] eqn:Hrender;
    simpl in Hok, Hsel |- *.
  - rewrite Hlis, Hsel. simpl. rewrite bool_decide_eq_true. split.
    + intros Hs. exists status, carros. split; [reflexivity |].
      split; [exact Hs |].
      destruct (proj1 Hok eq_refl) as [Hn | Hall]; [now left | right].
      eapply Permutation_Forall; [apply arranged_perm | exact Hall].
    + intros (? & ? & _ & Hs & _). exact Hs.
  - rewrite Hlis. split; [discriminate |].
    intros (s' & c' & E & _ & Himg). injection E as _ <-.
    assert (Hno : Throw e = Ok tt); [| discriminate].
    apply Hok. destruct Himg as [Hn | Hall]; [now left | right].
    eapply Permutation_Forall; [symmetry; apply arranged_perm | exact Hall].
Qed.

Lemma not_listening_frozen st options :
  CarrosPage.listening st = false ->
  Dom.lista (CarrosPage.doc (selections options st))
  = Dom.lista (CarrosPage.doc st).
Proof.
  intros H. apply selections_disabled. now left.
Qed.

(** The listing of the stable sort by brand. *)
Lemma marca_asc_shown fotos (h : store Carros.carro) data items d :
  consistent (ptBR localeCompare) ->
  tellsApart (ptBR localeCompare) (List.map marcaCarro items) ->
  h !! data = Some items ->
  Forall (fun c => Carros.marca c <> None) items ->
  Forall (fun c => imagens c = Some (fotos c)) items ->
  is_Some (Dom.lista d) ->
  exists r h' brands,
    Carros.sortImoveis localeCompare data (str "marca_asc") h = (Ok r, h')
    /\ renderImoveis r (str "marca_asc") h' d
       = (Ok tt,
          Dom.withLista
            (flat_map
               (brandSection marcaCarro
                  (fun c => card true false c (fotos c)) items)
               brands) d)
    /\ List.NoDup brands
    /\ (forall m, In m brands
                  <-> exists c, In c items /\ Carros.marca c = Some m).
Proof.
  intros Hc Hsep H Hm Himg [children0 Hl].
  rewrite (carros_marca_asc localeCompare h data items H Hm).
  set (gt := fun a b : Carros.carro =>
               gt0 (ptBR localeCompare (marcaCarro a) (marcaCarro b))).
  assert (Hk : Forall (fun c => In (marcaCarro c) (List.map marcaCarro items))
                 items).
  { apply List.Forall_forall. intros c Hin. now apply in_map. }
  destruct (sorted_grouped marcaCarro (fun c => card true false c (fotos c))
              (ptBR localeCompare) (List.map marcaCarro items) Hc Hsep items Hk)
    as (brands & Hg & Hnd & Hin).
  fold gt in Hg.
  exists (fresh (dom h)), (<[fresh (dom h) := sort_by gt items]> h), brands.
  split; [reflexivity |]. split; [| split; [exact Hnd |]].
  - unfold renderImoveis, CarrosPage.renderImoveis.
    rewrite Hl, lookup_insert_eq.
    rewrite bool_decide_eq_true_2 by reflexivity.
    rewrite bool_decide_eq_false_2 by discriminate.
    fold renderCard.
    destruct (forEach_grouped fotos false (sort_by gt items)
                (sort_by_Forall gt _ items Himg)
                (sort_by_Forall gt _ items Hm) None []) as (last' & E).
    simpl option_map in E. rewrite E.
    simpl app. fold card. rewrite Hg. reflexivity.
  - intros m. rewrite Hin. rewrite List.Forall_forall in Hm.
    split; intros (c & Hcin & E); exists c; (split; [exact Hcin |]).
    + rewrite (marca_present c (Hm c Hcin)). now rewrite E.
    + unfold marcaCarro. now rewrite E.
Qed.

Lemma renderCard_none m dsc c last children :
  imagens c = None ->
  renderCard m dsc c (last, children)
  = (Throw TypeError,
     (last,
      if m && negb (bool_decide (Some (Carros.marca c) = last))
      then children ++ [brandTitle (marcaCarro c); separatorLine]
      else children)).
Proof.
  intros H. unfold renderCard, CarrosPage.renderCard. rewrite H. reflexivity.
Qed.

(** The loop stops at the first record without pictures. *)
Lemma forEach_stops fotos dsc pre bad post :
  Forall (fun c => imagens c = Some (fotos c)) pre ->
  imagens bad = None ->
  forall last children, exists last',
    forEach (renderCard false dsc) (pre ++ bad :: post) (last, children)
    = (Throw TypeError,
       (last', children ++ List.map (fun c => card false dsc c (fotos c)) pre)).
Proof.
  intros Hpre Hbad. induction Hpre as [| c t Hc _ IH]; intros last children.
  - exists last. simpl app at 1. rewrite forEach_cons, renderCard_none by exact Hbad.
    simpl. now rewrite app_nil_r.
  - simpl app at 1. rewrite forEach_cons, (renderCard_ok _ _ _ _ _ _ Hc).
    simpl andb. cbv iota.
    destruct (IH (Some (Carros.marca c))
                (children ++ [card false dsc c (fotos c)])) as (l' & ->).
    exists l'. simpl List.map. now rewrite <- app_assoc.
Qed.

Lemma render_cards fotos r v (h : store Carros.carro) d items :
  h !! r = Some items ->
  is_Some (Dom.lista d) ->
  v <> str "marca_asc" ->
  Forall (fun c => imagens c = Some (fotos c)) items ->
  renderImoveis r v h d
  = (Ok tt,
     Dom.withLista
       (List.map (fun c => card false (bool_decide (v = str "desconto_desc"))
                             c (fotos c)) items) d).
Proof.
  intros H [children0 Hl] Hv Hall.
  unfold renderImoveis, CarrosPage.renderImoveis. rewrite Hl, H.
  rewrite (bool_decide_eq_false_2 _ Hv). fold renderCard.
  destruct (forEach_cards fotos (bool_decide (v = str "desconto_desc"))
              items Hall None []) as (last' & ->).
  reflexivity.
Qed.

Lemma render_stops fotos r v (h : store Carros.carro) d pre bad post :
  h !! r = Some (pre ++ bad :: post) ->
  is_Some (Dom.lista d) ->
  v <> str "marca_asc" ->
  Forall (fun c => imagens c = Some (fotos c)) pre ->
  imagens bad = None ->
  renderImoveis r v h d
  = (Throw TypeError,
     Dom.withLista
       (List.map (fun c => card false (bool_decide (v = str "desconto_desc"))
                             c (fotos c)) pre) d).
Proof.
  intros H [children0 Hl] Hv Hpre Hbad.
  unfold renderImoveis, CarrosPage.renderImoveis. rewrite Hl, H.
  rewrite (bool_decide_eq_false_2 _ Hv). fold renderCard.
  destruct (forEach_stops fotos (bool_decide (v = str "desconto_desc"))
              pre bad post Hpre Hbad None []) as (last' & ->).
  reflexivity.
Qed.

(** Whether the sort returns or throws, [imoveisData] holds what it
    held. *)
Lemma onChange_keeps_data v items st :
  CarrosPage.heap st !! CarrosPage.imoveisData st = Some items ->
  CarrosPage.heap (onChange v st) !! CarrosPage.imoveisData (onChange v st)
  = Some items.
Proof.
  intros H. unfold onChange, CarrosPage.onChange.
  destruct (Dom.sortSelect (CarrosPage.doc st)); [| exact H].
  destruct (CarrosPage.listening st); [| exact H].
  pose proof (carros_sort_keeps _ _ _ v H) as Hd.
  destruct (Carros.sortImoveis localeCompare (CarrosPage.imoveisData st) v
              (CarrosPage.heap st)) as [[r | e] h']; exact Hd.
Qed.

Lemma selections_keep_data items options : forall st,
  CarrosPage.heap st !! CarrosPage.imoveisData st = Some items ->
  CarrosPage.heap (selections options st)
    !! CarrosPage.imoveisData (selections options st) = Some items.
Proof.
  induction options as [| v t IH]; intros st H; [exact H |].
  apply (IH (onChange v st)), onChange_keeps_data, H.
Qed.

Lemma load_keeps_data status carros st :
  CarrosPage.heap
    (CarrosPage.onDOMContentLoaded numberToString localeCompare toLocaleString
       imagens (Dom.Response true status (Some carros)) st)
  !! CarrosPage.imoveisData
       (CarrosPage.onDOMContentLoaded numberToString localeCompare
          toLocaleString imagens (Dom.Response true status (Some carros)) st)
  = Some carros.
Proof.
  unfold CarrosPage.onDOMContentLoaded. simpl negb. cbv iota.
  set (data := fresh (dom (CarrosPage.heap st))).
  set (h := <[data := carros]> (CarrosPage.heap st)).
  set (v := match Dom.sortSelect (CarrosPage.doc st) with
            | Some v => v
            | None => str "default"
            end).
  assert (Hdata : h !! data = Some carros) by apply lookup_insert_eq.
  pose proof (carros_sort_keeps h data carros v Hdata) as Hd.
  destruct (Carros.sortImoveis localeCompare data v h) as [[r | e] h'];
    [| exact Hd].
  destruct (CarrosPage.renderImoveis _ _ _ r v h' (CarrosPage.doc st))
    as [[[] | e] d']; exact Hd.
Qed.

(** With the selector on "default", or without a selector, the load
    shows the catalog in the order of the file. *)
Lemma load_default_listing fotos status carros st :
  Dom.sortSelect (CarrosPage.doc st) = None
  \/ Dom.sortSelect (CarrosPage.doc st) = Some (str "default") ->
  is_Some (Dom.lista (CarrosPage.doc st)) ->
  Forall (fun c => imagens c = Some (fotos c)) carros ->
  CarrosPage.doc
    (CarrosPage.onDOMContentLoaded numberToString localeCompare toLocaleString
       imagens (Dom.Response true status (Some carros)) st)
  = Dom.withLista
      (List.map (fun c => card false false c (fotos c)) carros)
      (CarrosPage.doc st).
Proof.
  intros Hsel Hl Hall.
  unfold CarrosPage.onDOMContentLoaded. simpl negb. cbv iota.
  set (data := fresh (dom (CarrosPage.heap st))).
  set (h := <[data := carros]> (CarrosPage.heap st)).
  assert (Hdata : h !! data = Some carros) by apply lookup_insert_eq.
  assert (Hv : match Dom.sortSelect (CarrosPage.doc st) with
               | Some v => v
               | None => str "default"
               end = str "default")
    by (destruct Hsel as [-> | ->]; reflexivity).
  rewrite Hv.
  rewrite (carros_fallback localeCompare h data (str "default") carros Hdata)
    by discriminate.
  assert (Hd : (<[fresh (dom h) := carros]> h) !! data = Some carros).
  { rewrite <- Hdata. apply unchanged_alloc. rewrite Hdata. eauto. }
  pose proof (render_cards fotos data (str "default") _ (CarrosPage.doc st)
                carros Hd Hl ltac:(discriminate) Hall) as Hr.
  unfold renderImoveis in Hr. rewrite Hr. reflexivity.
Qed.

End CarrosPageFacts.

Lemma catalogo_marcas_told_apart :
  tellsApart (ptBR collateBase) (List.map marcaCarro catalogo_marcas).
Proof.
  intros a b Ha Hb.
  change (List.map marcaCarro catalogo_marcas)
    with [str "Zeta"; alamo; str "Alfa"; str "Zeta"] in Ha, Hb.
  destruct Ha as [<- | [<- | [<- | [<- | []]]]];
    destruct Hb as [<- | [<- | [<- | [<- | []]]]];
    intros H; try reflexivity; vm_compute in H; discriminate.
Qed.

(** X9.  Sorting by brand and showing the result groups the catalog by
    brand.  For a catalog whose records all have a brand and pictures,
    a consistent collation under which no two different brands of the
    catalog compare as equal, and a page with the listing container:
    [sortImoveis] in mode "marca_asc" followed by [renderImoveis] ends
    normally and leaves in the container, whatever it held, one section
    per brand of the catalog, each brand once: the brand's title, the
    separator and the cards of the brand's records in their catalog
    order. *)
Theorem marca_asc_listing_grouped
    (numberToString : number -> jsstring)
    (localeCompare : jsstring -> jsstring -> jsstring -> number)
    (toLocaleString : number -> jsstring)
    (imagens : Carros.carro -> option (list jsstring))
    (fotos : Carros.carro -> list jsstring)
    (h : store Carros.carro) (data : loc) (items : list Carros.carro)
    (d : Dom.page) :
  consistent (ptBR localeCompare) ->
  tellsApart (ptBR localeCompare) (List.map marcaCarro items) ->
  h !! data = Some items ->
  Forall (fun c => Carros.marca c <> None) items ->
  Forall (fun c => imagens c = Some (fotos c)) items ->
  is_Some (Dom.lista d) ->
  exists r h' brands,
    Carros.sortImoveis localeCompare data (str "marca_asc") h = (Ok r, h')
    /\ CarrosPage.renderImoveis numberToString toLocaleString imagens
         r (str "marca_asc") h' d
       = (Ok tt,
          Dom.withLista
            (flat_map
               (brandSection marcaCarro
                  (fun c => CarrosPage.card numberToString toLocaleString
                              true false c (fotos c)) items)
               brands) d)
    /\ List.NoDup brands
    /\ (forall m, In m brands
                  <-> exists c, In c items /\ Carros.marca c = Some m).
Proof.
  intros Hc Hsep H Hm Himg Hl.
  exact (marca_asc_shown numberToString localeCompare toLocaleString imagens
           fotos h data items d Hc Hsep H Hm Himg Hl).
Qed.

Lemma marca_asc_listing_grouped_witness :
  consistent (ptBR collateBase)
  /\ tellsApart (ptBR collateBase) (List.map marcaCarro catalogo_marcas)
  /\ store_carros !! 1%positive = Some catalogo_marcas
  /\ Forall (fun c => Carros.marca c <> None) catalogo_marcas
  /\ Forall (fun c => Some (fotos c) = Some (fotos c)) catalogo_marcas
  /\ is_Some (Dom.lista pagina)
  /\ exists r h' brands,
       Carros.sortImoveis collateBase 1%positive (str "marca_asc") store_carros
         = (Ok r, h')
       /\ CarrosPage.renderImoveis (fun _ => []) (fun _ => [])
            (fun c => Some (fotos c)) r (str "marca_asc") h' pagina
          = (Ok tt,
             Dom.withLista
               (flat_map
                  (brandSection marcaCarro
                     (fun c => CarrosPage.card (fun _ => []) (fun _ => [])
                                 true false c (fotos c)) catalogo_marcas)
                  brands) pagina)
       /\ List.NoDup brands
       /\ (forall m, In m brands
                     <-> exists c, In c catalogo_marcas
                                   /\ Carros.marca c = Some m).
Proof.
  assert (H1 : store_carros !! 1%positive = Some catalogo_marcas) by reflexivity.
  assert (H2 : Forall (fun c => Some (fotos c) = Some (fotos c)) catalogo_marcas)
    by (apply Forall_true; reflexivity).
  assert (H3 : is_Some (Dom.lista pagina)) by (simpl; eauto).
  split; [exact collateBase_consistent |].
  split; [exact catalogo_marcas_told_apart |].
  split; [exact H1 |]. split; [exact catalogo_marcas_marca |].
  split; [exact H2 |]. split; [exact H3 |].
  exact (marca_asc_listing_grouped (fun _ => []) collateBase (fun _ => [])
           (fun c => Some (fotos c)) fotos store_carros 1%positive
           catalogo_marcas pagina collateBase_consistent
           catalogo_marcas_told_apart H1 catalogo_marcas_marca H2 H3).
Defined.

(** X10.  The listing depends on the last selection only.  From a state
    of the page in which [imoveisData] holds the catalog, in particular
    the one [DOMContentLoaded] leaves, a sequence of selections ending
    with [v] leaves the same children in the listing container as the
    selection of [v] alone, provided that, if "marca_asc" is among the
    selections, every record has a [marca] (a sort by brand that meets a
    record without one can throw, and the listing then stays as the
    selection before left it): every selection sorts the catalog as it
    was loaded, which no earlier selection has changed, and renders into
    the emptied container. *)
Theorem listing_follows_last_selection
    (numberToString : number -> jsstring)
    (localeCompare : jsstring -> jsstring -> jsstring -> number)
    (toLocaleString : number -> jsstring)
    (imagens : Carros.carro -> option (list jsstring))
    (st : CarrosPage.state) (items : list Carros.carro)
    (options : list jsstring) (v : jsstring) :
  CarrosPage.heap st !! CarrosPage.imoveisData st = Some items ->
  (In (str "marca_asc") (options ++ [v]) ->
   Forall (fun c => Carros.marca c <> None) items) ->
  Dom.lista
    (CarrosPage.doc
       (CarrosPage.selections numberToString localeCompare toLocaleString
          imagens (options ++ [v]) st))
  = Dom.lista
      (CarrosPage.doc
         (CarrosPage.onChange numberToString localeCompare toLocaleString
            imagens v st)).
Proof.
  intros Hdata Hm.
  exact (last_selection_decides numberToString localeCompare toLocaleString
           imagens items options v st Hdata Hm).
Qed.

Lemma listing_follows_last_selection_witness :
  CarrosPage.heap carros_carregado
    !! CarrosPage.imoveisData carros_carregado = Some catalogo_marcas
  /\ (In (str "marca_asc") ([str "marca_asc"; str "desconto_desc"] ++ [str "valor_asc"]) ->
      Forall (fun c => Carros.marca c <> None) catalogo_marcas)
  /\ Dom.lista
       (CarrosPage.doc
          (CarrosPage.selections (fun _ => []) collateBase (fun _ => [])
             (fun c => Some (fotos c))
             ([str "marca_asc"; str "desconto_desc"] ++ [str "valor_asc"])
             carros_carregado))
     = Dom.lista
         (CarrosPage.doc
            (CarrosPage.onChange (fun _ => []) collateBase (fun _ => [])
               (fun c => Some (fotos c)) (str "valor_asc") carros_carregado)).
Proof.
  assert (H1 : CarrosPage.heap carros_carregado
                 !! CarrosPage.imoveisData carros_carregado
               = Some catalogo_marcas) by (vm_compute; reflexivity).
  assert (H2 : In (str "marca_asc")
                 ([str "marca_asc"; str "desconto_desc"] ++ [str "valor_asc"]) ->
               Forall (fun c => Carros.marca c <> None) catalogo_marcas)
    by (intros _; exact catalogo_marcas_marca).
  split; [exact H1 |]. split; [exact H2 |].
  exact (listing_follows_last_selection (fun _ => []) collateBase (fun _ => [])
           (fun c => Some (fotos c)) carros_carregado catalogo_marcas
           [str "marca_asc"; str "desconto_desc"] (str "valor_asc") H1 H2).
Defined.

(** X11.  The selector works only after a complete load.  When the
    selector is not on "marca_asc", or every record of the response has
    a [marca] (so that the first sort returns), the [DOMContentLoaded]
    handler adds the [change] listener in exactly one case: the
    response is ok, its body is JSON, the page has the selector, and the
    first rendering ended normally (the container is missing, or every
    record has pictures).  And whenever the listener was not added, a
    failed fetch or one record without pictures, no later selection
    changes the listing. *)
Theorem selector_listens_iff
    (numberToString : number -> jsstring)
    (localeCompare : jsstring -> jsstring -> jsstring -> number)
    (toLocaleString : number -> jsstring)
    (imagens : Carros.carro -> option (list jsstring))
    (res : Dom.fetched Carros.carro) (st : CarrosPage.state) :
  CarrosPage.listening st = false ->
  ((Dom.sortSelect (CarrosPage.doc st) = Some (str "marca_asc") ->
    forall status carros,
      res = Dom.Response true status (Some carros) ->
      Forall (fun c => Carros.marca c <> None) carros) ->
   (CarrosPage.listening
      (CarrosPage.onDOMContentLoaded numberToString localeCompare
         toLocaleString imagens res st) = true
    <-> exists status carros,
          res = Dom.Response true status (Some carros)
          /\ is_Some (Dom.sortSelect (CarrosPage.doc st))
          /\ (Dom.lista (CarrosPage.doc st) = None
              \/ Forall (fun c => imagens c <> None) carros)))
  /\ (CarrosPage.listening
        (CarrosPage.onDOMContentLoaded numberToString localeCompare
           toLocaleString imagens res st) = false ->
      forall options,
        Dom.lista
          (CarrosPage.doc
             (CarrosPage.selections numberToString localeCompare
                toLocaleString imagens options
                (CarrosPage.onDOMContentLoaded numberToString localeCompare
                   toLocaleString imagens res st)))
        = Dom.lista
            (CarrosPage.doc
               (CarrosPage.onDOMContentLoaded numberToString localeCompare
                  toLocaleString imagens res st))).
Proof.
  intros Hlis. split.
  - intros Hm. apply load_listening; assumption.
  - intros Hoff options. apply not_listening_frozen, Hoff.
Qed.

Lemma selector_listens_iff_witness :
  CarrosPage.listening carros_inicio_marca = false
  /\ CarrosPage.listening
       (CarrosPage.onDOMContentLoaded (fun _ => []) collateBase (fun _ => [])
          (fun c => Some (fotos c))
          (Dom.Response true 200 (Some catalogo_marcas)) carros_inicio_marca)
     = true
  /\ CarrosPage.listening
       (CarrosPage.onDOMContentLoaded (fun _ => []) collateBase (fun _ => [])
          (fun _ => None)
          (Dom.Response true 200 (Some catalogo_marcas)) carros_inicio_marca)
     = false.
Proof.
  assert (H : CarrosPage.listening carros_inicio_marca = false) by reflexivity.
  split; [exact H |]. split.
  - apply (proj1 (selector_listens_iff (fun _ => []) collateBase (fun _ => [])
                    (fun c => Some (fotos c))
                    (Dom.Response true 200 (Some catalogo_marcas))
                    carros_inicio_marca H)).
    + intros _ status carros E. injection E as _ <-.
      exact catalogo_marcas_marca.
    + exists 200%N, catalogo_marcas. split; [reflexivity |].
      split; [simpl; eauto |]. right. apply Forall_true. discriminate.
  - vm_compute. reflexivity.
Defined.

(* ===================================================================== *)
(** * imoveis.js: what the page shows *)
(* ===================================================================== *)

Section ImoveisPageFacts.
Variable localeCompare : jsstring -> jsstring -> jsstring -> number.
Variable imagens : Imoveis.imovel -> option (list jsstring).
Variable localizacao : Imoveis.imovel -> option jsstring.

Let renderCard := ImoveisPage.renderCard imagens localizacao.
Let card := ImoveisPage.card localizacao.
Let renderImoveis := ImoveisPage.renderImoveis imagens localizacao.
Let onChange := ImoveisPage.onChange localeCompare imagens localizacao.
Let selections := ImoveisPage.selections localeCompare imagens localizacao.

Lemma imoveis_renderCard_ok m a imgs last children :
  imagens a = Some imgs ->
  renderCard m a (last, children)
  = (Ok tt,
     (Some (Imoveis.marca a),
      (if m && negb (bool_decide (Some (Imoveis.marca a) = last))
       then children ++ [brandTitle (marcaImovel a); separatorLine]
       else children) ++ [card a imgs])).
Proof.
  intros H. unfold renderCard, ImoveisPage.renderCard. rewrite H. reflexivity.
Qed.

Lemma imoveis_forEach_grouped fotos items :
  Forall (fun a => imagens a = Some (fotos a)) items ->
  Forall (fun a => Imoveis.marca a <> None) items ->
  forall last children, exists last',
    forEach (renderCard true) items (option_map Some last, children)
    = (Ok tt, (last',
               children ++ grouped marcaImovel
                             (fun a => card a (fotos a)) last items)).
Proof.
  induction 1 as [| a t Ha _ IH]; intros Hm last children.
  - eexists. simpl. now rewrite app_nil_r.
  - apply Forall_cons_1 in Hm as [Hma Hmt].
    rewrite forEach_cons, (imoveis_renderCard_ok _ _ _ _ _ Ha).
    rewrite (marcaImovel_present a Hma), decide_lastMarca.
    simpl andb. simpl grouped.
    change (Some (Some (marcaImovel a)))
      with (option_map (@Some jsstring) (Some (marcaImovel a))).
    destruct (bool_decide (Some (marcaImovel a) = last)); simpl negb; cbv iota.
    + destruct (IH Hmt (Some (marcaImovel a))
                  (children ++ [card a (fotos a)])) as (l' & ->).
      exists l'. now rewrite <- app_assoc.
    + destruct (IH Hmt (Some (marcaImovel a))
                  ((children ++ [brandTitle (marcaImovel a); separatorLine])
                   ++ [card a (fotos a)])) as (l' & ->).
      exists l'. rewrite <- !app_assoc. reflexivity.
Qed.

Lemma imoveis_marca_asc_shown fotos (h : store Imoveis.imovel) data items d :
  consistent (ptBR localeCompare) ->
  tellsApart (ptBR localeCompare) (List.map marcaImovel items) ->
  h !! data = Some items ->
  Forall (fun a => Imoveis.marca a <> None) items ->
  Forall (fun a => imagens a = Some (fotos a)) items ->
  is_Some (Dom.lista d) ->
  exists r h' brands,
    Imoveis.sortImoveis localeCompare data (str "marca_asc") h = (Ok r, h')
    /\ renderImoveis r (str "marca_asc") h' d
       = (Ok tt,
          Dom.withLista
            (flat_map
               (brandSection marcaImovel (fun a => card a (fotos a)) items)
               brands) d)
    /\ List.NoDup brands
    /\ (forall m, In m brands
                  <-> exists a, In a items /\ Imoveis.marca a = Some m).
Proof.
  intros Hc Hsep H Hm Himg [children0 Hl].
  rewrite (imoveis_marca_asc localeCompare h data items H Hm).
  set (gt := fun a b : Imoveis.imovel =>
               gt0 (ptBR localeCompare (marcaImovel a) (marcaImovel b))).
  assert (Hk : Forall (fun a => In (marcaImovel a) (List.map marcaImovel items))
                 items).
  { apply List.Forall_forall. intros a Hin. now apply in_map. }
  destruct (sorted_grouped marcaImovel (fun a => card a (fotos a))
              (ptBR localeCompare) (List.map marcaImovel items) Hc Hsep items Hk)
    as (brands & Hg & Hnd & Hin).
  fold gt in Hg.
  exists (fresh (dom h)), (<[fresh (dom h) := sort_by gt items]> h), brands.
  split; [reflexivity |]. split; [| split; [exact Hnd |]].
  - unfold renderImoveis, ImoveisPage.renderImoveis.
    rewrite Hl, lookup_insert_eq.
    rewrite bool_decide_eq_true_2 by reflexivity.
    fold renderCard.
    destruct (imoveis_forEach_grouped fotos (sort_by gt items)
                (sort_by_Forall gt _ items Himg)
                (sort_by_Forall gt _ items Hm) None []) as (last' & E).
    simpl option_map in E. rewrite E.
    simpl app. rewrite Hg. reflexivity.
  - intros m. rewrite Hin. rewrite List.Forall_forall in Hm.
    split; intros (a & Hain & E); exists a; (split; [exact Hain |]).
    + rewrite (marcaImovel_present a (Hm a Hain)). now rewrite E.
    + unfold marcaImovel. now rewrite E.
Qed.

(** What [sortImoveis] arranges the records as, when it returns. *)
Let arranged (v : jsstring) (items : list Imoveis.imovel)
    : list Imoveis.imovel :=
  if bool_decide (v = str "valor_asc") then
    sort_by (fun a b => gt0 (num_sub (valorNumber a) (valorNumber b))) items
  else if bool_decide (v = str "marca_asc") then
    sort_by (fun a b => gt0 (ptBR localeCompare (marcaImovel a) (marcaImovel b)))
            items
  else items.

(** The mode does not compare brands, or every record has one. *)
Let sortable (v : jsstring) (items : list Imoveis.imovel) : Prop :=
  v = str "marca_asc" -> Forall (fun a => Imoveis.marca a <> None) items.

Lemma imoveis_sort_outcome (h : store Imoveis.imovel) data items v :
  h !! data = Some items ->
  Forall (fun a => Imoveis.valor a <> None) items ->
  sortable v items ->
  exists r h',
    Imoveis.sortImoveis localeCompare data v h = (Ok r, h')
    /\ h' !! r = Some (arranged v items)
    /\ h' !! data = Some items.
Proof.
  intros H Hall Hm.
  pose proof (imoveis_frame localeCompare h data v items H) as Hf.
  assert (Hd : (Imoveis.sortImoveis localeCompare data v h).2 !! data = Some items)
    by (rewrite <- H; apply Hf; rewrite H; eauto).
  unfold arranged.
  destruct (decide (v = str "valor_asc")) as [-> | N1].
  { assert (E : Imoveis.sortImoveis localeCompare data (str "valor_asc") h
                = (Ok (fresh (dom h)),
                   <[fresh (dom h) :=
                       sort_by (fun a b => gt0 (num_sub (valorNumber a)
                                                        (valorNumber b)))
                               items]> h)).
    { unfold Imoveis.sortImoveis. rewrite (spread_spec _ _ _ H).
      rewrite bool_decide_eq_true_2 by reflexivity.
      apply sort_copy_ok. apply array_sort_byValor_ok, Hall. }
    rewrite E in Hd |- *.
    eexists _, _. split; [reflexivity |].
    split; [apply lookup_insert_eq | exact Hd]. }
  rewrite (bool_decide_eq_false_2 _ N1).
  destruct (decide (v = str "marca_asc")) as [-> | N2].
  { rewrite (imoveis_marca_asc localeCompare h data items H (Hm eq_refl))
      in Hd |- *.
    eexists _, _. split; [reflexivity |].
    split; [apply lookup_insert_eq | exact Hd]. }
  rewrite (bool_decide_eq_false_2 _ N2).
  rewrite (imoveis_fallback localeCompare h data v items H N1 N2) in Hd |- *.
  eexists _, _. split; [reflexivity |]. split; exact Hd.
Qed.

Lemma imoveis_sort_throws (h : store Imoveis.imovel) data items :
  h !! data = Some items ->
  (2 <= length items)%nat ->
  Exists (fun a => Imoveis.valor a = None) items ->
  Imoveis.sortImoveis localeCompare data (str "valor_asc") h
  = (Throw TypeError, <[fresh (dom h) := items]> h).
Proof.
  intros H Hlen Hex. unfold Imoveis.sortImoveis.
  rewrite (spread_spec _ _ _ H).
  rewrite bool_decide_eq_true_2 by reflexivity.
  unfold sortInPlace. rewrite lookup_insert_eq.
  now rewrite array_sort_byValor_throws.
Qed.

Let shown (v : jsstring) (items : list Imoveis.imovel) : list Dom.element :=
  (forEach (renderCard (bool_decide (v = str "marca_asc")))
           items (None, [])).2.2.

Lemma imoveis_render_outcome r v (h : store Imoveis.imovel) d items :
  h !! r = Some items ->
  Dom.lista (renderImoveis r v h d).2
    = match Dom.lista d with
      | Some _ => Some (shown v items)
      | None => None
      end
  /\ Dom.sortSelect (renderImoveis r v h d).2 = Dom.sortSelect d.
Proof.
  intros H. unfold renderImoveis, ImoveisPage.renderImoveis, shown.
  destruct (Dom.lista d) eqn:Hl; [| simpl; now rewrite Hl].
  rewrite H. fold renderCard.
  destruct (forEach _ items (None, [])) as [res [last children]].
  split; reflexivity.
Qed.

(** A state in which every selection re-renders the listing. *)
Let enabled (items : list Imoveis.imovel) (st : ImoveisPage.state) : Prop :=
  ImoveisPage.listening st = true
  /\ is_Some (Dom.sortSelect (ImoveisPage.doc st))
  /\ ImoveisPage.heap st !! ImoveisPage.imoveisData st = Some items.

Lemma imoveis_onChange_enabled v items st :
  Forall (fun a => Imoveis.valor a <> None) items ->
  sortable v items ->
  enabled items st ->
  Dom.lista (ImoveisPage.doc (onChange v st))
    = match Dom.lista (ImoveisPage.doc st) with
      | Some _ => Some (shown v (arranged v items))
      | None => None
      end
  /\ enabled items (onChange v st).
Proof.
  intros Hall Hm (Hlis & [sel Hsel] & Hdata).
  unfold onChange, ImoveisPage.onChange. rewrite Hsel, Hlis.
  destruct (imoveis_sort_outcome _ _ _ v Hdata Hall Hm)
    as (r & h' & -> & Hr & Hd).
  destruct (imoveis_render_outcome r v h'
              (Dom.withSelected v (ImoveisPage.doc st))
              (arranged v items) Hr) as [Hl Hs].
  fold renderImoveis. simpl. rewrite Hl. simpl.
  split; [reflexivity |].
  unfold enabled. simpl.
  split; [reflexivity |]. split; [rewrite Hs; simpl; eauto | exact Hd].
Qed.

Lemma imoveis_selections_enabled items options : forall st,
  Forall (fun a => Imoveis.valor a <> None) items ->
  (forall v, In v options -> sortable v items) ->
  enabled items st ->
  enabled items (selections options st)
  /\ (is_Some (Dom.lista (ImoveisPage.doc (selections options st)))
      <-> is_Some (Dom.lista (ImoveisPage.doc st))).
Proof.
  induction options as [| v t IH]; intros st Hall Hm He;
    [split; [exact He | reflexivity] |].
  destruct (imoveis_onChange_enabled v items st Hall
              (Hm v (or_introl eq_refl)) He) as [Hl He'].
  destruct (IH (onChange v st) Hall (fun w Hw => Hm w (or_intror Hw)) He')
    as [He'' Hs].
  split; [exact He'' |]. etransitivity; [exact Hs |].
  fold onChange. rewrite Hl.
  destruct (Dom.lista (ImoveisPage.doc st)); split; intros [x Hx];
    try discriminate; eauto.
Qed.

Lemma imoveis_last_selection_decides items options v st :
  Forall (fun a => Imoveis.valor a <> None) items ->
  (In (str "marca_asc") (options ++ [v]) ->
   Forall (fun a => Imoveis.marca a <> None) items) ->
  enabled items st ->
  Dom.lista (ImoveisPage.doc (selections (options ++ [v]) st))
  = Dom.lista (ImoveisPage.doc (onChange v st)).
Proof.
  intros Hall Hm He.
  assert (E : selections (options ++ [v]) st = onChange v (selections options st)).
  { unfold selections, ImoveisPage.selections. now rewrite fold_left_app. }
  rewrite E.
  assert (Hv : sortable v items).
  { intros ->. apply Hm, in_or_app. right. now left. }
  assert (Ho : forall w, In w options -> sortable w items).
  { intros w Hw ->. apply Hm, in_or_app. now left. }
  destruct (imoveis_selections_enabled items options st Hall Ho He) as [He' Hs].
  rewrite (proj1 (imoveis_onChange_enabled v items _ Hall Hv He')).
  rewrite (proj1 (imoveis_onChange_enabled v items _ Hall Hv He)).
  destruct (Dom.lista (ImoveisPage.doc (selections options st))) eqn:E1,
           (Dom.lista (ImoveisPage.doc st)) eqn:E2; try reflexivity.
  - destruct (proj1 Hs) as [x Hx]; [eauto | discriminate].
  - destruct (proj2 Hs) as [x Hx]; [eauto | discriminate].
Qed.

(** A selection whose sort throws leaves the listing as it was. *)
Lemma imoveis_onChange_throws items st :
  enabled items st ->
  (2 <= length items)%nat ->
  Exists (fun a => Imoveis.valor a = None) items ->
  Dom.lista (ImoveisPage.doc (onChange (str "valor_asc") st))
    = Dom.lista (ImoveisPage.doc st)
  /\ Dom.sortSelect (ImoveisPage.doc (onChange (str "valor_asc") st))
     = Some (str "valor_asc")
  /\ Dom.console (ImoveisPage.doc (onChange (str "valor_asc") st))
     = Dom.console (ImoveisPage.doc st).
Proof.
  intros (Hlis & [sel Hsel] & Hdata) Hlen Hex.
  unfold onChange, ImoveisPage.onChange. rewrite Hsel, Hlis.
  rewrite (imoveis_sort_throws _ _ _ Hdata Hlen Hex).
  repeat split.
Qed.

End ImoveisPageFacts.

Lemma lista_imoveis_told_apart :
  tellsApart (ptBR collateBase) (List.map marcaImovel lista_marcas_imoveis).
Proof.
  intros a b Ha Hb.
  change (List.map marcaImovel lista_marcas_imoveis)
    with [str "Sobrado"; str "Casa"; str "Sobrado"] in Ha, Hb.
  destruct Ha as [<- | [<- | [<- | []]]];
    destruct Hb as [<- | [<- | [<- | []]]];
    intros H; try reflexivity; vm_compute in H; discriminate.
Qed.

Lemma lista_marcas_imoveis_marca :
  Forall (fun a => Imoveis.marca a <> None) lista_marcas_imoveis.
Proof. repeat constructor; discriminate. Qed.

(** X12.  The imoveis page groups by brand in the same way: for a
    catalog whose records all have a brand and pictures, a consistent
    collation under which no two different brands of the catalog compare
    as equal, and a page with the listing container, [sortImoveis] in
    mode "marca_asc" followed by [renderImoveis] leaves in the container
    one section per brand, each brand once, with the cards of the
    brand's records in their catalog order. *)
Theorem imoveis_marca_asc_listing_grouped
    (localeCompare : jsstring -> jsstring -> jsstring -> number)
    (imagens : Imoveis.imovel -> option (list jsstring))
    (localizacao : Imoveis.imovel -> option jsstring)
    (fotos : Imoveis.imovel -> list jsstring)
    (h : store Imoveis.imovel) (data : loc) (items : list Imoveis.imovel)
    (d : Dom.page) :
  consistent (ptBR localeCompare) ->
  tellsApart (ptBR localeCompare) (List.map marcaImovel items) ->
  h !! data = Some items ->
  Forall (fun a => Imoveis.marca a <> None) items ->
  Forall (fun a => imagens a = Some (fotos a)) items ->
  is_Some (Dom.lista d) ->
  exists r h' brands,
    Imoveis.sortImoveis localeCompare data (str "marca_asc") h = (Ok r, h')
    /\ ImoveisPage.renderImoveis imagens localizacao r (str "marca_asc") h' d
       = (Ok tt,
          Dom.withLista
            (flat_map
               (brandSection marcaImovel
                  (fun a => ImoveisPage.card localizacao a (fotos a)) items)
               brands) d)
    /\ List.NoDup brands
    /\ (forall m, In m brands
                  <-> exists a, In a items /\ Imoveis.marca a = Some m).
Proof.
  intros Hc Hsep H Hm Himg Hl.
  exact (imoveis_marca_asc_shown localeCompare imagens localizacao fotos
           h data items d Hc Hsep H Hm Himg Hl).
Qed.

Lemma imoveis_marca_asc_listing_grouped_witness :
  consistent (ptBR collateBase)
  /\ tellsApart (ptBR collateBase) (List.map marcaImovel lista_marcas_imoveis)
  /\ store_marcas_imoveis !! 1%positive = Some lista_marcas_imoveis
  /\ Forall (fun a => Imoveis.marca a <> None) lista_marcas_imoveis
  /\ Forall (fun a => Some (fotosImovel a) = Some (fotosImovel a))
       lista_marcas_imoveis
  /\ is_Some (Dom.lista pagina)
  /\ exists r h' brands,
       Imoveis.sortImoveis collateBase 1%positive (str "marca_asc")
         store_marcas_imoveis = (Ok r, h')
       /\ ImoveisPage.renderImoveis (fun a => Some (fotosImovel a)) (fun _ => None)
            r (str "marca_asc") h' pagina
          = (Ok tt,
             Dom.withLista
               (flat_map
                  (brandSection marcaImovel
                     (fun a => ImoveisPage.card (fun _ => None) a (fotosImovel a))
                     lista_marcas_imoveis)
                  brands) pagina)
       /\ List.NoDup brands
       /\ (forall m, In m brands
                     <-> exists a, In a lista_marcas_imoveis
                                   /\ Imoveis.marca a = Some m).
Proof.
  assert (H1 : store_marcas_imoveis !! 1%positive = Some lista_marcas_imoveis)
    by reflexivity.
  assert (H2 : Forall (fun a => Some (fotosImovel a) = Some (fotosImovel a))
                 lista_marcas_imoveis)
    by (apply Forall_true; reflexivity).
  assert (H3 : is_Some (Dom.lista pagina)) by (simpl; eauto).
  split; [exact collateBase_consistent |].
  split; [exact lista_imoveis_told_apart |].
  split; [exact H1 |]. split; [exact lista_marcas_imoveis_marca |].
  split; [exact H2 |]. split; [exact H3 |].
  exact (imoveis_marca_asc_listing_grouped collateBase
           (fun a => Some (fotosImovel a)) (fun _ => None) fotosImovel
           store_marcas_imoveis 1%positive lista_marcas_imoveis pagina
           collateBase_consistent lista_imoveis_told_apart H1
           lista_marcas_imoveis_marca H2 H3).
Defined.

(** X13.  On the imoveis page a selection re-renders the listing unless
    its sort throws.  Once the listener is added and [imoveisData] holds
    the loaded records: when every record has a [valor] and, if
    "marca_asc" is among the selections, a [marca], the listing after a
    sequence of selections is the one the last selection alone would
    show; when there are two or more records and one has no [valor],
    selecting "valor_asc" leaves the listing as it was and logs nothing,
    while the selector shows "valor_asc". *)
Theorem imoveis_selection_rerenders_or_stays
    (localeCompare : jsstring -> jsstring -> jsstring -> number)
    (imagens : Imoveis.imovel -> option (list jsstring))
    (localizacao : Imoveis.imovel -> option jsstring)
    (st : ImoveisPage.state) (items : list Imoveis.imovel)
    (options : list jsstring) (v : jsstring) :
  ImoveisPage.listening st = true ->
  is_Some (Dom.sortSelect (ImoveisPage.doc st)) ->
  ImoveisPage.heap st !! ImoveisPage.imoveisData st = Some items ->
  (Forall (fun a => Imoveis.valor a <> None) items ->
   (In (str "marca_asc") (options ++ [v]) ->
    Forall (fun a => Imoveis.marca a <> None) items) ->
   Dom.lista
     (ImoveisPage.doc
        (ImoveisPage.selections localeCompare imagens localizacao
           (options ++ [v]) st))
   = Dom.lista
       (ImoveisPage.doc
          (ImoveisPage.onChange localeCompare imagens localizacao v st)))
  /\ ((2 <= length items)%nat ->
      Exists (fun a => Imoveis.valor a = None) items ->
      Dom.lista
        (ImoveisPage.doc
           (ImoveisPage.onChange localeCompare imagens localizacao
              (str "valor_asc") st))
      = Dom.lista (ImoveisPage.doc st)
      /\ Dom.sortSelect
           (ImoveisPage.doc
              (ImoveisPage.onChange localeCompare imagens localizacao
                 (str "valor_asc") st))
         = Some (str "valor_asc")
      /\ Dom.console
           (ImoveisPage.doc
              (ImoveisPage.onChange localeCompare imagens localizacao
                 (str "valor_asc") st))
         = Dom.console (ImoveisPage.doc st)).
Proof.
  intros Hlis Hsel Hdata. split.
  - intros Hall Hm.
    apply (imoveis_last_selection_decides localeCompare imagens localizacao
             items options v st Hall Hm).
    repeat split; assumption.
  - intros Hlen Hex.
    apply (imoveis_onChange_throws localeCompare imagens localizacao items st);
      [repeat split |..]; assumption.
Qed.

Lemma imoveis_selection_rerenders_or_stays_witness :
  ImoveisPage.listening
    (ImoveisPage.onDOMContentLoaded collateBase
       (fun a => Some (fotosImovel a)) (fun _ => None)
       (Dom.Response true 200 (Some lista_sem_valor)) imoveis_inicio) = true
  /\ is_Some
       (Dom.sortSelect
          (ImoveisPage.doc
             (ImoveisPage.onDOMContentLoaded collateBase
                (fun a => Some (fotosImovel a)) (fun _ => None)
                (Dom.Response true 200 (Some lista_sem_valor)) imoveis_inicio)))
  /\ ImoveisPage.heap
       (ImoveisPage.onDOMContentLoaded collateBase
          (fun a => Some (fotosImovel a)) (fun _ => None)
          (Dom.Response true 200 (Some lista_sem_valor)) imoveis_inicio)
     !! ImoveisPage.imoveisData
          (ImoveisPage.onDOMContentLoaded collateBase
             (fun a => Some (fotosImovel a)) (fun _ => None)
             (Dom.Response true 200 (Some lista_sem_valor)) imoveis_inicio)
     = Some lista_sem_valor
  /\ Dom.lista
       (ImoveisPage.doc
          (ImoveisPage.onChange collateBase
             (fun a => Some (fotosImovel a)) (fun _ => None) (str "valor_asc")
             (ImoveisPage.onDOMContentLoaded collateBase
                (fun a => Some (fotosImovel a)) (fun _ => None)
                (Dom.Response true 200 (Some lista_sem_valor)) imoveis_inicio)))
     = Dom.lista
         (ImoveisPage.doc
            (ImoveisPage.onDOMContentLoaded collateBase
               (fun a => Some (fotosImovel a)) (fun _ => None)
               (Dom.Response true 200 (Some lista_sem_valor)) imoveis_inicio)).
Proof.
  set (st := ImoveisPage.onDOMContentLoaded collateBase
               (fun a => Some (fotosImovel a)) (fun _ => None)
               (Dom.Response true 200 (Some lista_sem_valor)) imoveis_inicio).
  assert (H1 : ImoveisPage.listening st = true) by (vm_compute; reflexivity).
  assert (H2 : is_Some (Dom.sortSelect (ImoveisPage.doc st)))
    by (vm_compute; eauto).
  assert (H3 : ImoveisPage.heap st !! ImoveisPage.imoveisData st
               = Some lista_sem_valor) by (vm_compute; reflexivity).
  split; [exact H1 |]. split; [exact H2 |]. split; [exact H3 |].
  apply (proj2 (imoveis_selection_rerenders_or_stays collateBase
                  (fun a => Some (fotosImovel a)) (fun _ => None)
                  st lista_sem_valor [] (str "valor_asc") H1 H2 H3)).
  - simpl. lia.
  - apply Exists_cons_tl, Exists_cons_hd. reflexivity.
Defined.

(** X14.  Outside the "marca_asc" mode [renderImoveis] of carros.js
    shows one card per record, in the order of the array, and nothing
    else, whatever the container held before.  A record without
    pictures stops it with a TypeError: the cards of the records before
    it are in the container, its own card and those of the records after
    it are not. *)
Theorem render_cards_until_missing_pictures
    (numberToString : number -> jsstring)
    (toLocaleString : number -> jsstring)
    (imagens : Carros.carro -> option (list jsstring))
    (fotos : Carros.carro -> list jsstring)
    (r : loc) (v : jsstring) (h : store Carros.carro) (d : Dom.page)
    (pre : list Carros.carro) :
  is_Some (Dom.lista d) ->
  v <> str "marca_asc" ->
  Forall (fun c => imagens c = Some (fotos c)) pre ->
  (h !! r = Some pre ->
   CarrosPage.renderImoveis numberToString toLocaleString imagens r v h d
   = (Ok tt,
      Dom.withLista
        (List.map
           (fun c => CarrosPage.card numberToString toLocaleString false
                       (bool_decide (v = str "desconto_desc")) c (fotos c))
           pre) d))
  /\ (forall bad post,
        h !! r = Some (pre ++ bad :: post) ->
        imagens bad = None ->
        CarrosPage.renderImoveis numberToString toLocaleString imagens r v h d
        = (Throw TypeError,
           Dom.withLista
             (List.map
                (fun c => CarrosPage.card numberToString toLocaleString false
                            (bool_decide (v = str "desconto_desc")) c (fotos c))
                pre) d)).
Proof.
  intros Hl Hv Hpre. split.
  - intros H.
    exact (render_cards numberToString toLocaleString imagens fotos
             r v h d pre H Hl Hv Hpre).
  - intros bad post H Hbad.
    exact (render_stops numberToString toLocaleString imagens fotos
             r v h d pre bad post H Hl Hv Hpre Hbad).
Qed.

Lemma render_cards_until_missing_pictures_witness :
  is_Some (Dom.lista pagina)
  /\ str "default" <> str "marca_asc"
  /\ Forall (fun c => fotos_sem (str "m3") c = Some (fotos c))
       (firstn 2 catalogo_marcas)
  /\ CarrosPage.renderImoveis (fun _ => []) (fun _ => []) (fotos_sem (str "m3"))
       1%positive (str "default") store_carros pagina
     = (Throw TypeError,
        Dom.withLista
          (List.map
             (fun c => CarrosPage.card (fun _ => []) (fun _ => []) false
                         (bool_decide (str "default" = str "desconto_desc"))
                         c (fotos c))
             (firstn 2 catalogo_marcas)) pagina).
Proof.
  assert (H1 : is_Some (Dom.lista pagina)) by (simpl; eauto).
  assert (H2 : str "default" <> str "marca_asc") by discriminate.
  assert (H3 : Forall (fun c => fotos_sem (str "m3") c = Some (fotos c))
                 (firstn 2 catalogo_marcas))
    by (repeat constructor).
  split; [exact H1 |]. split; [exact H2 |]. split; [exact H3 |].
  exact (proj2 (render_cards_until_missing_pictures (fun _ => []) (fun _ => [])
                  (fotos_sem (str "m3")) fotos 1%positive (str "default")
                  store_carros pagina (firstn 2 catalogo_marcas) H1 H2 H3)
           (carro_de (str "m3") (str "Alfa") (str "R$ 5,00") (str "R$ 4,00"))
           [carro_de (str "m4") (str "Zeta") (str "R$ 3,00") (str "R$ 2,00")]
           eq_refl eq_refl).
Defined.

(** X15.  The page never changes the catalog it loaded.  After a
    response that is ok and holds a JSON catalog, [imoveisData] refers
    to an array with exactly the records of the response, in their
    order; and it still does after any sequence of selections, whatever
    their modes and whether or not rendering failed. *)
Theorem catalog_kept_as_loaded
    (numberToString : number -> jsstring)
    (localeCompare : jsstring -> jsstring -> jsstring -> number)
    (toLocaleString : number -> jsstring)
    (imagens : Carros.carro -> option (list jsstring))
    (status : N) (carros : list Carros.carro)
    (st : CarrosPage.state) (options : list jsstring) :
  CarrosPage.heap
    (CarrosPage.selections numberToString localeCompare toLocaleString imagens
       options
       (CarrosPage.onDOMContentLoaded numberToString localeCompare
          toLocaleString imagens (Dom.Response true status (Some carros)) st))
  !! CarrosPage.imoveisData
       (CarrosPage.selections numberToString localeCompare toLocaleString
          imagens options
          (CarrosPage.onDOMContentLoaded numberToString localeCompare
             toLocaleString imagens (Dom.Response true status (Some carros)) st))
  = Some carros.
Proof.
  apply selections_keep_data, load_keeps_data.
Qed.

(** X16.  With the selector on "default", or on a page without the
    selector, a successful load of a catalog whose records all have
    pictures shows the catalog in the order of the file: the listing
    container holds one card per record, in that order, with the brand
    in the card title and no discount line, and nothing is logged. *)
Theorem load_shows_catalog_in_file_order
    (numberToString : number -> jsstring)
    (localeCompare : jsstring -> jsstring -> jsstring -> number)
    (toLocaleString : number -> jsstring)
    (imagens : Carros.carro -> option (list jsstring))
    (fotos : Carros.carro -> list jsstring)
    (status : N) (carros : list Carros.carro) (st : CarrosPage.state) :
  Dom.sortSelect (CarrosPage.doc st) = None
  \/ Dom.sortSelect (CarrosPage.doc st) = Some (str "default") ->
  is_Some (Dom.lista (CarrosPage.doc st)) ->
  Forall (fun c => imagens c = Some (fotos c)) carros ->
  CarrosPage.doc
    (CarrosPage.onDOMContentLoaded numberToString localeCompare toLocaleString
       imagens (Dom.Response true status (Some carros)) st)
  = Dom.withLista
      (List.map
         (fun c => CarrosPage.card numberToString toLocaleString false false
                     c (fotos c)) carros)
      (CarrosPage.doc st).
Proof.
  intros Hsel Hl Hall.
  exact (load_default_listing numberToString localeCompare toLocaleString
           imagens fotos status carros st Hsel Hl Hall).
Qed.

Lemma load_shows_catalog_in_file_order_witness :
  (Dom.sortSelect (CarrosPage.doc carros_inicio) = None
   \/ Dom.sortSelect (CarrosPage.doc carros_inicio) = Some (str "default"))
  /\ is_Some (Dom.lista (CarrosPage.doc carros_inicio))
  /\ Forall (fun c => Some (fotos c) = Some (fotos c)) catalogo_marcas
  /\ CarrosPage.doc
       (CarrosPage.onDOMContentLoaded (fun _ => []) collateBase (fun _ => [])
          (fun c => Some (fotos c))
          (Dom.Response true 200 (Some catalogo_marcas)) carros_inicio)
     = Dom.withLista
         (List.map
            (fun c => CarrosPage.card (fun _ => []) (fun _ => []) false false
                        c (fotos c)) catalogo_marcas)
         (CarrosPage.doc carros_inicio).
Proof.
  assert (H1 : Dom.sortSelect (CarrosPage.doc carros_inicio) = None
               \/ Dom.sortSelect (CarrosPage.doc carros_inicio)
                  = Some (str "default")) by (right; reflexivity).
  assert (H2 : is_Some (Dom.lista (CarrosPage.doc carros_inicio)))
    by (simpl; eauto).
  assert (H3 : Forall (fun c => Some (fotos c) = Some (fotos c)) catalogo_marcas)
    by (apply Forall_true; reflexivity).
  split; [exact H1 |]. split; [exact H2 |]. split; [exact H3 |].
  exact (load_shows_catalog_in_file_order (fun _ => []) collateBase (fun _ => [])
           (fun c => Some (fotos c)) fotos 200 catalogo_marcas carros_inicio
           H1 H2 H3).
Defined.

(* ===================================================================== *)
(** * Records without a price, prices out of range *)
(* ===================================================================== *)

Lemma nonNegative_zero_or_positive x :
  wf x -> nonNegative x -> gt0 x = negb (num_eqb x zero).
Proof.
  destruct x as [[] | [] | | [] m e]; simpl; try tauto; try reflexivity.
  intros He _. pose proof (ulps_finite_pos m e He) as Hp.
  unfold num_eqb, num_leb, ulps, zero, cond_Zopp.
  assert (E : (Zpos m * 2 ^ (e - emin) <=? 0) = false) by (apply Z.leb_gt; lia).
  rewrite E. reflexivity.
Qed.

Lemma nonNegative_eq_zero x :
  nonNegative x -> num_eqb x zero = true -> wf x -> x = zero.
Proof.
  intros Hn He Hw. apply nonNegative_le0; [exact Hw | exact Hn |].
  unfold num_eqb in He. now apply andb_true_iff in He as [He _].
Qed.

Lemma num_eqb_sym x y : num_eqb x y = num_eqb y x.
Proof. unfold num_eqb. apply andb_comm. Qed.

Lemma filter_nil_all {A} (p : A -> bool) t :
  Forall (fun y => p y = false) t -> List.filter p t = [].
Proof.
  induction 1 as [| y t Hy _ IH]; simpl; [reflexivity |]. now rewrite Hy.
Qed.

Lemma filter_all {A} (p : A -> bool) t :
  Forall (fun y => p y = false) t -> List.filter (fun y => negb (p y)) t = t.
Proof.
  induction 1 as [| y t Hy _ IH]; simpl; [reflexivity |]. now rewrite Hy, IH.
Qed.

Section UnpricedFirst.

Let key := precoPcdNumber.
Let unpriced (c : Carros.carro) : bool := num_eqb (key c) zero.

Lemma key_facts c : wf (key c) /\ nonNegative (key c).
Proof.
  split; [apply cleanAndParseValue_wf | apply cleanAndParseValue_nonNegative].
Qed.

Lemma after_priced x y :
  unpriced x = false -> num_leb (key x) (key y) = true -> unpriced y = false.
Proof.
  unfold unpriced. intros Hx Hle.
  destruct (num_eqb (key y) zero) eqn:Hy; [| reflexivity].
  destruct (key_facts x) as [Wx Nx]. destruct (key_facts y) as [Wy Ny].
  rewrite (nonNegative_eq_zero _ Ny Hy Wy) in Hle.
  rewrite (nonNegative_le0 _ Wx Nx Hle) in Hx. discriminate.
Qed.

(** In a sequence in non-decreasing order of price the records priced 0
    come first. *)
Lemma unpriced_prefix l :
  nonDecreasing key l ->
  l = List.filter unpriced l ++ List.filter (fun c => negb (unpriced c)) l.
Proof.
  induction 1 as [| x t Hs IH Hx]; [reflexivity |]. simpl.
  destruct (unpriced x) eqn:Ux; simpl.
  - now rewrite <- IH.
  - assert (Hall : Forall (fun y => unpriced y = false) t).
    { eapply Forall_impl; [exact Hx |]. intros y Hy. exact (after_priced x y Ux Hy). }
    rewrite (filter_nil_all _ t Hall), (filter_all _ t Hall). reflexivity.
Qed.

End UnpricedFirst.

(** X17.  Records priced 0 come first.  In the carros variant, with mode
    "valor_asc", the records whose [preco_pcd] parses to 0 (a missing or
    empty field, a text without a digit and a written zero such as
    "R$ 0,00" alike) open the returned array, in the order they have in
    the input, so that a record without a price does not overtake an
    earlier record priced "R$ 0,00"; every record after them has a
    price above 0. *)
Theorem valor_asc_zero_price_first
    (localeCompare : jsstring -> jsstring -> jsstring -> number)
    (h : store Carros.carro) (data : loc) (items : list Carros.carro) :
  h !! data = Some items ->
  exists sorted priced,
    returnsArray (Carros.sortImoveis localeCompare data (str "valor_asc") h) sorted
    /\ sorted
       = List.filter (fun c => num_eqb (precoPcdNumber c) zero) items ++ priced
    /\ Forall (fun c => gt0 (precoPcdNumber c) = true) priced.
Proof.
  intros H. rewrite (carros_valor_asc localeCompare h data items H).
  set (gt := fun a b : Carros.carro =>
               gt0 (num_sub (precoPcdNumber a) (precoPcdNumber b))).
  set (unpriced := fun c : Carros.carro => num_eqb (precoPcdNumber c) zero).
  destruct (sort_ascending precoPcdNumber items (precoPcdNumber_ordered items))
    as (Hperm & Hsorted & Hkeeps).
  fold gt in Hperm, Hsorted, Hkeeps.
  exists (sort_by gt items),
         (List.filter (fun c => negb (unpriced c)) (sort_by gt items)).
  split; [apply returnsArray_fresh |]. split.
  - rewrite (unpriced_prefix _ Hsorted) at 1. f_equal. fold unpriced.
    destruct (List.filter unpriced items) as [| z rest] eqn:Hz.
    + apply filter_nil_all.
      assert (Hall : Forall (fun y => unpriced y = false) items).
      { apply List.Forall_forall. intros y Hy.
        destruct (unpriced y) eqn:Uy; [| reflexivity].
        assert (Hin : In y (List.filter unpriced items))
          by (apply List.filter_In; split; assumption).
        rewrite Hz in Hin. destruct Hin. }
      eapply Permutation_Forall; [symmetry; exact Hperm | exact Hall].
    + assert (Hin : In z (List.filter unpriced items)) by (rewrite Hz; now left).
      apply List.filter_In in Hin as [Hzin Uz].
      rewrite <- Hz.
      assert (Ez : precoPcdNumber z = zero).
      { apply nonNegative_eq_zero;
          [apply cleanAndParseValue_nonNegative | exact Uz
          | apply cleanAndParseValue_wf]. }
      assert (Ext : forall l, List.filter unpriced l
                              = List.filter (samePrice precoPcdNumber z) l).
      { intros l. apply List.filter_ext. intros y.
        unfold unpriced, samePrice. rewrite Ez. apply num_eqb_sym. }
      rewrite !Ext. exact (Hkeeps z Hzin).
  - apply List.Forall_forall. intros c Hc.
    apply List.filter_In in Hc as [_ Uc].
    rewrite nonNegative_zero_or_positive;
      [exact Uc | apply cleanAndParseValue_wf | apply cleanAndParseValue_nonNegative].
Qed.

Lemma valor_asc_zero_price_first_witness :
  store_precos_zero !! 1%positive = Some catalogo_precos_zero
  /\ List.filter (fun c => num_eqb (precoPcdNumber c) zero) catalogo_precos_zero
     = [ carro_de (str "z2") (str "Fiat") (str "R$ 9,00") (str "R$ 0,00");
         carro_sem_pcd ]
  /\ exists sorted priced,
       returnsArray
         (Carros.sortImoveis collateBase 1%positive (str "valor_asc")
            store_precos_zero)
         sorted
       /\ sorted
          = List.filter (fun c => num_eqb (precoPcdNumber c) zero)
              catalogo_precos_zero
            ++ priced
       /\ Forall (fun c => gt0 (precoPcdNumber c) = true) priced.
Proof.
  assert (H : store_precos_zero !! 1%positive = Some catalogo_precos_zero)
    by reflexivity.
  split; [exact H |]. split; [vm_compute; reflexivity |].
  exact (valor_asc_zero_price_first collateBase store_precos_zero 1%positive
           catalogo_precos_zero H).
Defined.

(** On that catalog: the record priced "R$ 0,00" and the record without
    a price come first, in their input order, then the prices 3 and 5. *)
Example valor_asc_zero_prices :
  (Carros.sortImoveis collateBase 1%positive (str "valor_asc")
     store_precos_zero).2 !! 2%positive
  = Some [ carro_de (str "z2") (str "Fiat") (str "R$ 9,00") (str "R$ 0,00");
           carro_sem_pcd;
           carro_de (str "z4") (str "Fiat") (str "R$ 9,00") (str "R$ 3,00");
           carro_de (str "z1") (str "Fiat") (str "R$ 9,00") (str "R$ 5,00") ].
Proof. vm_compute. reflexivity. Qed.

(** X18.  Prices beyond the binary64 range in the percentage.  For a
    record whose public price parses to [Infinity],
    [calculateDescontoPercentage] returns the string "NaN", whatever the
    PCD price; for a record whose public price is a positive finite
    number and whose PCD price parses to [Infinity] it returns the
    string "-Infinity". *)
Theorem percentage_out_of_range
    (numberToString : number -> jsstring) (c : Carros.carro) :
  (isFinite (Carros.cleanAndParseValue (Carros.preco_publico c)) = false ->
   Carros.calculateDescontoPercentage numberToString c = VString (str "NaN"))
  /\ (isFinite (Carros.cleanAndParseValue (Carros.preco_publico c)) = true ->
      gt0 (Carros.cleanAndParseValue (Carros.preco_publico c)) = true ->
      isFinite (Carros.cleanAndParseValue (Carros.preco_pcd c)) = false ->
      Carros.calculateDescontoPercentage numberToString c
      = VString (str "-Infinity")).
Proof.
  unfold Carros.calculateDescontoPercentage, Carros.calculateDesconto.
  rewrite !orDefault_parse.
  pose proof (cleanAndParseValue_nonNegative (Carros.preco_publico c)) as Pp.
  pose proof (cleanAndParseValue_nonNegative (Carros.preco_pcd c)) as Pd.
  destruct (Carros.cleanAndParseValue (Carros.preco_publico c))
    as [[] | [] | | [] m e]; simpl in Pp; try contradiction;
    (split; [intros Hf | intros Hf Hg Hd]); try discriminate;
    destruct (Carros.cleanAndParseValue (Carros.preco_pcd c))
      as [[] | [] | | [] m' e']; simpl in Pd; try contradiction;
    try discriminate; reflexivity.
Qed.

Lemma percentage_out_of_range_witness :
  isFinite (Carros.cleanAndParseValue (Carros.preco_publico carro_overflow))
    = false
  /\ Carros.calculateDescontoPercentage (fun _ => []) carro_overflow
     = VString (str "NaN").
Proof.
  assert (H : isFinite (Carros.cleanAndParseValue
                          (Carros.preco_publico carro_overflow)) = false)
    by (vm_compute; reflexivity).
  split; [exact H |].
  exact (proj1 (percentage_out_of_range (fun _ => []) carro_overflow) H).
Defined.
